(** * MALIS loss and gradient ([malis_impl.hxx]): shallow embedding

    The two entry points of [namespace malis_impl] are embedded:
    [compute_malis_gradient] and [compute_constrained_malis_gradient].

    Conventions of the embedding.
    - [DATA_TYPE] (and the [double] accumulators) are the exact rationals
      [Q]: every arithmetic operation of the source is kept, rounding is
      not modelled.  Results are compared with [Qeq].
    - [LABEL_TYPE] values read from the ground truth are integers [Z];
      node indices, edge indices and the [size_t] pair counters are [nat].
      The node count is held in an [int] by the source, and no counter
      leaves the range of [size_t] then (lemma [counters_in_range]); the
      only subtraction that could go below zero, [numberOfLabeledNodes - 1]
      without labeled nodes, is multiplied by zero.
    - [std::map<LabelType, size_t>] is a key-ordered association list, so
      that the iteration order of the source is the order of the list.
    - [std::vector] and the array data are lists, updated by index.
    - An entry point is a computation in a state and exception monad over
      its output parameters: a [throw] leaves with the outputs as they are
      at that point. *)

From Stdlib Require Import QArith Lqa.
From Stdlib Require Qminmax.
From stdpp Require Import base list sorting.

Local Close Scope Q_scope.
Local Open Scope nat_scope.

(** ** Dense arrays *)

Module Marray.

(** Modelled from the spec: [nifty::marray::View] is not part of this
    repository.  The spec takes dense arrays with row-major strides and
    random access by multi-index; a view is its shape and its elements in
    row-major order. *)
Record View (T : Type) := mkView { shape : list nat; data : list T }.
Arguments mkView {T} _ _.
Arguments shape {T} _.
Arguments data {T} _.

Definition product (l : list nat) : nat := foldr Nat.mul 1 l.

Fixpoint row_major_strides (shp : list nat) : list nat :=
  match shp with
  | [] => []
  | _ :: rest => product rest :: row_major_strides rest
  end.

Definition dimension {T} (v : View T) : nat := length (shape v).
Definition size {T} (v : View T) : nat := product (shape v).
Definition shape_at {T} (v : View T) (d : nat) : nat := shape v !!! d.
Definition strides {T} (v : View T) (d : nat) : nat :=
  row_major_strides (shape v) !!! d.

(** Offset of a multi-index: the sum of coordinate times stride. *)
Definition offset {T} (v : View T) (coord : list nat) : nat :=
  sum_list (zip_with Nat.mul coord (row_major_strides (shape v))).

Definition get {T} `{Inhabited T} (v : View T) (coord : list nat) : T :=
  data v !!! offset v coord.

Definition set {T} (v : View T) (coord : list nat) (x : T) : View T :=
  mkView (shape v) (<[offset v coord := x]> (data v)).

(** Element [ind] of the flattened (one-dimensional) view. *)
Definition flat {T} `{Inhabited T} (v : View T) (ind : nat) : T :=
  data v !!! ind.

(** A freshly allocated array of the given shape, every element [x]. *)
Definition filled {T} (shp : list nat) (x : T) : View T :=
  mkView shp (replicate (product shp) x).

Definition well_formed {T} (v : View T) : Prop :=
  length (data v) = size v.

(** Modelled from the spec: [nifty::tools::forEachCoordinate] is not part
    of this repository.  It visits every coordinate of the shape once, in
    row-major order: the [k]-th coordinate visited is the multi-index of
    the flat position [k]. *)
Definition coordinate_of (shp : list nat) (k : nat) : list nat :=
  (fun d => (if d is 0 then k else k mod (row_major_strides shp !!! (d - 1)))
            / (row_major_strides shp !!! d))
  <$> seq 0 (length shp).

Definition forEachCoordinate (shp : list nat) : list (list nat) :=
  coordinate_of shp <$> seq 0 (product shp).

End Marray.

Import Marray.

Global Instance Q_inhabited : Inhabited Q := populate 0%Q.

Definition Qgtb (x y : Q) : bool := negb (Qle_bool x y).
Definition Q_of_nat (n : nat) : Q := inject_Z (Z.of_nat n).

(** ** [std::map<LabelType, size_t>] *)

Module LabelMap.

Abbreviation t := (list (Z * nat)) (only parsing).

Definition empty : t := [].

Fixpoint find (k : Z) (m : t) : option nat :=
  match m with
  | [] => None
  | (k', v) :: m' => if (k' =? k)%Z then Some v else find k m'
  end.

(** [insert(make_pair(k, v))]: a key that is present is left as it is. *)
Fixpoint insert (k : Z) (v : nat) (m : t) : t :=
  match m with
  | [] => [(k, v)]
  | (k', v') :: m' =>
      if (k <? k')%Z then (k, v) :: m
      else if (k =? k')%Z then m
      else (k', v') :: insert k v m'
  end.

(** Assignment through an iterator or reference to the entry of [k]. *)
Fixpoint assign (k : Z) (v : nat) (m : t) : t :=
  match m with
  | [] => []
  | (k', v') :: m' =>
      if (k' =? k)%Z then (k', v) :: m' else (k', v') :: assign k v m'
  end.

(** [m[k]] as an rvalue, after the entry exists. *)
Definition at_ (k : Z) (m : t) : nat := default 0 (find k m).

(** [++m[k]]: [operator[]] creates the entry with value [0] when it is
    missing, then the entry is incremented. *)
Definition increment (k : Z) (m : t) : t :=
  let m1 := insert k 0 m in
  assign k (at_ k m1 + 1) m1.

(** The body of the loop that moves one entry [(k, v)] of the absorbed bag
    into the bag [m] that is kept. *)
Definition absorb_entry (m : t) (kv : Z * nat) : t :=
  match find kv.1 m with
  | None => insert kv.1 kv.2 m
  | Some u => assign kv.1 (u + kv.2) m
  end.

End LabelMap.

(** ** Union-find *)

Module UfdModel.

(** Modelled from the spec: [nifty::ufd::Ufd] is not part of this
    repository.  The spec asks for a standard disjoint-set forest whose
    [find] returns the representative of a node, with path semantics left
    open, and whose [merge] may keep either root.  The model keeps, for
    every node, its representative (the forest after full path
    compression, which [find] is allowed to perform) and the ranks that
    decide which root is kept: union by rank, the first argument winning a
    tie. *)
Record Ufd := mkUfd { parents_ : list nat; ranks_ : list nat }.

Definition init (n : nat) : Ufd := mkUfd (seq 0 n) (replicate n 0).

Definition find (s : Ufd) (element : nat) : nat :=
  default element (parents_ s !! element).

Definition link (s : Ufd) (child root : nat) : list nat :=
  (fun p => if p =? child then root else p) <$> parents_ s.

Definition merge (s : Ufd) (element1 element2 : nat) : Ufd :=
  let element1 := find s element1 in
  let element2 := find s element2 in
  if ranks_ s !!! element1 <? ranks_ s !!! element2 then
    mkUfd (link s element1 element2) (ranks_ s)
  else if ranks_ s !!! element2 <? ranks_ s !!! element1 then
    mkUfd (link s element2 element1) (ranks_ s)
  else if negb (element1 =? element2) then
    mkUfd (link s element2 element1)
          (<[element1 := ranks_ s !!! element1 + 1]> (ranks_ s))
  else s.

End UfdModel.

Import UfdModel.

(** ** Outputs, errors and the monad of an entry point *)

Inductive Error := ShapeMismatch | DegenerateNormalization.

(** The result of running an entry point from a state [S] of its output
    parameters: it returns normally, or an exception leaves it; in both
    cases the output parameters hold what was written up to that point. *)
Inductive Result (S A : Type) :=
  | Ok (a : A) (s : S)
  | Throw (e : Error) (s : S).
Arguments Ok {S A} _ _.
Arguments Throw {S A} _ _.

Definition M (S A : Type) := S -> Result S A.

Definition ret {S A} (a : A) : M S A := fun s => Ok a s.
Definition bind {S A B} (m : M S A) (k : A -> M S B) : M S B :=
  fun s => match m s with
           | Ok a s' => k a s'
           | Throw e s' => Throw e s'
           end.
Definition throw {S A} (e : Error) : M S A := fun s => Throw e s.
Definition gets {S A} (f : S -> A) : M S A := fun s => Ok (f s) s.
Definition modify {S} (f : S -> S) : M S unit := fun s => Ok tt (f s).
Definition check {S} (b : bool) (e : Error) : M S unit :=
  if b then ret tt else throw e.

Notation "x <- m ;; k" := (bind m (fun x => k))
  (at level 100, m at next level, right associativity).
Notation "m ;;; k" := (bind m (fun _ => k))
  (at level 100, right associativity).

Fixpoint forM_ {S A} (l : list A) (body : A -> M S unit) : M S unit :=
  match l with
  | [] => ret tt
  | x :: l' => body x ;;; forM_ l' body
  end.

(** The output parameters of [compute_malis_gradient]. *)
Record Outs := mkOuts {
  gradientsOut : View Q;
  lossOut : Q;
  classificationErrorOut : Q;
  randIndexOut : Q
}.

Definition set_gradientsOut (g : View Q) (o : Outs) : Outs :=
  mkOuts g (lossOut o) (classificationErrorOut o) (randIndexOut o).
Definition set_lossOut (x : Q) (o : Outs) : Outs :=
  mkOuts (gradientsOut o) x (classificationErrorOut o) (randIndexOut o).
Definition set_classificationErrorOut (x : Q) (o : Outs) : Outs :=
  mkOuts (gradientsOut o) (lossOut o) x (randIndexOut o).
Definition set_randIndexOut (x : Q) (o : Outs) : Outs :=
  mkOuts (gradientsOut o) (lossOut o) (classificationErrorOut o) x.

(** ** [compute_malis_gradient] *)

Section Malis.

(** [std::sort] leaves the order of equivalent elements open.  The
    embedding takes the sorting routine as a parameter, constrained only by
    what the standard promises for a comparator that is a strict weak
    ordering: the result is a rearrangement of the input, and no element is
    followed by one that compares before it. *)
Variable std_sort : (nat -> nat -> bool) -> list nat -> list nat.

Definition strict_weak_order (cmp : nat -> nat -> bool) : Prop :=
  (forall x, cmp x x = false) /\
  (forall x y z, cmp x y = true -> cmp y z = true -> cmp x z = true) /\
  (forall x y z, cmp x y = false -> cmp y z = false -> cmp x z = false).

Definition sorts_by (sort : (nat -> nat -> bool) -> list nat -> list nat) : Prop :=
  forall cmp l, strict_weak_order cmp ->
    StronglySorted (fun x y => cmp y x = false) (sort cmp l).

Definition permutes (sort : (nat -> nat -> bool) -> list nat -> list nat) : Prop :=
  forall cmp l, sort cmp l ≡ₚ l.

(** [NIFTY_CHECK_OP(a,==,b,msg)] throws when the comparison fails. *)
Definition NIFTY_CHECK_OP_eq {S} (a b : nat) : M S unit :=
  check (a =? b) ShapeMismatch.

Definition check_shapes {S} (DIM : nat) (affinities : View Q)
    (groundtruth : View Z) (gradients : View Q) : M S unit :=
  NIFTY_CHECK_OP_eq (shape_at affinities 0) DIM ;;;
  NIFTY_CHECK_OP_eq (shape_at gradients 0) DIM ;;;
  forM_ (seq 0 DIM) (fun d =>
    NIFTY_CHECK_OP_eq (shape_at affinities (d + 1)) (shape_at groundtruth d) ;;;
    NIFTY_CHECK_OP_eq (shape_at affinities (d + 1)) (shape_at gradients (d + 1))).

(** *** Step 1: the scan of the ground truth *)

Record Scan := mkScan {
  sc_overlaps : list LabelMap.t;
  sc_segmentSizes : LabelMap.t;
  sc_numberOfLabeledNodes : nat;
  sc_nPairPos : nat;
  sc_nodeIndex : nat
}.

Definition pixelShape_of (DIM : nat) (groundtruth : View Z) : list nat :=
  shape_at groundtruth <$> seq 0 DIM.

(** The body of the scan once [gtId] has been read. *)
Definition scan_node (gtId : Z) (s : Scan) : Scan :=
  let s1 :=
    if negb (gtId =? 0)%Z then
      let segmentSizes := LabelMap.increment gtId (sc_segmentSizes s) in
      mkScan
        (<[sc_nodeIndex s := LabelMap.insert gtId 1 (sc_overlaps s !!! sc_nodeIndex s)]>
           (sc_overlaps s))
        segmentSizes
        (sc_numberOfLabeledNodes s + 1)
        (sc_nPairPos s + (LabelMap.at_ gtId segmentSizes - 1))
        (sc_nodeIndex s)
    else s in
  mkScan (sc_overlaps s1) (sc_segmentSizes s1) (sc_numberOfLabeledNodes s1)
         (sc_nPairPos s1) (sc_nodeIndex s1 + 1).

Definition scan_body (groundtruth : View Z) (s : Scan) (coord : list nat) : Scan :=
  let gtId := get groundtruth coord in
  scan_node gtId s.

Definition scan (DIM : nat) (groundtruth : View Z) : Scan :=
  let numberOfNodes := size groundtruth in
  foldl (scan_body groundtruth)
        (mkScan (replicate numberOfNodes LabelMap.empty) LabelMap.empty 0 0 0)
        (forEachCoordinate (pixelShape_of DIM groundtruth)).

Definition nPairNorm_of (pos : bool) (s : Scan) : nat :=
  if pos then sc_nPairPos s
  else
    let nPairTot := (sc_numberOfLabeledNodes s * (sc_numberOfLabeledNodes s - 1)) / 2 in
    nPairTot - sc_nPairPos s.

(** *** Step 3: the sweep over the sorted edges *)

(** The variables that the sweep changes.  [nPairCounted] is not a variable
    of the source: it is the specification counter of the normalization
    invariant, the sum of the [nPair] values that reach one of the two
    branches that add to the loss. *)
Record Sweep := mkSweep {
  sets : Ufd;
  overlaps : list LabelMap.t;
  loss : Q;
  nPairIncorrect : nat;
  nPairCounted : nat;
  gradients : View Q
}.

Definition affCoord_of (DIM : nat) (affinities : View Q) (edgeIndex : nat) : list nat :=
  (edgeIndex / strides affinities 0) ::
  ((fun d => (edgeIndex mod strides affinities (d - 1)) / strides affinities d)
   <$> seq 1 DIM).

Definition node_of (DIM : nat) (groundtruth : View Z) (gtCoord : list nat) : nat :=
  foldl (fun node d => node + gtCoord !!! d * strides groundtruth d) 0 (seq 0 DIM).

(** The body of the two nested loops over the entries of the two bags. *)
Definition pair_body (pos : bool) (affinities : View Q) (affCoord : list nat)
    (entryU entryV : Z * nat) (st : Sweep) : Sweep :=
  let nPair := entryU.2 * entryV.2 in
  if pos && (entryU.1 =? entryV.1)%Z then
    let affinity := get affinities affCoord in
    let gradient := (1 - affinity)%Q in
    mkSweep (sets st) (overlaps st)
      (loss st + gradient * gradient * Q_of_nat nPair)%Q
      (if Qle_bool affinity (1 # 2) then nPairIncorrect st + nPair
       else nPairIncorrect st)
      (nPairCounted st + nPair)
      (set (gradients st) affCoord
           (get (gradients st) affCoord + gradient * Q_of_nat nPair)%Q)
  else if negb pos && negb (entryU.1 =? entryV.1)%Z then
    let affinity := get affinities affCoord in
    let gradient := (- affinity)%Q in
    mkSweep (sets st) (overlaps st)
      (loss st + gradient * gradient * Q_of_nat nPair)%Q
      (if Qgtb affinity (1 # 2) then nPairIncorrect st + nPair
       else nPairIncorrect st)
      (nPairCounted st + nPair)
      (set (gradients st) affCoord
           (get (gradients st) affCoord + gradient * Q_of_nat nPair)%Q)
  else st.

Definition count_pairs (pos : bool) (affinities : View Q) (affCoord : list nat)
    (bagU bagV : LabelMap.t) (st : Sweep) : Sweep :=
  foldl (fun st entryU =>
           foldl (fun st entryV => pair_body pos affinities affCoord entryU entryV st)
                 st bagV)
        st bagU.

(** The part of the loop body after the two nodes of the edge are known:
    from [setU = sets.find(nodeU)] to the end of the iteration. *)
Definition merge_edge (affinities : View Q) (pos : bool) (nPairNorm : nat)
    (affCoord : list nat) (nodeU nodeV : nat) (st : Sweep) : Sweep :=
  let setU := find (sets st) nodeU in
  let setV := find (sets st) nodeV in
  if negb (setU =? setV) then
    let sets1 := merge (sets st) setU setV in
    let st1 := count_pairs pos affinities affCoord
                 (overlaps st !!! setU) (overlaps st !!! setV)
                 (mkSweep sets1 (overlaps st) (loss st) (nPairIncorrect st)
                          (nPairCounted st) (gradients st)) in
    let gradients2 :=
      set (gradients st1) affCoord
          (get (gradients st1) affCoord / Q_of_nat nPairNorm)%Q in
    let '(setU, setV) :=
      if find sets1 setU =? setV then (setV, setU) else (setU, setV) in
    let bagU := foldl LabelMap.absorb_entry (overlaps st1 !!! setU)
                      (overlaps st1 !!! setV) in
    mkSweep sets1
            (<[setV := LabelMap.empty]> (<[setU := bagU]> (overlaps st1)))
            (loss st1) (nPairIncorrect st1) (nPairCounted st1) gradients2
  else st.

(** One iteration of [for(auto edgeIndex : pqueue)]. *)
Definition sweep_body (DIM : nat) (affinities : View Q) (groundtruth : View Z)
    (pos : bool) (nPairNorm : nat) (st : Sweep) (edgeIndex : nat) : Sweep :=
  let affCoord := affCoord_of DIM affinities edgeIndex in
  let axis := affCoord !!! 0 in
  let gtCoordU := (fun d => affCoord !!! d) <$> seq 1 DIM in
  let gtCoordV := gtCoordU in
  if 0 <? gtCoordV !!! axis then
    let gtCoordV := <[axis := gtCoordV !!! axis - 1]> gtCoordV in
    let nodeU := node_of DIM groundtruth gtCoordU in
    let nodeV := node_of DIM groundtruth gtCoordV in
    merge_edge affinities pos nPairNorm affCoord nodeU nodeV st
  else st.

(** The edge order of step 2 and the state of the sweep at its start. *)
Definition pqueue_of (affinities : View Q) : list nat :=
  let numberOfEdges := size affinities in
  std_sort (fun ind1 ind2 => Qgtb (flat affinities ind1) (flat affinities ind2))
           (seq 0 numberOfEdges).

Definition sweep_start (DIM : nat) (groundtruth : View Z) (gradients0 : View Q) : Sweep :=
  mkSweep (UfdModel.init (size groundtruth)) (sc_overlaps (scan DIM groundtruth))
          0%Q 0 0 gradients0.

Definition sweep (DIM : nat) (affinities : View Q) (groundtruth : View Z)
    (pos : bool) (gradients0 : View Q) (queue : list nat) : Sweep :=
  foldl (sweep_body DIM affinities groundtruth pos
           (nPairNorm_of pos (scan DIM groundtruth)))
        (sweep_start DIM groundtruth gradients0) queue.

Definition compute_malis_gradient (DIM : nat) (affinities : View Q)
    (groundtruth : View Z) (pos : bool) : M Outs unit :=
  gradients0 <- gets gradientsOut ;;
  check_shapes DIM affinities groundtruth gradients0 ;;;
  let nPairNorm := nPairNorm_of pos (scan DIM groundtruth) in
  check (negb (nPairNorm <=? 0)) DegenerateNormalization ;;;
  let st := sweep DIM affinities groundtruth pos gradients0 (pqueue_of affinities) in
  modify (set_gradientsOut (gradients st)) ;;;
  let loss := if 0 <? nPairNorm then (loss st / Q_of_nat nPairNorm)%Q else 0%Q in
  modify (set_lossOut loss) ;;;
  modify (set_classificationErrorOut
            (Q_of_nat (nPairIncorrect st) / Q_of_nat nPairNorm)%Q) ;;;
  modify (set_randIndexOut
            (1 - Q_of_nat (nPairIncorrect st) / Q_of_nat nPairNorm)%Q).

(** ** [compute_constrained_malis_gradient] *)

(** The output parameters of the constrained entry point. *)
Record ConstrainedOuts := mkConstrainedOuts {
  c_gradientsOut : View Q;
  c_lossOut : Q
}.

(** What storage holds before it is written ([SkipInitialization] arrays
    and scalars declared without an initial value), by position. *)
Variable indeterminate : nat -> Q.

Definition uninitialized (shp : list nat) : View Q :=
  mkView shp (indeterminate <$> seq 0 (product shp)).

(** The body of the loop that builds the two derived affinity arrays; the
    state is the pair [(affinitiesPos, affinitiesNeg)]. *)
Definition views_body (DIM : nat) (affinities : View Q) (groundtruth : View Z)
    (views : View Q * View Q) (affCoord : list nat) : View Q * View Q :=
  let affinity := get affinities affCoord in
  let axis := affCoord !!! 0 in
  let gtCoordU := (fun d => affCoord !!! d) <$> seq 1 DIM in
  let gtCoordV := gtCoordU in
  if 0 <? gtCoordV !!! axis then
    let gtCoordV := <[axis := gtCoordV !!! axis - 1]> gtCoordV in
    let labelU := get groundtruth gtCoordU in
    let labelV := get groundtruth gtCoordV in
    if negb (labelU =? labelV)%Z || (labelU =? 0)%Z || (labelV =? 0)%Z then
      (set views.1 affCoord 0%Q, set views.2 affCoord affinity)
    else
      (set views.1 affCoord affinity, set views.2 affCoord 1%Q)
  else
    (set views.1 affCoord 0%Q, set views.2 affCoord affinity).

Definition affShape_of (DIM : nat) (affinities : View Q) : list nat :=
  shape_at affinities <$> seq 0 (DIM + 1).

Definition derived_views (DIM : nat) (affinities : View Q) (groundtruth : View Z)
    : View Q * View Q :=
  let affShape := affShape_of DIM affinities in
  foldl (views_body DIM affinities groundtruth)
        (uninitialized affShape, uninitialized affShape)
        (forEachCoordinate affShape).

(** A call of [compute_malis_gradient] on local variables: its exception
    passes through the caller, whose own output parameters are not among
    the arguments of the call. *)
Definition call_local {S A} (m : M Outs A) (locals : Outs) : M S Outs :=
  fun s => match m locals with
           | Ok _ o => Ok o s
           | Throw e _ => Throw e s
           end.

Definition compute_constrained_malis_gradient (DIM : nat) (affinities : View Q)
    (groundtruth : View Z) : M ConstrainedOuts unit :=
  let affShape := affShape_of DIM affinities in
  let '(affinitiesPos, affinitiesNeg) := derived_views DIM affinities groundtruth in
  let gradNeg := filled affShape 0%Q in
  let gradPos := filled affShape 0%Q in
  let lossPos := indeterminate 0 in
  let rand := indeterminate 1 in
  let classErr := indeterminate 2 in
  o1 <- call_local (compute_malis_gradient DIM affinitiesPos groundtruth true)
                   (mkOuts gradPos lossPos classErr rand) ;;
  let lossNeg := indeterminate 3 in
  o2 <- call_local (compute_malis_gradient DIM affinitiesNeg groundtruth false)
                   (mkOuts gradNeg lossNeg (classificationErrorOut o1) (randIndexOut o1)) ;;
  modify (fun o => mkConstrainedOuts
            (mkView (shape (c_gradientsOut o))
                    (zip_with Qplus (data (gradientsOut o2)) (data (gradientsOut o1))))
            (c_lossOut o)) ;;;
  modify (fun o => mkConstrainedOuts (c_gradientsOut o)
            ((lossOut o1 + lossOut o2) / 2)%Q).

End Malis.

(** ** A sorting routine and inputs to run the embedding with *)

Fixpoint sort_insert (cmp : nat -> nat -> bool) (x : nat) (l : list nat) : list nat :=
  match l with
  | [] => [x]
  | y :: l' => if cmp y x then y :: sort_insert cmp x l' else x :: l
  end.

Definition insertion_sort (cmp : nat -> nat -> bool) (l : list nat) : list nat :=
  foldr (sort_insert cmp) [] l.

(** The one-dimensional scenario: four pixels in two segments. *)
Definition example_gt : View Z := mkView [4] [1; 1; 2; 2]%Z.
Definition example_aff : View Q := mkView [1; 4] [5 # 10; 9 # 10; 1 # 10; 8 # 10]%Q.
Definition example_outs : Outs := mkOuts (filled [1; 4] 0%Q) 7%Q 7%Q 7%Q.

(** A two-dimensional grid of two rows and two columns, with one affinity
    per axis and pixel. *)
Definition grid_gt : View Z := mkView [2; 2] [1; 1; 2; 2]%Z.
Definition grid_aff : View Q :=
  mkView [2; 2; 2] [1 # 10; 2 # 10; 3 # 10; 4 # 10; 5 # 10; 6 # 10; 7 # 10; 8 # 10]%Q.

(** A ground truth without labels, one with a single segment, and output
    parameters that hold arbitrary values before the call. *)
Definition unlabeled_gt : View Z := mkView [4] [0; 0; 0; 0]%Z.
Definition single_segment_gt : View Z := mkView [4] [0; 5; 5; 5]%Z.
Definition stale_outs : Outs :=
  mkOuts (mkView [1; 4] [3; 4; 5; 6]%Q) 7%Q 8%Q 9%Q.
Definition stale_constrained_outs : ConstrainedOuts :=
  mkConstrainedOuts (mkView [1; 4] [3; 4; 5; 6]%Q) 7%Q.

(** * Quantities of the specification *)

(** ** Arrays and edges *)

(** The preconditions of the entry points on their array arguments: the
    dimensions that the template parameter [DIM] fixes, and data laid out
    for the shape. *)
Definition valid_arrays (DIM : nat) (affinities : View Q) (groundtruth : View Z) : Prop :=
  dimension affinities = DIM + 1 /\ dimension groundtruth = DIM /\
  well_formed affinities /\ well_formed groundtruth.

(** What the shape checks compare. *)
Definition shapes_agree (DIM : nat) (affinities : View Q) (groundtruth : View Z)
    (gradients : View Q) : Prop :=
  shape_at affinities 0 = DIM /\ shape_at gradients 0 = DIM /\
  forall d, d < DIM ->
    shape_at affinities (d + 1) = shape_at groundtruth d /\
    shape_at affinities (d + 1) = shape_at gradients (d + 1).

(** The edge of an edge index, as the loop body decodes it: its axis, the
    coordinates of its two end points, whether the lower end point exists,
    and the two nodes. *)
Definition axis_of (DIM : nat) (affinities : View Q) (edgeIndex : nat) : nat :=
  affCoord_of DIM affinities edgeIndex !!! 0.
Definition gtCoordU_of (DIM : nat) (affinities : View Q) (edgeIndex : nat) : list nat :=
  (fun d => affCoord_of DIM affinities edgeIndex !!! d) <$> seq 1 DIM.
Definition gtCoordV_of (DIM : nat) (affinities : View Q) (edgeIndex : nat) : list nat :=
  let axis := axis_of DIM affinities edgeIndex in
  let gtCoordU := gtCoordU_of DIM affinities edgeIndex in
  <[axis := gtCoordU !!! axis - 1]> gtCoordU.
Definition edge_valid (DIM : nat) (affinities : View Q) (edgeIndex : nat) : bool :=
  0 <? gtCoordU_of DIM affinities edgeIndex !!! axis_of DIM affinities edgeIndex.
Definition nodeU_of (DIM : nat) (affinities : View Q) (groundtruth : View Z)
    (edgeIndex : nat) : nat :=
  node_of DIM groundtruth (gtCoordU_of DIM affinities edgeIndex).
Definition nodeV_of (DIM : nat) (affinities : View Q) (groundtruth : View Z)
    (edgeIndex : nat) : nat :=
  node_of DIM groundtruth (gtCoordV_of DIM affinities edgeIndex).

(** An edge is invalid when its spatial coordinate along its own axis is
    [0]: the lower neighbour would fall outside the grid. *)
Definition invalid_edge (DIM : nat) (affinities : View Q) (edgeIndex : nat) : Prop :=
  let affCoord := affCoord_of DIM affinities edgeIndex in
  affCoord !!! (affCoord !!! 0 + 1) = 0.

(** ** Bags of label counts *)

Module Bag.

(** Sums over the entries of one bag (one [std::map]). *)
Definition total (m : LabelMap.t) : nat := sum_list (snd <$> m).
Definition squares (m : LabelMap.t) : nat := sum_list ((fun kv => kv.2 * kv.2) <$> m).

(** The entry of [a] times the entry of [b] with the same key, summed. *)
Definition dot (a b : LabelMap.t) : nat :=
  sum_list ((fun kv => kv.2 * LabelMap.at_ kv.1 b) <$> a).

(** The [nPair] values of the two nested loops, by kind of key pair. *)
Definition same_pairs (a b : LabelMap.t) : nat :=
  sum_list ((fun u => sum_list ((fun v => if (u.1 =? v.1)%Z then u.2 * v.2 else 0) <$> b)) <$> a).
Definition diff_pairs (a b : LabelMap.t) : nat :=
  sum_list ((fun u => sum_list ((fun v => if (u.1 =? v.1)%Z then 0 else u.2 * v.2) <$> b)) <$> a).

(** The class invariant of a [std::map]: keys strictly increasing.  The
    bags of the sweep moreover hold no zero count. *)
Fixpoint sorted (m : LabelMap.t) : Prop :=
  match m with
  | [] => True
  | kv :: m' => Forall (fun kv' => (kv.1 < kv'.1)%Z) m' /\ sorted m'
  end.

Definition positive (m : LabelMap.t) : Prop := Forall (fun kv => 0 < kv.2) m.

Definition ok (m : LabelMap.t) : Prop := sorted m /\ positive m.

(** Find-then-insert-or-add as one traversal. *)
Fixpoint upsert (k : Z) (v : nat) (m : LabelMap.t) : LabelMap.t :=
  match m with
  | [] => [(k, v)]
  | (k', v') :: m' =>
      if (k <? k')%Z then (k, v) :: m
      else if (k =? k')%Z then (k', v' + v) :: m'
      else (k', v') :: upsert k v m'
  end.

End Bag.

(** ** The scan *)

(** The bag of a single pixel with label [l]. *)
Definition bag_of (l : Z) : LabelMap.t := if (l =? 0)%Z then [] else [(l, 1)].

(** The number of pixels of the ground truth that carry the label [l]. *)
Definition pixels_labeled (groundtruth : View Z) (l : Z) : nat :=
  length (filter (fun x => x = l) (data groundtruth)).

(** The number of pairs of positions of a list of labels that hold the same
    label, a label other than [0]. *)
Fixpoint same_label_pairs (labels : list Z) : nat :=
  match labels with
  | [] => 0
  | x :: rest =>
      (if (x =? 0)%Z then 0 else length (filter (fun y => y = x) rest))
      + same_label_pairs rest
  end.

(** What holds of the scan after the labels [seen] of [n] pixels. *)
Definition scan_inv (seen : list Z) (n : nat) (s : Scan) : Prop :=
  sc_nodeIndex s = length seen /\
  sc_overlaps s = (bag_of <$> seen) ++ replicate (n - length seen) LabelMap.empty /\
  Bag.ok (sc_segmentSizes s) /\
  sc_numberOfLabeledNodes s = Bag.total (sc_segmentSizes s) /\
  2 * sc_nPairPos s + Bag.total (sc_segmentSizes s) = Bag.squares (sc_segmentSizes s) /\
  forall k, LabelMap.at_ k (sc_segmentSizes s)
            = sum_list_with (LabelMap.at_ k) (bag_of <$> seen).

(** ** The sweep *)

(** The state of the union-find over [n] nodes is well formed when every
    node is mapped to a node that is its own representative. *)
Definition ufd_wf (n : nat) (s : Ufd) : Prop :=
  length (parents_ s) = n /\
  forall i, i < n -> find s i < n /\ find s (find s i) = find s i.

(** The [nPair] value that one pair of entries adds for the polarity. *)
Definition pair_weight (pos : bool) (u v : Z * nat) : nat :=
  if pos then (if (u.1 =? v.1)%Z then u.2 * v.2 else 0)
  else (if (u.1 =? v.1)%Z then 0 else u.2 * v.2).

(** What the two nested loops change: they count [k] pairs, change the
    gradient array at the slot of the edge only, and leave the forest and
    the bags alone. *)
Record pairs_step (affCoord : list nat) (k : nat) (st st' : Sweep) : Prop := {
  ps_sets : sets st' = sets st;
  ps_overlaps : overlaps st' = overlaps st;
  ps_counted : nPairCounted st' = nPairCounted st + k;
  ps_incorrect_lo : nPairIncorrect st <= nPairIncorrect st';
  ps_incorrect_hi : nPairIncorrect st' <= nPairIncorrect st + k;
  ps_shape : shape (gradients st') = shape (gradients st);
  ps_length : length (data (gradients st')) = length (data (gradients st));
  ps_other : forall j, j <> offset (gradients st) affCoord ->
               data (gradients st') !! j = data (gradients st) !! j
}.

(** The invariant of the sweep over [n] nodes whose scan gave the segment
    sizes [seg]: the forest is well formed; every node has a bag, a
    well-formed one, empty unless the node is a representative; for every
    label the bags hold together as many pixels as the segment has; the
    pairs counted so far are the pairs inside the bags (of one label for
    the positive pass, of two labels for the negative pass), written
    without subtraction; and the pairs counted as incorrect are among
    them. *)
Record sweep_inv (n : nat) (seg : LabelMap.t) (pos : bool) (st : Sweep) : Prop := {
  inv_wf : ufd_wf n (sets st);
  inv_length : length (overlaps st) = n;
  inv_ok : Forall Bag.ok (overlaps st);
  inv_nonrep : forall i, i < n -> find (sets st) i <> i ->
                 overlaps st !!! i = LabelMap.empty;
  inv_conservation : forall k,
    sum_list_with (LabelMap.at_ k) (overlaps st) = LabelMap.at_ k seg;
  inv_potential :
    if pos then
      2 * nPairCounted st + sum_list_with Bag.total (overlaps st)
      = sum_list_with Bag.squares (overlaps st)
    else
      2 * nPairCounted st + sum_list_with Bag.squares (overlaps st)
      = sum_list_with (fun m => Bag.total m * Bag.total m) (overlaps st);
  inv_incorrect : nPairIncorrect st <= nPairCounted st
}.

(** The overlap-map entries of label [l], summed over the nodes that are
    representatives of their set. *)
Definition representative_sum (n : nat) (st : Sweep) (l : Z) : nat :=
  sum_list ((fun i => if find (sets st) i =? i
                      then LabelMap.at_ l (overlaps st !!! i) else 0) <$> seq 0 n).

(** ** The entry points *)

(** The outputs of a call of [compute_malis_gradient] that returns, from
    the end state [st] of the sweep and the normalizer. *)
Definition outputs_of (st : Sweep) (nPairNorm : nat) : Outs :=
  mkOuts (gradients st)
         (if 0 <? nPairNorm then (loss st / Q_of_nat nPairNorm)%Q else 0%Q)
         (Q_of_nat (nPairIncorrect st) / Q_of_nat nPairNorm)%Q
         (1 - Q_of_nat (nPairIncorrect st) / Q_of_nat nPairNorm)%Q.

(** The output parameters after a run, however it ended. *)
Definition outs_after {S A} (r : Result S A) : S :=
  match r with
  | Ok _ s => s
  | Throw _ s => s
  end.

(** The values that one iteration of the loop over the edges stores in the
    positive and in the negative array, from the coordinate it visits. *)
Definition stored_values (DIM : nat) (affinities : View Q) (groundtruth : View Z)
    (affCoord : list nat) : Q * Q :=
  let affinity := get affinities affCoord in
  let axis := affCoord !!! 0 in
  let gtCoordU := (fun d => affCoord !!! d) <$> seq 1 DIM in
  if 0 <? gtCoordU !!! axis then
    let labelU := get groundtruth gtCoordU in
    let labelV := get groundtruth (<[axis := gtCoordU !!! axis - 1]> gtCoordU) in
    if negb (labelU =? labelV)%Z || (labelU =? 0)%Z || (labelV =? 0)%Z
    then (0%Q, affinity) else (affinity, 1%Q)
  else (0%Q, affinity).

(** The constrained pass as the specification words it: the positive pass
    on the positive array and the negative pass on the negative array are
    two separate calls, each into its own zeroed gradient array of the
    shape of the affinities (and with output scalars that hold [scalars]
    before the call); the gradient is the element-wise sum of the two
    gradient arrays and the loss the arithmetic mean of the two losses. *)
Definition constrained_by_separate_calls
    (std_sort : (nat -> nat -> bool) -> list nat -> list nat)
    (indeterminate : nat -> Q) (DIM : nat) (affinities : View Q) (groundtruth : View Z)
    (scalars : Q) (o : ConstrainedOuts) : Result ConstrainedOuts unit :=
  let positiveView := (derived_views indeterminate DIM affinities groundtruth).1 in
  let negativeView := (derived_views indeterminate DIM affinities groundtruth).2 in
  let zeroed := filled (shape affinities) 0%Q in
  match compute_malis_gradient std_sort DIM positiveView groundtruth true
          (mkOuts zeroed scalars scalars scalars) with
  | Throw e _ => Throw e o
  | Ok _ outPos =>
      match compute_malis_gradient std_sort DIM negativeView groundtruth false
              (mkOuts zeroed scalars scalars scalars) with
      | Throw e _ => Throw e o
      | Ok _ outNeg =>
          Ok tt (mkConstrainedOuts
                   (mkView (shape (c_gradientsOut o))
                           (zip_with Qplus (data (gradientsOut outPos))
                                           (data (gradientsOut outNeg))))
                   ((lossOut outPos + lossOut outNeg) / 2)%Q)
      end
  end.

(** Two runs of the constrained pass end alike: with the same exception and
    the same output parameters, or both normally with gradient arrays and
    losses that are equal as rational numbers. *)
Definition same_outcome (r1 r2 : Result ConstrainedOuts unit) : Prop :=
  match r1, r2 with
  | Ok _ o1, Ok _ o2 =>
      shape (c_gradientsOut o1) = shape (c_gradientsOut o2) /\
      Forall2 Qeq (data (c_gradientsOut o1)) (data (c_gradientsOut o2)) /\
      (c_lossOut o1 == c_lossOut o2)%Q
  | Throw e1 o1, Throw e2 o2 => e1 = e2 /\ o1 = o2
  | _, _ => False
  end.

(** ** The polarity of a pass *)

(** Whether the branch of the polarity counts the pairs that an edge of
    affinity [affinity] joins as incorrect: at most one half for pairs of
    one segment, above one half for pairs of two segments. *)
Definition counts_incorrect (pos : bool) (affinity : Q) : bool :=
  if pos then Qle_bool affinity (1 # 2) else Qgtb affinity (1 # 2).

(** The sign of the gradient of an edge in the branch of the polarity,
    [1 - affinity] or [- affinity], and the affinities that give it this
    sign. *)
Definition gradient_sign (pos : bool) (x : Q) : Prop :=
  if pos then (0 <= x)%Q else (x <= 0)%Q.
Definition affinity_bounded (pos : bool) (affinity : Q) : Prop :=
  if pos then (affinity <= 1)%Q else (0 <= affinity)%Q.

(** Affinities that are all at most one half. *)
Definition weak_aff : View Q := mkView [1; 4] [5 # 10; 4 # 10; 1 # 10; 3 # 10]%Q.

(** ** The constrained pass *)

(** The ground-truth affinity of an edge, which the loop over the edges of
    the constrained entry point decides without storing it: 0 for an
    invalid edge, for two end points with different labels, and when one
    of the two labels is 0; 1 otherwise. *)
Definition gtAffinity_of (DIM : nat) (affinities : View Q) (groundtruth : View Z)
    (edgeIndex : nat) : Q :=
  if edge_valid DIM affinities edgeIndex then
    let labelU := get groundtruth (gtCoordU_of DIM affinities edgeIndex) in
    let labelV := get groundtruth (gtCoordV_of DIM affinities edgeIndex) in
    if negb (labelU =? labelV)%Z || (labelU =? 0)%Z || (labelV =? 0)%Z
    then 0%Q else 1%Q
  else 0%Q.

(** ** The gradient of an edge *)

(** The gradient that the branch of the polarity computes from the
    affinity of the edge. *)
Definition edge_gradient (pos : bool) (affinity : Q) : Q :=
  if pos then (1 - affinity)%Q else (- affinity)%Q.

(** What the two nested loops add for an edge of gradient [g] that joins
    [k] pairs: [k] to the pairs counted, [g * g * k] to the loss and
    [g * k] to the slot of the edge in the gradient array. *)
Definition pairs_add (c : list nat) (g : Q) (k : nat) (st st' : Sweep) : Prop :=
  nPairCounted st' = nPairCounted st + k /\
  (loss st' == loss st + g * g * Q_of_nat k)%Q /\
  (get (gradients st') c == get (gradients st) c + g * Q_of_nat k)%Q /\
  shape (gradients st') = shape (gradients st) /\
  length (data (gradients st')) = length (data (gradients st)).

(** A ground truth with a single labeled pixel. *)
Definition single_pixel_gt : View Z := mkView [4] [0; 0; 3; 0]%Z.

(** * Lemmas on the embedding *)

(** ** Row-major indexing *)

Section Indexing.

Lemma length_row_major_strides shp :
  length (row_major_strides shp) = length shp.
Proof. induction shp as [|s rest IH]; simpl; congruence. Qed.

Lemma mod_mod_divide a b c : (b | c) -> (a mod c) mod b = a mod b.
Proof.
  intros [q ->]. rewrite (Nat.mul_comm q b), Nat.Div0.mod_mul_r.
  rewrite (Nat.mul_comm b), Nat.Div0.mod_add. apply Nat.Div0.mod_mod.
Qed.

Lemma stride_divides_product shp j :
  j < length shp -> (row_major_strides shp !!! j | product shp).
Proof.
  revert j. induction shp as [|s rest IH]; intros j Hj; simpl in *; [lia|].
  destruct j as [|j]; simpl.
  - apply Nat.divide_factor_r.
  - apply Nat.divide_mul_r, IH. lia.
Qed.

Lemma stride_positive shp j :
  0 < product shp -> j < length shp -> 0 < row_major_strides shp !!! j.
Proof.
  intros Hp Hj. destruct (stride_divides_product shp j Hj) as [q Hq].
  destruct (row_major_strides shp !!! j); [lia|lia].
Qed.

Lemma length_coordinate_of shp k : length (coordinate_of shp k) = length shp.
Proof. unfold coordinate_of. by rewrite length_fmap, length_seq. Qed.

Lemma coordinate_of_cons s rest k :
  coordinate_of (s :: rest) k
  = (k / product rest) :: coordinate_of rest (k mod product rest).
Proof.
  unfold coordinate_of. simpl length. rewrite <- cons_seq. rewrite fmap_cons.
  f_equal. rewrite <- fmap_S_seq, <- list_fmap_compose.
  apply list_fmap_ext. intros i d Hd. apply lookup_seq in Hd as [-> Hd].
  simpl. destruct i as [|i]; simpl; [done|].
  rewrite Nat.sub_0_r. f_equal. symmetry. apply mod_mod_divide.
  apply stride_divides_product. lia.
Qed.

(** Decoding a flat position and encoding it again gives it back. *)
Lemma offset_coordinate_of shp k :
  k < product shp ->
  sum_list (zip_with Nat.mul (coordinate_of shp k) (row_major_strides shp)) = k.
Proof.
  revert k. induction shp as [|s rest IH]; intros k Hk.
  - simpl in *. lia.
  - rewrite coordinate_of_cons. simpl in *.
    assert (0 < product rest) as Hp by (destruct (product rest); lia).
    rewrite IH by (apply Nat.mod_upper_bound; lia).
    pose proof (Nat.div_mod_eq k (product rest)). lia.
Qed.

Lemma sum_zip_decrement (c st : list nat) a :
  a < length c -> length c = length st -> 0 < c !!! a ->
  sum_list (zip_with Nat.mul (<[a := c !!! a - 1]> c) st) + st !!! a
  = sum_list (zip_with Nat.mul c st).
Proof.
  revert st a. induction c as [|x c IH]; intros st a Ha Hl Hpos; simpl in *; [lia|].
  destruct st as [|y st]; simpl in *; [lia|].
  destruct a as [|a]; simpl in *.
  - nia.
  - rewrite <- (IH st a); [lia|lia|lia|done].
Qed.

Lemma foldl_add_sum {A} (f : A -> nat) (l : list A) (a : nat) :
  foldl (fun acc d => acc + f d) a l = a + sum_list (f <$> l).
Proof.
  revert a. induction l as [|x l IH]; intros a; [simpl; lia|].
  rewrite fmap_cons. simpl foldl. simpl sum_list. rewrite IH. lia.
Qed.

Lemma fmap_seq_zip_mul (c st : list nat) n :
  length c = n -> length st = n ->
  (fun d => c !!! d * st !!! d) <$> seq 0 n = zip_with Nat.mul c st.
Proof.
  revert st n. induction c as [|x c IH]; intros st n Hc Hs; simpl in *.
  - by subst n.
  - destruct st as [|y st]; simpl in *; [subst n; lia|].
    destruct n as [|n]; [lia|]. rewrite <- cons_seq, fmap_cons. simpl. f_equal.
    rewrite <- fmap_S_seq, <- list_fmap_compose. rewrite <- (IH st n) by lia.
    by apply list_fmap_ext.
Qed.

Lemma fmap_seq_tail (x : nat) (c : list nat) n :
  length c = n -> (fun d => (x :: c) !!! d) <$> seq 1 n = c.
Proof.
  intros Hn. rewrite <- fmap_S_seq, <- list_fmap_compose.
  apply list_eq. intros i. rewrite list_lookup_fmap.
  destruct (decide (i < n)) as [Hi|Hi].
  - rewrite lookup_seq_lt by done. simpl.
    destruct (lookup_lt_is_Some_2 c i) as [y Hy]; [lia|].
    rewrite Hy. f_equal. by apply list_lookup_total_correct.
  - rewrite lookup_seq_ge by lia. simpl. symmetry. apply lookup_ge_None. lia.
Qed.

End Indexing.

(** ** Bags of label counts *)

Section Bags.

Import LabelMap Bag.

Lemma increment_upsert k m : increment k m = upsert k 1 m.
Proof.
  unfold increment. induction m as [|[k' v'] m IH]; simpl.
  - unfold at_. simpl. by rewrite Z.eqb_refl.
  - destruct (Z.ltb_spec k k') as [Hlt|Hge].
    + unfold at_. simpl. by rewrite Z.eqb_refl.
    + destruct (Z.eqb_spec k k') as [->|Hne].
      * unfold at_. simpl. by rewrite Z.eqb_refl.
      * unfold at_ in *. simpl.
        destruct (Z.eqb_spec k' k) as [?|_]; [congruence|]. by rewrite IH.
Qed.

Lemma find_above k m :
  Forall (fun kv' => (k < kv'.1)%Z) m -> find k m = None.
Proof.
  induction 1 as [|[k' v'] m Hk _ IH]; simpl in *; [done|].
  destruct (Z.eqb_spec k' k); [lia|done].
Qed.

Lemma Forall_above_trans (k k' : Z) (m : t) :
  (k <= k')%Z -> Forall (fun kv' => (k' < kv'.1)%Z) m ->
  Forall (fun kv' => (k < kv'.1)%Z) m.
Proof. intros Hk H. eapply Forall_impl; [done|]. intros x. simpl. lia. Qed.

Lemma absorb_entry_upsert m k v :
  sorted m -> absorb_entry m (k, v) = upsert k v m.
Proof.
  unfold absorb_entry. simpl.
  induction m as [|[k' v'] m IH]; intros Hs; simpl in *; [done|].
  destruct Hs as [Hab Hs].
  destruct (Z.ltb_spec k k') as [Hlt|Hge].
  - destruct (Z.eqb_spec k' k) as [?|_]; [lia|].
    rewrite find_above; [|eapply Forall_above_trans; [|done]; lia].
    simpl. destruct (Z.ltb_spec k k'); [done|lia].
  - destruct (Z.eqb_spec k k') as [->|Hne].
    + by rewrite Z.eqb_refl.
    + destruct (Z.eqb_spec k' k) as [?|_]; [congruence|].
      specialize (IH Hs). destruct (find k m) as [u|]; simpl.
      * destruct (Z.eqb_spec k' k) as [?|_]; [congruence|]. by rewrite IH.
      * destruct (Z.ltb_spec k k'); [lia|].
        destruct (Z.eqb_spec k k'); [congruence|]. by rewrite IH.
Qed.

Lemma at_cons k k' v' m :
  at_ k ((k', v') :: m) = if (k' =? k)%Z then v' else at_ k m.
Proof. unfold at_. simpl. by destruct (k' =? k)%Z. Qed.

Lemma at_nil k : at_ k [] = 0.
Proof. done. Qed.

Lemma at_above k m :
  Forall (fun kv' => (k < kv'.1)%Z) m -> at_ k m = 0.
Proof. intros H. unfold at_. by rewrite find_above. Qed.

Lemma upsert_above k0 k v m :
  (k0 < k)%Z -> Forall (fun kv' => (k0 < kv'.1)%Z) m ->
  Forall (fun kv' => (k0 < kv'.1)%Z) (upsert k v m).
Proof.
  intros Hk. induction 1 as [|[k' v'] m Hk' Hm IH]; simpl in *.
  - by repeat constructor.
  - destruct (k <? k')%Z; [by repeat constructor|].
    destruct (k =? k')%Z; by repeat constructor.
Qed.

Lemma upsert_sorted k v m : sorted m -> sorted (upsert k v m).
Proof.
  induction m as [|[k' v'] m IH]; intros Hs; simpl in *; [done|].
  destruct Hs as [Hab Hs].
  destruct (Z.ltb_spec k k') as [Hlt|Hge].
  - simpl. split; [|done]. constructor; [done|].
    eapply Forall_above_trans; [|done]. simpl. lia.
  - destruct (Z.eqb_spec k k') as [->|Hne]; simpl; [done|].
    split; [|by apply IH]. apply upsert_above; [lia|done].
Qed.

Lemma upsert_positive k v m : 0 < v -> positive m -> positive (upsert k v m).
Proof.
  intros Hv. unfold positive.
  induction 1 as [|[k' v'] m Hk' Hm IH]; simpl in *.
  - by repeat constructor.
  - destruct (k <? k')%Z; [by repeat constructor|].
    destruct (k =? k')%Z; constructor; simpl; try done; lia.
Qed.

Lemma upsert_at k v m k0 :
  sorted m -> at_ k0 (upsert k v m) = at_ k0 m + (if (k =? k0)%Z then v else 0).
Proof.
  induction m as [|[k' v'] m IH]; intros Hs; simpl in *.
  - rewrite at_cons, at_nil. by destruct (k =? k0)%Z.
  - destruct Hs as [Hab Hs].
    destruct (Z.ltb_spec k k') as [Hlt|Hge].
    + rewrite !at_cons. destruct (Z.eqb_spec k k0) as [->|Hne]; [|lia].
      destruct (Z.eqb_spec k' k0); [lia|].
      rewrite at_above; [lia|]. eapply Forall_above_trans; [|done]. lia.
    + destruct (Z.eqb_spec k k') as [->|Hne].
      * rewrite !at_cons. destruct (k' =? k0)%Z; lia.
      * rewrite !at_cons. destruct (Z.eqb_spec k' k0) as [->|Hne'].
        -- destruct (Z.eqb_spec k k0); [congruence|lia].
        -- by apply IH.
Qed.

Lemma upsert_total k v m : total (upsert k v m) = total m + v.
Proof.
  unfold total. induction m as [|[k' v'] m IH]; csimpl in *; [lia|].
  destruct (k <? k')%Z; csimpl; [lia|].
  destruct (k =? k')%Z; csimpl; lia.
Qed.

Lemma upsert_squares k v m :
  sorted m -> squares (upsert k v m) = squares m + v * v + 2 * v * at_ k m.
Proof.
  unfold squares. induction m as [|[k' v'] m IH]; intros Hs; csimpl in *.
  - rewrite at_nil. lia.
  - destruct Hs as [Hab Hs]. rewrite at_cons.
    destruct (Z.ltb_spec k k') as [Hlt|Hge]; csimpl.
    + destruct (Z.eqb_spec k' k); [lia|].
      rewrite at_above; [lia|]. eapply Forall_above_trans; [|done]. lia.
    + destruct (Z.eqb_spec k k') as [->|Hne]; csimpl.
      * rewrite Z.eqb_refl. lia.
      * destruct (Z.eqb_spec k' k); [congruence|]. rewrite IH by done. lia.
Qed.

Lemma dot_upsert_above k v a b :
  sorted a -> Forall (fun kv' => (k < kv'.1)%Z) b ->
  dot b (upsert k v a) = dot b a.
Proof.
  intros Ha. unfold dot. induction 1 as [|[k' v'] b Hk _ IH]; csimpl in *; [done|].
  rewrite IH, upsert_at by done. destruct (Z.eqb_spec k k'); [lia|]. lia.
Qed.

(** The loop that empties the absorbed bag [b] into the kept bag [a]. *)
Lemma absorb_fold b : forall a,
  sorted a -> sorted b ->
  sorted (foldl absorb_entry a b) /\
  (positive a -> positive b -> positive (foldl absorb_entry a b)) /\
  (forall k, at_ k (foldl absorb_entry a b) = at_ k a + at_ k b) /\
  total (foldl absorb_entry a b) = total a + total b /\
  squares (foldl absorb_entry a b) = squares a + squares b + 2 * dot b a.
Proof.
  induction b as [|[k v] b IH]; intros a Ha Hb.
  - unfold total, squares, dot. csimpl. repeat split; try done; intros; rewrite ?at_nil; lia.
  - destruct Hb as [Hab Hb]. simpl foldl. rewrite absorb_entry_upsert by done.
    destruct (IH (upsert k v a)) as (IH1 & IH2 & IH3 & IH4 & IH5);
      [by apply upsert_sorted|done|].
    split; [done|]. split; [|split; [|split]].
    + intros Hpa Hpb. apply Forall_cons_1 in Hpb as [Hv Hpb].
      apply IH2; [by apply upsert_positive|done].
    + intros k0. rewrite IH3, upsert_at, at_cons by done.
      destruct (Z.eqb_spec k k0) as [->|Hne]; [|lia].
      rewrite (at_above k0 b) by done. lia.
    + rewrite IH4, upsert_total. unfold total. csimpl. lia.
    + rewrite IH5, upsert_squares, dot_upsert_above by done.
      unfold squares, dot. csimpl. lia.
Qed.

Lemma dot_cons_r k v a b :
  Forall (fun kv' => (k < kv'.1)%Z) a -> sorted b ->
  dot b ((k, v) :: a) = v * at_ k b + dot b a.
Proof.
  intros Ha. unfold dot.
  induction b as [|[k' v'] b IH]; intros Hb; csimpl in *; [rewrite at_nil; lia|].
  destruct Hb as [Hab Hb]. rewrite IH by done. rewrite !at_cons.
  destruct (Z.eqb_spec k k') as [->|Hne].
  - rewrite Z.eqb_refl. rewrite (at_above k' a), (at_above k' b) by done. lia.
  - destruct (Z.eqb_spec k' k); [congruence|]. lia.
Qed.

Lemma dot_sym a b : sorted a -> sorted b -> dot a b = dot b a.
Proof.
  revert b. induction a as [|[k v] a IH]; intros b Ha Hb.
  - unfold dot. csimpl. induction b as [|[k' v'] b IHb]; csimpl; [done|].
    destruct Hb as [_ Hb]. rewrite at_nil, <- IHb by done. lia.
  - destruct Ha as [Hab Ha]. rewrite dot_cons_r by done.
    rewrite <- IH by done. unfold dot. by csimpl.
Qed.

Lemma same_pairs_inner (k : Z) (c : nat) b :
  sorted b ->
  sum_list ((fun v : Z * nat => if (k =? v.1)%Z then c * v.2 else 0) <$> b)
  = c * at_ k b.
Proof.
  induction b as [|[k' v'] b IH]; intros Hb; csimpl in *; [by rewrite at_nil; lia|].
  destruct Hb as [Hab Hb]. rewrite IH, at_cons by done.
  destruct (Z.eqb_spec k k') as [->|Hne].
  - rewrite Z.eqb_refl, (at_above k' b) by done. lia.
  - destruct (Z.eqb_spec k' k); [congruence|]. lia.
Qed.

Lemma same_pairs_dot a b : sorted b -> same_pairs a b = dot a b.
Proof.
  intros Hb. unfold same_pairs, dot. f_equal. apply list_fmap_ext.
  intros i [k c] _. simpl. by apply same_pairs_inner.
Qed.

Lemma same_diff_inner (k : Z) (c : nat) (b : t) :
  sum_list ((fun v : Z * nat => if (k =? v.1)%Z then c * v.2 else 0) <$> b)
  + sum_list ((fun v : Z * nat => if (k =? v.1)%Z then 0 else c * v.2) <$> b)
  = c * total b.
Proof.
  unfold total. induction b as [|[k' v'] b IH]; csimpl in *; [lia|].
  destruct (k =? k')%Z; lia.
Qed.

Lemma same_diff_pairs a b : same_pairs a b + diff_pairs a b = total a * total b.
Proof.
  unfold same_pairs, diff_pairs, total.
  induction a as [|[k c] a IH]; csimpl in *; [lia|].
  pose proof (same_diff_inner k c b). unfold total in *. nia.
Qed.

(** Two bags with the same counts are the same list. *)
Lemma bag_ext a : forall b,
  ok a -> ok b -> (forall k, at_ k a = at_ k b) -> a = b.
Proof.
  induction a as [|[k v] a IH]; intros b [Hsa Hpa] [Hsb Hpb] Heq.
  - destruct b as [|[k' v'] b]; [done|].
    specialize (Heq k'). rewrite at_nil, at_cons, Z.eqb_refl in Heq.
    apply Forall_cons_1 in Hpb as [Hv _]. simpl in Hv. lia.
  - apply Forall_cons_1 in Hpa as [Hv Hpa]. destruct Hsa as [Haa Hsa]. simpl in Hv.
    destruct b as [|[k' v'] b].
    { specialize (Heq k). rewrite at_nil, at_cons, Z.eqb_refl in Heq. lia. }
    apply Forall_cons_1 in Hpb as [Hv' Hpb]. destruct Hsb as [Hab Hsb]. simpl in Hv'.
    destruct (Z.lt_trichotomy k k') as [Hlt|[->|Hgt]].
    + specialize (Heq k). rewrite !at_cons, Z.eqb_refl in Heq.
      destruct (Z.eqb_spec k' k); [lia|].
      rewrite (at_above k b) in Heq; [lia|].
      eapply Forall_above_trans; [|done]. simpl. lia.
    + pose proof (Heq k') as Hk. rewrite !at_cons, Z.eqb_refl in Hk. subst v'.
      f_equal. apply IH; [done|done|]. intros k0.
      destruct (Z.eq_dec k' k0) as [->|Hne].
      * by rewrite (at_above k0 a), (at_above k0 b).
      * specialize (Heq k0). rewrite !at_cons in Heq.
        by destruct (Z.eqb_spec k' k0).
    + specialize (Heq k'). rewrite !at_cons, Z.eqb_refl in Heq.
      destruct (Z.eqb_spec k k'); [lia|].
      rewrite (at_above k' a) in Heq; [lia|].
      eapply Forall_above_trans; [|done]. simpl. lia.
Qed.

Lemma squares_le_total_sq m : squares m <= total m * total m.
Proof.
  unfold squares, total. induction m as [|[k v] m IH]; csimpl in *; [lia|]. nia.
Qed.

End Bags.

(** ** The union-find model *)

Section UfdFacts.

Lemma find_init n i : find (UfdModel.init n) i = i.
Proof.
  unfold find, UfdModel.init. simpl.
  destruct (decide (i < n)) as [Hi|Hi].
  - by rewrite lookup_seq_lt.
  - by rewrite lookup_seq_ge by lia.
Qed.

Lemma ufd_wf_init n : ufd_wf n (UfdModel.init n).
Proof.
  split; [simpl; by rewrite length_seq|].
  intros i Hi. by rewrite !find_init.
Qed.

Lemma find_link n s x w r i :
  length (parents_ s) = n -> i < n ->
  find (mkUfd (link s x w) r) i = if find s i =? x then w else find s i.
Proof.
  intros Hn Hi. unfold find, link. simpl. rewrite list_lookup_fmap.
  destruct (lookup_lt_is_Some_2 (parents_ s) i) as [p Hp]; [lia|].
  by rewrite Hp.
Qed.

Lemma link_wf n s x w r :
  ufd_wf n s -> x < n -> w < n -> find s x = x -> find s w = w -> x <> w ->
  ufd_wf n (mkUfd (link s x w) r).
Proof.
  intros [Hn Hwf] Hx Hw Hfx Hfw Hne.
  split; [unfold link; simpl; by rewrite length_fmap|].
  intros i Hi. rewrite (find_link n) by done.
  destruct (Hwf i Hi) as [Hlt Hidem].
  destruct (Nat.eqb_spec (find s i) x) as [Heq|Hneq].
  - split; [done|]. rewrite (find_link n) by done. rewrite Hfw.
    by destruct (Nat.eqb_spec w x).
  - split; [done|]. rewrite (find_link n) by done. rewrite Hidem.
    by destruct (Nat.eqb_spec (find s i) x).
Qed.

(** [merge] of two distinct representatives keeps one of them: every
    node of the other one's set moves to it, all other nodes stay. *)
Lemma merge_roots n s u v :
  ufd_wf n s -> u < n -> v < n -> find s u = u -> find s v = v -> u <> v ->
  ufd_wf n (merge s u v) /\
  ((forall i, i < n ->
      find (merge s u v) i = if find s i =? v then u else find s i) \/
   (forall i, i < n ->
      find (merge s u v) i = if find s i =? u then v else find s i)).
Proof.
  intros Hwf Hu Hv Hfu Hfv Hne. pose proof Hwf as [Hn _].
  unfold merge. rewrite Hfu, Hfv.
  destruct (_ <? _).
  { split; [by apply (link_wf n)|]. right. intros i Hi. by apply (find_link n). }
  destruct (_ <? _).
  { split; [by apply (link_wf n)|]. left. intros i Hi. by apply (find_link n). }
  destruct (Nat.eqb_spec u v) as [?|_]; [done|]. simpl.
  split; [by apply (link_wf n)|]. left. intros i Hi. by apply (find_link n).
Qed.

End UfdFacts.

(** ** The scan of the ground truth *)

Section ScanFacts.

Import LabelMap Bag.

Lemma foldl_seq_lookup {A B} `{Inhabited B} (f : A -> B -> A) (l : list B) :
  forall (pre : list B) (a : A),
    foldl (fun a k => f a ((pre ++ l) !!! k)) a (seq (length pre) (length l))
    = foldl f a l.
Proof.
  induction l as [|x l IH]; intros pre a; [done|].
  simpl length. rewrite <- cons_seq. simpl foldl.
  rewrite list_lookup_total_middle by done.
  specialize (IH (pre ++ [x]) (f a x)).
  rewrite <- app_assoc, length_app in IH. simpl in IH.
  rewrite Nat.add_1_r in IH. exact IH.
Qed.

Lemma foldl_ext_in {A B} (f g : A -> B -> A) (l : list B) (a : A) :
  (forall a x, x ∈ l -> f a x = g a x) -> foldl f a l = foldl g a l.
Proof.
  revert a. induction l as [|x l IH]; intros a Hfg; [done|].
  simpl. rewrite Hfg by left. apply IH. intros a' y Hy. apply Hfg. by right.
Qed.

Lemma pixelShape_of_shape DIM (gt : View Z) :
  dimension gt = DIM -> pixelShape_of DIM gt = shape gt.
Proof.
  unfold dimension, pixelShape_of, shape_at. intros <-.
  apply list_eq. intros i. rewrite list_lookup_fmap.
  destruct (decide (i < length (shape gt))) as [Hi|Hi].
  - rewrite lookup_seq_lt by done. simpl.
    destruct (lookup_lt_is_Some_2 (shape gt) i) as [y Hy]; [lia|].
    rewrite Hy. f_equal. by apply list_lookup_total_correct.
  - rewrite lookup_seq_ge by lia. simpl. symmetry. apply lookup_ge_None. lia.
Qed.

Lemma get_coordinate_of {T} `{Inhabited T} (v : View T) k :
  k < size v -> get v (coordinate_of (shape v) k) = data v !!! k.
Proof. intros Hk. unfold get, offset. by rewrite offset_coordinate_of. Qed.

(** With row-major data the scan is a fold over the labels in order. *)
Lemma scan_as_fold DIM (gt : View Z) :
  dimension gt = DIM -> well_formed gt ->
  scan DIM gt
  = foldl (fun s l => scan_node l s)
          (mkScan (replicate (size gt) LabelMap.empty) LabelMap.empty 0 0 0)
          (data gt).
Proof.
  intros Hd Hwf. unfold scan, forEachCoordinate. rewrite pixelShape_of_shape by done.
  rewrite foldl_fmap. fold (size gt). rewrite <- Hwf.
  rewrite <- (foldl_seq_lookup (fun s l => scan_node l s) (data gt) []).
  apply foldl_ext_in. intros s k Hk. apply elem_of_seq in Hk.
  unfold scan_body. simpl. rewrite get_coordinate_of; [done|]. rewrite <- Hwf. simpl in Hk. lia.
Qed.

Lemma scan_inv_start n :
  scan_inv [] n (mkScan (replicate n LabelMap.empty) LabelMap.empty 0 0 0).
Proof.
  unfold scan_inv. simpl. rewrite Nat.sub_0_r.
  repeat split; try done; constructor.
Qed.

Lemma bag_of_nonzero l : l <> 0%Z -> bag_of l = [(l, 1)].
Proof. intros Hl. unfold bag_of. by destruct (Z.eqb_spec l 0). Qed.

Lemma scan_inv_step seen n s l :
  scan_inv seen n s -> length seen < n -> scan_inv (seen ++ [l]) n (scan_node l s).
Proof.
  intros (Hidx & Hov & [Hsort Hpos] & Hnum & Hpairs & Hcnt) Hlt.
  assert (n - length seen = S (n - (length seen + 1))) as Hrep by lia.
  unfold scan_inv, scan_node.
  destruct (Z.eqb_spec l 0) as [->|Hl]; simpl.
  - rewrite Hidx, length_app, Hov. simpl. repeat split; try done; try lia.
    + rewrite fmap_app, <- app_assoc. simpl. by rewrite Hrep.
    + intros k. rewrite Hcnt, fmap_app, sum_list_with_app. simpl. lia.
  - rewrite increment_upsert. rewrite Hidx, length_app, Hov. simpl.
    repeat split; try lia.
    + rewrite Hrep. rewrite fmap_app, <- app_assoc. simpl.
      rewrite list_lookup_total_middle by (by rewrite length_fmap).
      replace (length seen) with (length (bag_of <$> seen) + 0)
        by (rewrite length_fmap; lia).
      rewrite insert_app_r. simpl. by rewrite bag_of_nonzero.
    + by apply upsert_sorted.
    + apply upsert_positive; [lia|done].
    + rewrite upsert_total. lia.
    + rewrite upsert_total, upsert_squares, upsert_at, Z.eqb_refl by done. lia.
    + intros k. rewrite upsert_at, Hcnt, fmap_app, sum_list_with_app by done.
      simpl. rewrite (bag_of_nonzero l), at_cons, at_nil by done. lia.
Qed.

Lemma scan_inv_fold n (labels : list Z) : forall seen s,
  scan_inv seen n s -> length seen + length labels <= n ->
  scan_inv (seen ++ labels) n (foldl (fun s l => scan_node l s) s labels).
Proof.
  induction labels as [|l labels IH]; intros seen s Hinv Hlen; simpl in *.
  - by rewrite app_nil_r.
  - rewrite cons_middle, app_assoc. apply IH.
    + apply scan_inv_step; [done|lia].
    + rewrite length_app. simpl. lia.
Qed.

Lemma scan_inv_final DIM (gt : View Z) :
  dimension gt = DIM -> well_formed gt ->
  scan_inv (data gt) (size gt) (scan DIM gt).
Proof.
  intros Hd Hwf. rewrite scan_as_fold by done.
  apply (scan_inv_fold (size gt) (data gt) []); [apply scan_inv_start|].
  simpl. unfold well_formed in Hwf. lia.
Qed.

Lemma count_bags (labels : list Z) l :
  l <> 0%Z ->
  sum_list_with (at_ l) (bag_of <$> labels) = length (filter (fun x => x = l) labels).
Proof.
  intros Hl. induction labels as [|x xs IH]; [done|]. csimpl. rewrite IH.
  destruct (decide (x = l)) as [->|Hne].
  - rewrite filter_cons_True by done. rewrite bag_of_nonzero by done.
    rewrite at_cons, Z.eqb_refl. done.
  - rewrite filter_cons_False by done. unfold bag_of.
    destruct (Z.eqb_spec x 0); [done|]. rewrite at_cons, at_nil.
    by destruct (Z.eqb_spec x l).
Qed.

Lemma same_label_pairs_snoc (seen : list Z) x :
  same_label_pairs (seen ++ [x])
  = same_label_pairs seen
    + (if (x =? 0)%Z then 0 else length (filter (fun y => y = x) seen)).
Proof.
  induction seen as [|y seen IH]; simpl.
  - destruct (x =? 0)%Z; lia.
  - rewrite IH, filter_app, length_app, !filter_cons, filter_nil.
    destruct (Z.eqb_spec x 0) as [Hx|Hx], (Z.eqb_spec y 0) as [Hy|Hy];
      repeat case_decide; simpl; try lia; congruence.
Qed.

(** The two counters of the scan count what their names say. *)
Lemma scan_counters_fold n (labels : list Z) : forall seen s,
  scan_inv seen n s -> length seen + length labels <= n ->
  sc_nPairPos s = same_label_pairs seen ->
  sc_numberOfLabeledNodes s = length (filter (fun x => x <> 0%Z) seen) ->
  let s' := foldl (fun s l => scan_node l s) s labels in
  sc_nPairPos s' = same_label_pairs (seen ++ labels) /\
  sc_numberOfLabeledNodes s' = length (filter (fun x => x <> 0%Z) (seen ++ labels)).
Proof.
  induction labels as [|l labels IH]; intros seen s Hinv Hlen Hp Hn; simpl in *.
  - by rewrite app_nil_r.
  - rewrite cons_middle, app_assoc. apply IH.
    + apply scan_inv_step; [done|lia].
    + rewrite length_app. simpl. lia.
    + rewrite same_label_pairs_snoc. destruct Hinv as (_ & _ & [Hs _] & _ & _ & Hcnt).
      unfold scan_node. destruct (Z.eqb_spec l 0) as [->|Hl]; simpl; [lia|].
      rewrite increment_upsert, upsert_at, Z.eqb_refl, Hcnt, count_bags by done. lia.
    + rewrite filter_app, length_app. unfold scan_node.
      destruct (Z.eqb_spec l 0) as [->|Hl]; simpl.
      * lia.
      * rewrite filter_cons_True by done. simpl. lia.
Qed.

Lemma scan_counters DIM (gt : View Z) :
  dimension gt = DIM -> well_formed gt ->
  sc_nPairPos (scan DIM gt) = same_label_pairs (data gt) /\
  sc_numberOfLabeledNodes (scan DIM gt)
  = length (filter (fun x => x <> 0%Z) (data gt)).
Proof.
  intros Hd Hwf. rewrite scan_as_fold by done.
  apply (scan_counters_fold (size gt) (data gt) []); try done.
  - apply scan_inv_start.
  - simpl. unfold well_formed in Hwf. lia.
Qed.

End ScanFacts.

(** ** Shape checks and the geometry of edges *)

Section Geometry.

Lemma forM_checks {S} (l : list nat) (body : nat -> M S unit) (P : nat -> Prop) (s : S) :
  (forall d, d ∈ l ->
     (P d /\ body d s = Ok tt s) \/ (~ P d /\ body d s = Throw ShapeMismatch s)) ->
  ((forall d, d ∈ l -> P d) /\ forM_ l body s = Ok tt s) \/
  (~ (forall d, d ∈ l -> P d) /\ forM_ l body s = Throw ShapeMismatch s).
Proof.
  induction l as [|x l IH]; intros Hbody.
  - left. split; [|done]. intros d Hd. by apply elem_of_nil in Hd.
  - simpl. unfold bind.
    destruct (Hbody x) as [[Hx ->]|[Hx ->]]; [by left| |].
    + destruct IH as [[Hall ->]|[Hn ->]].
      * intros d Hd. apply Hbody. by right.
      * left. split; [|done]. intros d Hd.
        apply elem_of_cons in Hd as [->|Hd]; [done|by apply Hall].
      * right. split; [|done]. intros Hall. apply Hn. intros d Hd. apply Hall. by right.
    + right. split; [|done]. intros Hall. apply Hx, Hall. by left.
Qed.

Lemma check_eq_cases {S} (a b : nat) (s : S) :
  (a = b /\ @NIFTY_CHECK_OP_eq S a b s = Ok tt s) \/
  (a <> b /\ @NIFTY_CHECK_OP_eq S a b s = Throw ShapeMismatch s).
Proof.
  unfold NIFTY_CHECK_OP_eq, check. destruct (Nat.eqb_spec a b); [by left|by right].
Qed.

(** The shape checks either pass, exactly when the shapes agree, or throw;
    they never change the state. *)
Lemma check_shapes_cases {S} DIM aff gt grad (s : S) :
  (shapes_agree DIM aff gt grad /\ check_shapes DIM aff gt grad s = Ok tt s) \/
  (~ shapes_agree DIM aff gt grad /\
   check_shapes DIM aff gt grad s = Throw ShapeMismatch s).
Proof.
  unfold check_shapes, shapes_agree, bind.
  destruct (check_eq_cases (shape_at aff 0) DIM s) as [[H1 ->]|[H1 ->]];
    [|right; split; [tauto|done]].
  destruct (check_eq_cases (shape_at grad 0) DIM s) as [[H2 ->]|[H2 ->]];
    [|right; split; [tauto|done]].
  match goal with |- context [forM_ ?l ?b s] =>
    destruct (forM_checks l b
      (fun d => shape_at aff (d + 1) = shape_at gt d /\
                shape_at aff (d + 1) = shape_at grad (d + 1)) s) as [[H3 ->]|[H3 ->]]
  end.
  - intros d _. unfold bind.
    destruct (check_eq_cases (shape_at aff (d + 1)) (shape_at gt d) s) as [[H3 ->]|[H3 ->]];
      [|right; split; [tauto|done]].
    destruct (check_eq_cases (shape_at aff (d + 1)) (shape_at grad (d + 1)) s)
      as [[H4 ->]|[H4 ->]]; [by left|right; split; [tauto|done]].
  - left. split; [|done]. split; [done|]. split; [done|].
    intros d Hd. apply H3. apply elem_of_seq. lia.
  - right. split; [|done]. intros (_ & _ & Hall). apply H3.
    intros d Hd. apply Hall. apply elem_of_seq in Hd. lia.
Qed.

Lemma shape_from_lookups (shp : list nat) (x : nat) (rest : list nat) :
  length shp = S (length rest) -> shp !!! 0 = x ->
  (forall d, d < length rest -> shp !!! (d + 1) = rest !!! d) ->
  shp = x :: rest.
Proof.
  intros Hlen H0 Hd. destruct shp as [|y shp]; [done|]. simpl in *.
  f_equal; [done|]. apply list_eq_same_length with (length rest); [done|lia|].
  intros i a b Hi Ha Hb. specialize (Hd i Hi).
  rewrite Nat.add_1_r in Hd. simpl in Hd.
  apply list_lookup_total_correct in Ha, Hb. congruence.
Qed.

(** Under the dimension preconditions, agreeing shapes are [DIM]
    followed by the shape of the ground truth. *)
Lemma shapes_agree_shape DIM aff gt grad :
  valid_arrays DIM aff gt -> dimension grad = DIM + 1 ->
  shapes_agree DIM aff gt grad ->
  shape aff = DIM :: shape gt /\ shape grad = shape aff.
Proof.
  intros (Hda & Hdg & _ & _) Hdd (H0 & H0' & Hd).
  unfold dimension, shape_at in *.
  assert (shape aff = DIM :: shape gt) as Haff.
  { apply shape_from_lookups; [lia|done|]. intros d Hlt. apply Hd. lia. }
  split; [done|]. rewrite Haff.
  apply shape_from_lookups; [lia|done|]. intros d Hlt.
  destruct (Hd d) as [E1 E2]; [lia|]. congruence.
Qed.

Section Edge.

Variables (DIM : nat) (aff : View Q) (gt : View Z).
Hypothesis Hshape : shape aff = DIM :: shape gt.
Hypothesis Hdim : dimension gt = DIM.

Lemma size_aff : size aff = DIM * size gt.
Proof. unfold size. by rewrite Hshape. Qed.

Lemma affCoord_of_coordinate e :
  affCoord_of DIM aff e = coordinate_of (shape aff) e.
Proof.
  unfold affCoord_of, coordinate_of, strides. rewrite Hshape. simpl length.
  unfold dimension in Hdim. rewrite Hdim. rewrite <- cons_seq, fmap_cons.
  f_equal. apply list_fmap_ext. intros i d Hlk.
  apply lookup_seq in Hlk as [-> _]. done.
Qed.

Lemma affCoord_of_split e :
  affCoord_of DIM aff e = (e / size gt) :: coordinate_of (shape gt) (e mod size gt).
Proof. rewrite affCoord_of_coordinate, Hshape. apply coordinate_of_cons. Qed.

Lemma offset_affCoord {T} (v : View T) e :
  shape v = shape aff -> e < size aff ->
  offset v (affCoord_of DIM aff e) = e.
Proof.
  intros Hv He. unfold offset. rewrite Hv, affCoord_of_coordinate.
  by apply offset_coordinate_of.
Qed.

Lemma node_of_offset (c : list nat) :
  length c = DIM ->
  node_of DIM gt c = sum_list (zip_with Nat.mul c (row_major_strides (shape gt))).
Proof.
  intros Hc. unfold node_of, strides. rewrite foldl_add_sum. simpl.
  f_equal. apply fmap_seq_zip_mul; [done|].
  by rewrite length_row_major_strides.
Qed.

(** The nodes of a valid edge: [nodeU] is the pixel of the edge, [nodeV]
    its lower neighbour along the axis, a smaller node index. *)
Lemma edge_nodes e :
  e < size aff ->
  let affCoord := affCoord_of DIM aff e in
  let axis := affCoord !!! 0 in
  let gtCoordU := (fun d => affCoord !!! d) <$> seq 1 DIM in
  axis = e / size gt /\ axis < DIM /\
  gtCoordU = coordinate_of (shape gt) (e mod size gt) /\
  node_of DIM gt gtCoordU = e mod size gt /\
  e mod size gt < size gt /\
  (0 < gtCoordU !!! axis ->
   node_of DIM gt (<[axis := gtCoordU !!! axis - 1]> gtCoordU) < e mod size gt).
Proof.
  intros He. rewrite size_aff in He.
  assert (0 < size gt) as Hn by (destruct (size gt); lia).
  intros affCoord axis gtCoordU. subst affCoord axis gtCoordU.
  rewrite affCoord_of_split. simpl.
  assert (length (coordinate_of (shape gt) (e mod size gt)) = DIM) as Hlen
    by (by rewrite length_coordinate_of).
  rewrite fmap_seq_tail by done.
  assert (e mod size gt < size gt) as Hmod by (apply Nat.mod_upper_bound; lia).
  assert (e / size gt < DIM) as Hax.
  { apply Nat.Div0.div_lt_upper_bound. lia. }
  split; [done|]. split; [done|]. split; [done|].
  rewrite node_of_offset by done. rewrite offset_coordinate_of by done.
  split; [done|]. split; [done|]. intros Hpos.
  rewrite node_of_offset by (by rewrite length_insert).
  pose proof (sum_zip_decrement (coordinate_of (shape gt) (e mod size gt))
                (row_major_strides (shape gt)) (e / size gt)) as Hdec.
  rewrite offset_coordinate_of in Hdec by done.
  specialize (Hdec ltac:(lia)
                   ltac:(by rewrite length_row_major_strides, Hlen) Hpos).
  pose proof (stride_positive (shape gt) (e / size gt) Hn). unfold dimension in Hdim.
  lia.
Qed.

End Edge.

(** On the grid of two rows and two columns the edges of axis 0 join a
    pixel of the second row to the pixel above it, and the edges of axis 1
    a pixel of the second column to the pixel on its left. *)
Example grid_edges :
  (fun e => if edge_valid 2 grid_aff e
            then Some (nodeU_of 2 grid_aff grid_gt e, nodeV_of 2 grid_aff grid_gt e)
            else None) <$> seq 0 (size grid_aff)
  = [None; None; Some (2, 0); Some (3, 1); None; Some (1, 0); None; Some (3, 2)].
Proof. reflexivity. Qed.

End Geometry.

(** ** One iteration of the sweep *)

Section SweepStep.

Import LabelMap Bag.

Lemma pairs_step_refl c st : pairs_step c 0 st st.
Proof. split; try done; lia. Qed.

Lemma pairs_step_trans c k1 k2 st st1 st2 :
  pairs_step c k1 st st1 -> pairs_step c k2 st1 st2 ->
  pairs_step c (k1 + k2) st st2.
Proof.
  intros [A1 A2 A3 A4 A5 A6 A7 A8] [B1 B2 B3 B4 B5 B6 B7 B8].
  split; try congruence; try lia.
  intros j Hj. rewrite B8, A8; [done|done|].
  unfold offset in *. by rewrite A6.
Qed.

Lemma pairs_step_set c k st (l : Q) (inc : nat) (x : Q) :
  inc <= k ->
  pairs_step c k st
    (mkSweep (sets st) (overlaps st) l (nPairIncorrect st + inc)
             (nPairCounted st + k) (set (gradients st) c x)).
Proof.
  intros Hinc. split; simpl; try done; try lia.
  - by rewrite length_insert.
  - intros j Hj. by rewrite list_lookup_insert_ne.
Qed.

Lemma pair_body_step pos aff c u v st :
  pairs_step c (pair_weight pos u v) st (pair_body pos aff c u v st).
Proof.
  unfold pair_body, pair_weight.
  destruct pos, (u.1 =? v.1)%Z; simpl; try apply pairs_step_refl.
  - destruct (Qle_bool _ _).
    + by apply pairs_step_set.
    + rewrite <- (Nat.add_0_r (nPairIncorrect st)) at 1. apply pairs_step_set. lia.
  - destruct (Qgtb _ _).
    + by apply pairs_step_set.
    + rewrite <- (Nat.add_0_r (nPairIncorrect st)) at 1. apply pairs_step_set. lia.
Qed.

Lemma inner_loop_step pos aff c u V : forall st,
  pairs_step c (sum_list (pair_weight pos u <$> V)) st
    (foldl (fun st v => pair_body pos aff c u v st) st V).
Proof.
  induction V as [|v V IH]; intros st; csimpl; [apply pairs_step_refl|].
  eapply pairs_step_trans; [apply pair_body_step|apply IH].
Qed.

Lemma count_pairs_step pos aff c U V : forall st,
  pairs_step c (sum_list ((fun u => sum_list (pair_weight pos u <$> V)) <$> U)) st
    (count_pairs pos aff c U V st).
Proof.
  unfold count_pairs.
  induction U as [|u U IH]; intros st; csimpl; [apply pairs_step_refl|].
  eapply pairs_step_trans; [apply inner_loop_step|apply IH].
Qed.

Lemma pair_weight_sum pos U V :
  sum_list ((fun u => sum_list (pair_weight pos u <$> V)) <$> U)
  = if pos then same_pairs U V else diff_pairs U V.
Proof. by destruct pos. Qed.

Lemma sum_list_with_insert {A} `{Inhabited A} (f : A -> nat) (l : list A) i x :
  i < length l ->
  sum_list_with f (<[i:=x]> l) + f (l !!! i) = sum_list_with f l + f x.
Proof.
  revert i. induction l as [|y l IH]; intros i Hi; simpl in *; [lia|].
  destruct i as [|i]; simpl; [lia|].
  specialize (IH i ltac:(lia)). lia.
Qed.

Lemma sum_list_with_insert2 {A} `{Inhabited A} (f : A -> nat) (l : list A) w x a b :
  w < length l -> x < length l -> w <> x ->
  sum_list_with f (<[x:=b]> (<[w:=a]> l)) + f (l !!! w) + f (l !!! x)
  = sum_list_with f l + f a + f b.
Proof.
  intros Hw Hx Hne.
  pose proof (sum_list_with_insert f (<[w:=a]> l) x b) as H1.
  rewrite length_insert in H1. specialize (H1 Hx).
  rewrite list_lookup_total_insert_ne in H1 by done.
  pose proof (sum_list_with_insert f l w a Hw). lia.
Qed.

End SweepStep.

Section MergeStep.

Import Bag.

(** Emptying the bag of [x] into the bag of [w]. *)
Lemma absorb_bags (ov : list LabelMap.t) w x :
  Forall ok ov -> w < length ov -> x < length ov -> w <> x ->
  let ov' := <[x := LabelMap.empty]>
               (<[w := foldl LabelMap.absorb_entry (ov !!! w) (ov !!! x)]> ov) in
  Forall ok ov' /\
  (forall k, sum_list_with (LabelMap.at_ k) ov' = sum_list_with (LabelMap.at_ k) ov) /\
  sum_list_with total ov' = sum_list_with total ov /\
  sum_list_with squares ov' = sum_list_with squares ov + 2 * dot (ov !!! x) (ov !!! w) /\
  sum_list_with (fun m => total m * total m) ov'
  = sum_list_with (fun m => total m * total m) ov + 2 * (total (ov !!! w) * total (ov !!! x)).
Proof.
  intros Hok Hw Hx Hne ov'.
  destruct (Forall_lookup_total_1 _ _ w Hok Hw) as [Hsw Hpw].
  destruct (Forall_lookup_total_1 _ _ x Hok Hx) as [Hsx Hpx].
  destruct (absorb_fold (ov !!! x) (ov !!! w) Hsw Hsx) as (A1 & A2 & A3 & A4 & A5).
  split; [|split; [|split; [|split]]].
  - subst ov'. apply Forall_insert; [apply Forall_insert; [done|]|].
    + split; [done|by apply A2].
    + split; [done|constructor].
  - intros k.
    pose proof (sum_list_with_insert2 (LabelMap.at_ k) ov w x
                  (foldl LabelMap.absorb_entry (ov !!! w) (ov !!! x)) LabelMap.empty Hw Hx Hne) as E.
    rewrite A3 in E. unfold LabelMap.empty in E. rewrite at_nil in E. subst ov'. unfold LabelMap.empty. lia.
  - pose proof (sum_list_with_insert2 total ov w x
                  (foldl LabelMap.absorb_entry (ov !!! w) (ov !!! x)) LabelMap.empty Hw Hx Hne) as E.
    rewrite A4 in E. subst ov'. unfold LabelMap.empty, total in *. simpl in E. lia.
  - pose proof (sum_list_with_insert2 squares ov w x
                  (foldl LabelMap.absorb_entry (ov !!! w) (ov !!! x)) LabelMap.empty Hw Hx Hne) as E.
    rewrite A5 in E. subst ov'. unfold LabelMap.empty in *.
    change (squares []) with 0 in E. lia.
  - pose proof (sum_list_with_insert2 (fun m => total m * total m) ov w x
                  (foldl LabelMap.absorb_entry (ov !!! w) (ov !!! x)) LabelMap.empty Hw Hx Hne) as E.
    simpl in E. rewrite A4 in E. subst ov'. unfold LabelMap.empty in *.
    change (total []) with 0 in E. nia.
Qed.

Lemma merge_edge_inv n seg aff pos norm c nodeU nodeV st :
  sweep_inv n seg pos st -> nodeU < n -> nodeV < n ->
  sweep_inv n seg pos (merge_edge aff pos norm c nodeU nodeV st).
Proof.
  intros Hinv HU HV. pose proof Hinv as [Hwf Hlen Hok Hnon Hcons Hpot Hinc].
  unfold merge_edge.
  destruct (Nat.eqb_spec (find (sets st) nodeU) (find (sets st) nodeV)) as [|Hne];
    [done|]. simpl negb. cbv iota.
  set (setU := find (sets st) nodeU) in *. set (setV := find (sets st) nodeV) in *.
  destruct Hwf as [Hpl Hfind].
  destruct (Hfind nodeU HU) as [HsU HrU]. destruct (Hfind nodeV HV) as [HsV HrV].
  fold setU in HsU, HrU. fold setV in HsV, HrV.
  destruct (merge_roots n (sets st) setU setV) as [Hwf' Hfind']; try done.
  set (sets1 := merge (sets st) setU setV) in *.
  match goal with |- context [count_pairs pos aff c ?U ?V ?s0] =>
    pose proof (count_pairs_step pos aff c U V s0) as Hstep;
    set (st1 := count_pairs pos aff c U V s0) in *
  end.
  rewrite pair_weight_sum in Hstep.
  destruct Hstep as [S1 S2 S3 S4 S5 S6 S7 S8]. simpl in S1, S2, S3, S4, S5.
  assert (Forall ok (overlaps st) /\ setU < length (overlaps st)
          /\ setV < length (overlaps st)) as (Hok' & HlU & HlV) by (split; [done|lia]).
  destruct (Forall_lookup_total_1 _ _ setU Hok' HlU) as [HsortU _].
  destruct (Forall_lookup_total_1 _ _ setV Hok' HlV) as [HsortV _].
  assert (exists w x, w < n /\ x < n /\ w <> x /\
            (w = setU /\ x = setV \/ w = setV /\ x = setU) /\
            (if find sets1 setU =? setV then (setV, setU) else (setU, setV)) = (w, x) /\
            forall i, i < n -> find sets1 i = if find (sets st) i =? x then w else find (sets st) i)
    as (w & x & Hw & Hx & Hwx & Hcase & Hsel & Hfw).
  { destruct Hfind' as [Hf|Hf].
    - exists setU, setV.
      split; [done|]. split; [done|]. split; [done|]. split; [by left|].
      split; [|done]. rewrite Hf by done. rewrite HrU.
      destruct (Nat.eqb_spec setU setV); [done|].
      by destruct (Nat.eqb_spec setU setV).
    - exists setV, setU.
      split; [done|]. split; [done|]. split; [congruence|]. split; [by right|].
      split; [|done]. rewrite Hf by done. by rewrite HrU, !Nat.eqb_refl. }
  rewrite Hsel. rewrite S2.
  destruct (absorb_bags (overlaps st) w x) as (B1 & B2 & B3 & B4 & B5);
    [done|lia|lia|done|].
  assert (dot (overlaps st !!! x) (overlaps st !!! w)
          = same_pairs (overlaps st !!! setU) (overlaps st !!! setV)) as Hdot.
  { rewrite same_pairs_dot by done.
    destruct Hcase as [[-> ->]|[-> ->]]; [by apply dot_sym|done]. }
  assert (total (overlaps st !!! w) * total (overlaps st !!! x)
          = total (overlaps st !!! setU) * total (overlaps st !!! setV)) as Htot.
  { destruct Hcase as [[-> ->]|[-> ->]]; lia. }
  split; simpl.
  - done.
  - by rewrite !length_insert.
  - done.
  - intros i Hi Hni. rewrite Hfw in Hni by done.
    destruct (decide (i = x)) as [->|Hix].
    { rewrite list_lookup_total_insert_eq; [done|]. rewrite length_insert. lia. }
    rewrite list_lookup_total_insert_ne by done.
    destruct (decide (i = w)) as [->|Hiw].
    { exfalso. apply Hni.
      assert (find (sets st) w = w) as -> by (destruct Hcase as [[-> ->]|[-> ->]]; done).
      by destruct (Nat.eqb_spec w x). }
    rewrite list_lookup_total_insert_ne by done.
    apply Hnon; [done|]. intros Hfi. rewrite Hfi in Hni.
    by destruct (Nat.eqb_spec i x).
  - intros k. by rewrite B2.
  - rewrite S3. pose proof (same_diff_pairs (overlaps st !!! setU) (overlaps st !!! setV)).
    destruct pos; nia.
  - lia.
Qed.

(** After the iteration the two nodes of the edge are in one set, and
    nodes that were in one set still are. *)
Lemma merge_edge_connects n aff pos norm c nodeU nodeV st :
  ufd_wf n (sets st) -> nodeU < n -> nodeV < n ->
  let st' := merge_edge aff pos norm c nodeU nodeV st in
  find (sets st') nodeU = find (sets st') nodeV /\
  forall i j, i < n -> j < n ->
    find (sets st) i = find (sets st) j -> find (sets st') i = find (sets st') j.
Proof.
  intros Hwf HU HV. unfold merge_edge.
  destruct (Nat.eqb_spec (find (sets st) nodeU) (find (sets st) nodeV)) as [Heq|Hne];
    [done|]. simpl negb. cbv iota.
  set (setU := find (sets st) nodeU) in *. set (setV := find (sets st) nodeV) in *.
  pose proof Hwf as [Hpl Hfind].
  destruct (Hfind nodeU HU) as [HsU HrU]. destruct (Hfind nodeV HV) as [HsV HrV].
  fold setU in HsU, HrU. fold setV in HsV, HrV.
  destruct (merge_roots n (sets st) setU setV) as [Hwf' Hfind']; try done.
  destruct (find (merge (sets st) setU setV) setU =? setV); simpl.
  all: destruct Hfind' as [Hf|Hf]; (split; [|intros i j Hi Hj Hij]);
    rewrite !Hf by done; fold setU setV; rewrite ?Hij;
    rewrite ?Nat.eqb_refl; try done.
  all: by destruct (Nat.eqb_spec setU setV), (Nat.eqb_spec setV setU).
Qed.

(** The iteration writes the gradient array at the slot of its edge only. *)
Lemma merge_edge_gradients aff pos norm c nodeU nodeV st :
  let st' := merge_edge aff pos norm c nodeU nodeV st in
  shape (gradients st') = shape (gradients st) /\
  length (data (gradients st')) = length (data (gradients st)) /\
  forall j, j <> offset (gradients st) c ->
    data (gradients st') !! j = data (gradients st) !! j.
Proof.
  unfold merge_edge. destruct (negb _); [|done].
  match goal with |- context [count_pairs pos aff c ?U ?V ?s0] =>
    pose proof (count_pairs_step pos aff c U V s0) as Hstep;
    set (st1 := count_pairs pos aff c U V s0) in *
  end.
  destruct Hstep as [S1 S2 S3 S4 S5 S6 S7 S8]. simpl in S6, S7, S8.
  destruct (_ =? _); simpl; (split; [done|]); rewrite length_insert;
    (split; [done|]); intros j Hj;
    (rewrite list_lookup_insert_ne; [by apply S8|]);
    unfold offset in *; by rewrite S6.
Qed.

End MergeStep.

(** ** The sweep *)

Section SweepFacts.

Import Bag.

Lemma sweep_body_unfold DIM aff gt pos norm st e :
  sweep_body DIM aff gt pos norm st e
  = if edge_valid DIM aff e then
      merge_edge aff pos norm (affCoord_of DIM aff e)
                 (nodeU_of DIM aff gt e) (nodeV_of DIM aff gt e) st
    else st.
Proof. done. Qed.

Lemma invalid_edge_not_valid DIM aff e :
  invalid_edge DIM aff e -> edge_valid DIM aff e = false.
Proof.
  unfold invalid_edge, edge_valid, gtCoordU_of, axis_of. cbv zeta. intros Hz.
  set (c := affCoord_of DIM aff e) in *. set (a := c !!! 0) in *.
  destruct (decide (a < DIM)) as [Ha|Ha].
  - rewrite (list_lookup_total_fmap _ (seq 1 DIM) a) by (by rewrite length_seq).
    rewrite lookup_total_seq_lt by done.
    rewrite Nat.add_comm, Hz. done.
  - rewrite list_lookup_total_alt, (lookup_ge_None_2 _ a); [done|].
    rewrite length_fmap, length_seq. lia.
Qed.

(** An invalid edge leaves every variable of the sweep as it is. *)
Lemma sweep_body_invalid DIM aff gt pos norm st e :
  invalid_edge DIM aff e -> sweep_body DIM aff gt pos norm st e = st.
Proof.
  intros Hinv. by rewrite sweep_body_unfold, invalid_edge_not_valid.
Qed.

Section Fixed.

Variables (DIM : nat) (aff : View Q) (gt : View Z) (pos : bool) (norm : nat).
Hypothesis Hshape : shape aff = DIM :: shape gt.
Hypothesis Hdim : dimension gt = DIM.

Lemma valid_edge_nodes e :
  e < size aff -> edge_valid DIM aff e = true ->
  nodeU_of DIM aff gt e = e mod (size gt) /\ nodeU_of DIM aff gt e < (size gt) /\
  nodeV_of DIM aff gt e < nodeU_of DIM aff gt e.
Proof.
  intros He Hv. unfold edge_valid in Hv. apply Nat.ltb_lt in Hv.
  destruct (edge_nodes DIM aff gt Hshape Hdim e He) as (_ & _ & _ & HU & Hlt & HV).
  unfold nodeU_of, nodeV_of, gtCoordU_of, axis_of in *.
  rewrite HU. split; [done|]. split; [done|]. by apply HV.
Qed.

Lemma sweep_body_inv seg st e :
  e < size aff -> sweep_inv (size gt) seg pos st ->
  sweep_inv (size gt) seg pos (sweep_body DIM aff gt pos norm st e).
Proof.
  intros He Hinv. rewrite sweep_body_unfold.
  destruct (edge_valid DIM aff e) eqn:Hv; [|done].
  destruct (valid_edge_nodes e He Hv) as (_ & HU & HV).
  apply merge_edge_inv; [done|done|lia].
Qed.

Lemma sweep_body_connects st e :
  e < size aff -> ufd_wf (size gt) (sets st) ->
  let st' := sweep_body DIM aff gt pos norm st e in
  (edge_valid DIM aff e = true ->
   find (sets st') (nodeU_of DIM aff gt e) = find (sets st') (nodeV_of DIM aff gt e)) /\
  (forall i j, i < (size gt) -> j < (size gt) ->
     find (sets st) i = find (sets st) j -> find (sets st') i = find (sets st') j).
Proof.
  intros He Hwf. simpl. rewrite sweep_body_unfold.
  destruct (edge_valid DIM aff e) eqn:Hv; [|done].
  destruct (valid_edge_nodes e He Hv) as (_ & HU & HV).
  destruct (merge_edge_connects (size gt) aff pos norm (affCoord_of DIM aff e)
              (nodeU_of DIM aff gt e) (nodeV_of DIM aff gt e) st) as [H1 H2];
    [done|done|lia|]. done.
Qed.

Lemma sweep_body_gradients st e :
  e < size aff -> shape (gradients st) = shape aff ->
  let st' := sweep_body DIM aff gt pos norm st e in
  shape (gradients st') = shape (gradients st) /\
  length (data (gradients st')) = length (data (gradients st)) /\
  forall j, j <> e -> data (gradients st') !! j = data (gradients st) !! j.
Proof.
  intros He Hs. simpl. rewrite sweep_body_unfold.
  destruct (edge_valid DIM aff e); [|done].
  destruct (merge_edge_gradients aff pos norm (affCoord_of DIM aff e)
              (nodeU_of DIM aff gt e) (nodeV_of DIM aff gt e) st) as (H1 & H2 & H3).
  split; [done|]. split; [done|]. intros j Hj. apply H3.
  by rewrite (offset_affCoord DIM aff gt Hshape Hdim).
Qed.

(** The invariant, connectivity and the frame of the gradient array along
    a whole queue of edge indices. *)
Lemma sweep_fold seg (queue : list nat) : forall st,
  Forall (fun e => e < size aff) queue ->
  sweep_inv (size gt) seg pos st -> shape (gradients st) = shape aff ->
  let st' := foldl (sweep_body DIM aff gt pos norm) st queue in
  sweep_inv (size gt) seg pos st' /\
  (forall e, e ∈ queue -> edge_valid DIM aff e = true ->
     find (sets st') (nodeU_of DIM aff gt e) = find (sets st') (nodeV_of DIM aff gt e)) /\
  (forall i j, i < (size gt) -> j < (size gt) ->
     find (sets st) i = find (sets st) j -> find (sets st') i = find (sets st') j) /\
  shape (gradients st') = shape aff /\
  length (data (gradients st')) = length (data (gradients st)) /\
  (forall j, j ∉ queue -> data (gradients st') !! j = data (gradients st) !! j).
Proof.
  induction queue as [|e queue IH]; intros st Hq Hinv Hs; simpl.
  - split; [done|]. split; [intros e He; by apply elem_of_nil in He|].
    split; [done|]. split; [done|]. split; done.
  - apply Forall_cons_1 in Hq as [He Hq].
    pose proof (sweep_body_inv seg st e He Hinv) as Hinv1.
    destruct (sweep_body_connects st e He (inv_wf _ _ _ _ Hinv)) as [Hc1 Hc2].
    destruct (sweep_body_gradients st e He Hs) as (Hg1 & Hg2 & Hg3).
    destruct (IH (sweep_body DIM aff gt pos norm st e) Hq Hinv1 ltac:(congruence))
      as (I1 & I2 & I3 & I4 & I5 & I6).
    split; [done|]. split; [|split; [|split; [|split]]].
    + intros e' He' Hv. apply elem_of_cons in He' as [->|He']; [|by apply I2].
      destruct (valid_edge_nodes e He Hv) as (_ & HU & HV).
      apply I3; [done|lia|by apply Hc1].
    + intros i j Hi Hj Hij. apply I3; [done|done|by apply Hc2].
    + done.
    + congruence.
    + intros j Hj. apply not_elem_of_cons in Hj as [Hje Hj].
      rewrite I6 by done. by apply Hg3.
Qed.

End Fixed.

End SweepFacts.

(** ** The sweep from its start to its end *)

Section SweepRun.

Import Bag.

Lemma bag_of_ok l : ok (bag_of l).
Proof.
  unfold bag_of, ok, positive. destruct (l =? 0)%Z; simpl.
  - split; [done|constructor].
  - split; [by split|]. repeat constructor.
Qed.

Lemma bag_of_sums (labels : list Z) :
  sum_list_with total (bag_of <$> labels) = sum_list_with squares (bag_of <$> labels) /\
  sum_list_with squares (bag_of <$> labels)
  = sum_list_with (fun m => total m * total m) (bag_of <$> labels).
Proof.
  induction labels as [|l labels [IH1 IH2]]; [done|]. csimpl.
  rewrite IH1, <- IH2.
  assert (total (bag_of l) = squares (bag_of l) /\
          squares (bag_of l) = total (bag_of l) * total (bag_of l)) as [E1 E2];
    [|split; lia].
  unfold bag_of. by destruct (l =? 0)%Z.
Qed.

Lemma sweep_start_inv DIM (gt : View Z) pos g0 :
  dimension gt = DIM -> well_formed gt ->
  sweep_inv (size gt) (sc_segmentSizes (scan DIM gt)) pos (sweep_start DIM gt g0).
Proof.
  intros Hd Hwf.
  destruct (scan_inv_final DIM gt Hd Hwf) as (_ & Hov & _ & _ & _ & Hcnt).
  unfold well_formed in Hwf. rewrite Hwf, Nat.sub_diag in Hov.
  simpl in Hov. rewrite app_nil_r in Hov.
  destruct (bag_of_sums (data gt)) as [E1 E2].
  unfold sweep_start. split; simpl; rewrite ?Hov.
  - apply ufd_wf_init.
  - by rewrite length_fmap.
  - apply Forall_fmap, Forall_true. intros l. apply bag_of_ok.
  - intros i _ Hi. by rewrite find_init in Hi.
  - intros k. by rewrite Hcnt.
  - destruct pos; lia.
  - lia.
Qed.

Lemma sum_zip_positive (c st : list nat) :
  0 < sum_list (zip_with Nat.mul c st) -> exists a, a < length c /\ 0 < c !!! a.
Proof.
  revert st. induction c as [|x c IH]; intros st Hs; simpl in *; [lia|].
  destruct st as [|y st]; simpl in *; [lia|].
  destruct x as [|x].
  - destruct (IH st) as (a & Ha & Hpos); [lia|]. exists (S a). simpl. split; [lia|done].
  - exists 0. simpl. split; lia.
Qed.

Section Grid.

Variables (DIM : nat) (aff : View Q) (gt : View Z).
Hypothesis Hshape : shape aff = DIM :: shape gt.
Hypothesis Hdim : dimension gt = DIM.

(** Every pixel but the first has a valid edge to a pixel of smaller index. *)
Lemma exists_edge_down i :
  0 < i -> i < size gt ->
  exists e, e < size aff /\ edge_valid DIM aff e = true /\
            nodeU_of DIM aff gt e = i /\ nodeV_of DIM aff gt e < i.
Proof.
  intros Hi0 Hi.
  pose proof (offset_coordinate_of (shape gt) i Hi) as Hoff.
  destruct (sum_zip_positive (coordinate_of (shape gt) i) (row_major_strides (shape gt)))
    as (a & Ha & Hpos); [lia|].
  rewrite length_coordinate_of in Ha. unfold dimension in Hdim. rewrite Hdim in Ha.
  exists (a * size gt + i).
  assert (a * size gt + i < size aff) as He.
  { rewrite (size_aff DIM aff gt Hshape). nia. }
  assert ((a * size gt + i) / size gt = a) as Hdiv.
  { rewrite Nat.div_add_l by lia. rewrite Nat.div_small by done. lia. }
  assert ((a * size gt + i) mod size gt = i) as Hmod.
  { rewrite Nat.add_comm, Nat.Div0.mod_add. by apply Nat.mod_small. }
  destruct (edge_nodes DIM aff gt Hshape Hdim _ He) as (Hax & _ & HcU & HU & _ & HV).
  rewrite Hdiv in Hax. rewrite Hmod in HcU, HU, HV.
  assert (edge_valid DIM aff (a * size gt + i) = true) as Hv.
  { unfold edge_valid, gtCoordU_of, axis_of. rewrite Hax, HcU. by apply Nat.ltb_lt. }
  split; [done|]. split; [done|].
  unfold nodeU_of, nodeV_of, gtCoordU_of, axis_of. split; [done|].
  apply HV. apply Nat.ltb_lt in Hv. exact Hv.
Qed.

(** Once every edge index has been swept, all pixels are in one set. *)
Lemma all_connected (s : Ufd) :
  (forall e, e < size aff -> edge_valid DIM aff e = true ->
     find s (nodeU_of DIM aff gt e) = find s (nodeV_of DIM aff gt e)) ->
  forall i, i < size gt -> find s i = find s 0.
Proof.
  intros Hedges i. induction i as [i IH] using lt_wf_ind. intros Hi.
  destruct i as [|i]; [done|].
  destruct (exists_edge_down (S i)) as (e & He & Hv & HU & HV); [lia|done|].
  rewrite <- HU at 1. rewrite (Hedges e He Hv). apply IH; lia.
Qed.

End Grid.

Lemma sum_list_with_zero {A} `{Inhabited A} (f : A -> nat) (l : list A) :
  (forall i, i < length l -> f (l !!! i) = 0) -> sum_list_with f l = 0.
Proof.
  induction l as [|x l IH]; intros Hz; [done|]. simpl.
  pose proof (Hz 0 ltac:(simpl; lia)) as H0. simpl in H0. rewrite H0, IH; [done|].
  intros i Hi. apply (Hz (S i)). simpl. lia.
Qed.

Lemma sum_list_with_single {A} `{Inhabited A} (f : A -> nat) (l : list A) r :
  r < length l -> (forall i, i < length l -> i <> r -> f (l !!! i) = 0) ->
  sum_list_with f l = f (l !!! r).
Proof.
  revert r. induction l as [|x l IH]; intros r Hr Hz; [simpl in Hr; lia|].
  destruct r as [|r]; simpl.
  - rewrite sum_list_with_zero; [lia|].
    intros i Hi. apply (Hz (S i)); simpl; lia.
  - pose proof (Hz 0 ltac:(simpl; lia) ltac:(lia)) as H0. simpl in H0.
    rewrite H0, (IH r); [done|simpl in Hr; lia|].
    intros i Hi Hir. apply (Hz (S i)); simpl; lia.
Qed.

Lemma half_pairs T : 2 * ((T * (T - 1)) / 2) = T * (T - 1).
Proof.
  assert (exists k, T * (T - 1) = 2 * k) as [k ->].
  { destruct (Nat.Even_or_Odd T) as [[k ->]|[k ->]].
    - exists (k * (2 * k - 1)). lia.
    - exists ((2 * k + 1) * k). replace (2 * k + 1 - 1) with (2 * k) by lia. lia. }
  rewrite (Nat.mul_comm 2 k), Nat.div_mul by lia. lia.
Qed.

End SweepRun.

Section SweepResult.

Import Bag.

Variables (DIM : nat) (aff : View Q) (gt : View Z) (pos : bool) (g0 : View Q).
Hypothesis Hvalid : valid_arrays DIM aff gt.
Hypothesis Hshape : shape aff = DIM :: shape gt.
Hypothesis Hg0 : shape g0 = shape aff.

(** The invariant holds after any queue of edge indices. *)
Lemma sweep_invariant (queue : list nat) :
  Forall (fun e => e < size aff) queue ->
  sweep_inv (size gt) (sc_segmentSizes (scan DIM gt)) pos
            (sweep DIM aff gt pos g0 queue).
Proof.
  intros Hq. destruct Hvalid as (_ & Hdg & _ & Hwg).
  unfold sweep.
  destruct (sweep_fold DIM aff gt pos (nPairNorm_of pos (scan DIM gt)) Hshape Hdg
              (sc_segmentSizes (scan DIM gt)) queue (sweep_start DIM gt g0)) as [H _];
    [done|by apply sweep_start_inv|done|done].
Qed.

Lemma scan_empty : size gt = 0 -> scan DIM gt = mkScan [] [] 0 0 0.
Proof.
  intros Hn. destruct Hvalid as (_ & Hdg & _ & Hwg).
  rewrite scan_as_fold by done. unfold well_formed in Hwg. rewrite Hn in *.
  by destruct (data gt).
Qed.

(** After a queue that holds every edge index, the pairs counted are all
    the pairs of the polarity: the normalizer of the scan. *)
Lemma counted_pairs_final (queue : list nat) :
  queue ≡ₚ seq 0 (size aff) ->
  nPairCounted (sweep DIM aff gt pos g0 queue) = nPairNorm_of pos (scan DIM gt).
Proof.
  intros Hperm. pose proof Hvalid as (_ & Hdg & _ & Hwg).
  assert (Forall (fun e => e < size aff) queue) as Hq.
  { apply Forall_forall. intros e He. rewrite Hperm in He.
    apply elem_of_seq in He. lia. }
  destruct (decide (size gt = 0)) as [Hn0|Hn0].
  { assert (size aff = 0) as Ha by (rewrite (size_aff DIM aff gt Hshape); lia).
    rewrite Ha in Hperm. simpl in Hperm. apply Permutation_nil_r in Hperm. subst queue.
    unfold sweep, sweep_start. simpl. rewrite scan_empty by done.
    by destruct pos. }
  unfold sweep in *.
  destruct (sweep_fold DIM aff gt pos (nPairNorm_of pos (scan DIM gt)) Hshape Hdg
              (sc_segmentSizes (scan DIM gt)) queue (sweep_start DIM gt g0))
    as (Hinv & Hedges & _); [done|by apply sweep_start_inv|done|].
  set (st := foldl _ _ queue) in *.
  destruct Hinv as [Hwf Hlen Hok Hnon Hcons Hpot Hinc].
  assert (forall i, i < size gt -> find (sets st) i = find (sets st) 0) as Hall.
  { apply (all_connected DIM aff gt Hshape Hdg). intros e He Hv.
    apply Hedges; [|done]. rewrite Hperm. apply elem_of_seq. lia. }
  set (r := find (sets st) 0) in *.
  assert (r < size gt) as Hr by (apply Hwf; lia).
  assert (forall i, i < length (overlaps st) -> i <> r -> overlaps st !!! i = []) as Hempty.
  { intros i Hi Hir. apply Hnon; [lia|]. rewrite Hall by lia. done. }
  assert (forall f : list (Z * nat) -> nat, f [] = 0 ->
            sum_list_with f (overlaps st) = f (overlaps st !!! r)) as Hsum.
  { intros f Hf. apply sum_list_with_single; [lia|].
    intros i Hi Hir. by rewrite Hempty. }
  destruct (scan_inv_final DIM gt Hdg Hwg) as (_ & _ & Hokseg & Hnum & Hpairs & _).
  assert (overlaps st !!! r = sc_segmentSizes (scan DIM gt)) as Hbag.
  { apply bag_ext; [|done|].
    - apply Forall_lookup_total_1; [done|lia].
    - intros k. rewrite <- Hcons. symmetry. by apply Hsum. }
  rewrite !Hsum, Hbag in Hpot by done.
  unfold nPairNorm_of. rewrite Hnum.
  set (T := total (sc_segmentSizes (scan DIM gt))) in *.
  set (SQ := squares (sc_segmentSizes (scan DIM gt))) in *.
  destruct pos; [lia|].
  pose proof (half_pairs T) as Hhalf.
  assert (T * (T - 1) + T = T * T) as HT by (destruct T; simpl; nia).
  lia.
Qed.

(** The pairs counted as incorrect are among the pairs counted. *)
Lemma incorrect_le_counted (queue : list nat) :
  Forall (fun e => e < size aff) queue ->
  nPairIncorrect (sweep DIM aff gt pos g0 queue)
  <= nPairCounted (sweep DIM aff gt pos g0 queue).
Proof. intros Hq. by destruct (sweep_invariant queue Hq). Qed.

End SweepResult.

(** ** The entry point [compute_malis_gradient] *)

Section EntryPoint.

Variable std_sort : (nat -> nat -> bool) -> list nat -> list nat.

(** The three ways a call can end. *)
Lemma compute_malis_gradient_cases DIM aff gt pos (o : Outs) :
  let norm := nPairNorm_of pos (scan DIM gt) in
  let st := sweep DIM aff gt pos (gradientsOut o) (pqueue_of std_sort aff) in
  (~ shapes_agree DIM aff gt (gradientsOut o) /\
   compute_malis_gradient std_sort DIM aff gt pos o = Throw ShapeMismatch o) \/
  (shapes_agree DIM aff gt (gradientsOut o) /\ norm = 0 /\
   compute_malis_gradient std_sort DIM aff gt pos o = Throw DegenerateNormalization o) \/
  (shapes_agree DIM aff gt (gradientsOut o) /\ 0 < norm /\
   compute_malis_gradient std_sort DIM aff gt pos o = Ok tt (outputs_of st norm)).
Proof.
  intros norm st. unfold compute_malis_gradient, bind, gets.
  destruct (check_shapes_cases DIM aff gt (gradientsOut o) o) as [[Hs ->]|[Hs ->]];
    [|by left].
  right. fold norm. unfold check.
  destruct (Nat.leb_spec norm 0) as [Hn|Hn]; simpl.
  - left. split; [done|]. split; [lia|done].
  - right. split; [done|]. split; [done|]. done.
Qed.

Lemma pqueue_of_permutation aff :
  permutes std_sort -> pqueue_of std_sort aff ≡ₚ seq 0 (size aff).
Proof. intros Hp. apply Hp. Qed.

Lemma pqueue_of_bounded aff :
  permutes std_sort -> Forall (fun e => e < size aff) (pqueue_of std_sort aff).
Proof.
  intros Hp. apply Forall_forall. intros e He.
  rewrite (pqueue_of_permutation aff Hp) in He. apply elem_of_seq in He. lia.
Qed.

End EntryPoint.

(** ** The sorting routine *)

Section Sorting.

Lemma Qgtb_true x y : Qgtb x y = true <-> (y < x)%Q.
Proof.
  unfold Qgtb. rewrite negb_true_iff, <- not_true_iff_false, Qle_bool_iff.
  split; [apply Qnot_le_lt|apply Qlt_not_le].
Qed.

Lemma Qgtb_false x y : Qgtb x y = false <-> (x <= y)%Q.
Proof. unfold Qgtb. by rewrite negb_false_iff, Qle_bool_iff. Qed.

(** The comparator of the edge sort is a strict weak ordering. *)
Lemma edge_order_strict_weak (f : nat -> Q) :
  strict_weak_order (fun ind1 ind2 => Qgtb (f ind1) (f ind2)).
Proof.
  split; [|split].
  - intros x. apply Qgtb_false, Qle_refl.
  - intros x y z. rewrite !Qgtb_true. intros H1 H2. by apply Qlt_trans with (f y).
  - intros x y z. rewrite !Qgtb_false. intros H1 H2. by apply Qle_trans with (f y).
Qed.

Lemma sort_insert_permutation cmp x l : sort_insert cmp x l ≡ₚ x :: l.
Proof.
  induction l as [|y l IH]; simpl; [done|].
  destruct (cmp y x); [|done]. rewrite IH. apply Permutation_swap.
Qed.

Lemma insertion_sort_permutes : permutes insertion_sort.
Proof.
  intros cmp l. unfold insertion_sort.
  induction l as [|x l IH]; simpl; [done|].
  by rewrite sort_insert_permutation, IH.
Qed.

Lemma sort_insert_sorted cmp x l :
  strict_weak_order cmp ->
  StronglySorted (fun a b => cmp b a = false) l ->
  StronglySorted (fun a b => cmp b a = false) (sort_insert cmp x l).
Proof.
  intros (Hirr & Htr & Hneg). induction 1 as [|y l Hs IH Hy]; simpl.
  - repeat constructor.
  - destruct (cmp y x) eqn:Hc.
    + constructor; [done|].
      rewrite sort_insert_permutation. constructor; [|done].
      destruct (cmp x y) eqn:Hc'; [|done].
      pose proof (Hirr x) as Hx. by rewrite (Htr x y x Hc' Hc) in Hx.
    + constructor; [by constructor|]. constructor; [done|].
      eapply Forall_impl; [exact Hy|]. intros z Hz. simpl in Hz. by apply (Hneg z y x).
Qed.

Lemma insertion_sort_sorts : sorts_by insertion_sort.
Proof.
  intros cmp l Hswo. unfold insertion_sort.
  induction l as [|x l IH]; simpl; [constructor|].
  by apply sort_insert_sorted.
Qed.

End Sorting.

(** ** The range of the counters *)

Section CounterRange.

Lemma scan_labeled_le (labels : list Z) : forall s,
  sc_numberOfLabeledNodes (foldl (fun s l => scan_node l s) s labels)
  <= sc_numberOfLabeledNodes s + length labels.
Proof.
  induction labels as [|l labels IH]; intros s; simpl; [lia|].
  etransitivity; [apply IH|]. unfold scan_node.
  destruct (negb (l =? 0)%Z); simpl; lia.
Qed.

Lemma lookup_total_le_sum {A} `{Inhabited A} (f : A -> nat) (l : list A) i :
  f inhabitant = 0 -> f (l !!! i) <= sum_list_with f l.
Proof.
  intros Hf. revert i. induction l as [|x l IH]; intros i; simpl.
  - rewrite list_lookup_total_alt. simpl. lia.
  - destruct i as [|i]; simpl; [lia|]. specialize (IH i). lia.
Qed.

Lemma merge_edge_counted aff pos norm c nodeU nodeV st :
  nPairCounted st <= nPairCounted (merge_edge aff pos norm c nodeU nodeV st).
Proof.
  unfold merge_edge. destruct (negb _); [|done].
  match goal with |- context [count_pairs pos aff c ?U ?V ?s0] =>
    pose proof (count_pairs_step pos aff c U V s0) as Hstep;
    set (st1 := count_pairs pos aff c U V s0) in *
  end.
  destruct Hstep as [_ _ S3 _ _ _ _ _]. simpl in S3.
  destruct (_ =? _); simpl; lia.
Qed.

Lemma sweep_counted_mono DIM aff gt pos norm (queue : list nat) : forall st,
  nPairCounted st <= nPairCounted (foldl (sweep_body DIM aff gt pos norm) st queue).
Proof.
  induction queue as [|e queue IH]; intros st; simpl; [done|].
  etransitivity; [|apply IH]. rewrite sweep_body_unfold.
  destruct (edge_valid DIM aff e); [apply merge_edge_counted|done].
Qed.

(** The [size_t] variables of the source are natural numbers in the
    embedding.  When the number of pixels is at most [B], no such variable
    exceeds [B * B] at any point of the sweep: with the pixel count held in
    an [int], every value stays below [2^62]. *)
Lemma counters_in_range std_sort DIM aff gt pos (g0 : View Q) (k B : nat) :
  permutes std_sort -> valid_arrays DIM aff gt ->
  shape aff = DIM :: shape gt -> shape g0 = shape aff -> size gt <= B ->
  let s := scan DIM gt in
  let st := sweep DIM aff gt pos g0 (take k (pqueue_of std_sort aff)) in
  sc_numberOfLabeledNodes s <= B /\
  sc_numberOfLabeledNodes s * (sc_numberOfLabeledNodes s - 1) <= B * B /\
  sc_nPairPos s <= B * B /\ nPairNorm_of pos s <= B * B /\
  (forall l, LabelMap.at_ l (sc_segmentSizes s) <= B) /\
  (forall i l, LabelMap.at_ l (overlaps st !!! i) <= B) /\
  nPairIncorrect st <= nPairCounted st /\ nPairCounted st <= B * B.
Proof.
  intros Hperm Hvalid Hshape Hg0 HB s st.
  pose proof Hvalid as (_ & Hd & _ & Hwf).
  pose proof (pqueue_of_bounded std_sort aff Hperm) as Hb.
  destruct (scan_inv_final DIM gt Hd Hwf) as (_ & _ & Hok & Hnum & Hpairs & Hcnt).
  fold s in Hok, Hnum, Hpairs, Hcnt.
  assert (sc_numberOfLabeledNodes s <= size gt) as HT.
  { subst s. rewrite scan_as_fold by done.
    etransitivity; [apply scan_labeled_le|]. simpl. unfold well_formed in Hwf. lia. }
  pose proof (squares_le_total_sq (sc_segmentSizes s)) as Hsq.
  pose proof (half_pairs (sc_numberOfLabeledNodes s)) as Hhalf.
  set (T := sc_numberOfLabeledNodes s) in *.
  assert (T * (T - 1) <= B * B) as HTT by nia.
  assert (sc_nPairPos s <= B * B) as HP by nia.
  assert (nPairNorm_of pos s <= B * B) as Hnorm.
  { unfold nPairNorm_of. fold T. destruct pos; [done|]. nia. }
  assert (forall l, LabelMap.at_ l (sc_segmentSizes s) <= B) as Hseg.
  { intros l. rewrite Hcnt. etransitivity; [|exact HB].
    unfold well_formed in Hwf. rewrite <- Hwf. clear.
    induction (data gt) as [|x xs IH]; [done|]. csimpl.
    assert (LabelMap.at_ l (bag_of x) <= 1); [|lia].
    unfold bag_of. destruct (x =? 0)%Z; [rewrite at_nil; lia|].
    rewrite at_cons, at_nil. destruct (x =? l)%Z; lia. }
  destruct (sweep_invariant DIM aff gt pos g0 Hvalid Hshape Hg0
              (take k (pqueue_of std_sort aff))) as [_ _ _ _ Hcons _ Hinc];
    [by apply Forall_take|]. fold s st in Hcons, Hinc.
  split; [lia|]. split; [done|]. split; [done|]. split; [done|]. split; [done|].
  split; [|split; [done|]].
  - intros i l. etransitivity; [|apply (Hseg l)]. rewrite <- Hcons.
    by apply (lookup_total_le_sum (LabelMap.at_ l)).
  - etransitivity; [|exact Hnorm]. subst s st.
    rewrite <- (counted_pairs_final DIM aff gt pos g0 Hvalid Hshape Hg0
                  (pqueue_of std_sort aff)) by (by apply pqueue_of_permutation).
    unfold sweep.
    rewrite <- (take_drop k (pqueue_of std_sort aff)) at 2.
    rewrite foldl_app. apply sweep_counted_mono.
Qed.

End CounterRange.

(** * The properties of the specification *)

(** ** The concrete scenario *)

Lemma example_pqueue std_sort :
  permutes std_sort -> sorts_by std_sort ->
  pqueue_of std_sort example_aff = [1; 3; 0; 2].
Proof.
  intros Hperm Hsort. unfold pqueue_of.
  set (cmp := fun ind1 ind2 => Qgtb (flat example_aff ind1) (flat example_aff ind2)).
  change (seq 0 (size example_aff)) with [0; 1; 2; 3].
  apply (StronglySorted_unique_strong (fun x y => cmp y x = false)).
  - intros x1 x2 H1 H2. rewrite (Hperm cmp [0; 1; 2; 3]) in H1.
    repeat (apply elem_of_cons in H1 as [->|H1]); [| | | |by apply elem_of_nil in H1];
      repeat (apply elem_of_cons in H2 as [->|H2]); try (by apply elem_of_nil in H2);
      vm_compute; congruence.
  - apply Hsort, edge_order_strict_weak.
  - repeat constructor.
  - rewrite (Hperm cmp [0; 1; 2; 3]).
    apply (bool_decide_unpack _). by vm_compute.
Qed.

(** C1. In the one-dimensional instance with ground truth [1,1,2,2] and
    affinities [0.5, 0.9, 0.1, 0.8], the positive pass on a zeroed gradient
    array returns the loss 0.025, the gradient [0, 0.05, 0, 0.1], the
    classification error 0 and the Rand index 1, whatever sorting routine
    is used. *)
Theorem concrete_scenario std_sort (l0 c0 r0 : Q) :
  permutes std_sort -> sorts_by std_sort ->
  exists o',
    compute_malis_gradient std_sort 1 example_aff example_gt true
      (mkOuts (filled [1; 4] 0%Q) l0 c0 r0) = Ok tt o' /\
    (lossOut o' == 25 # 1000)%Q /\
    Forall2 Qeq (data (gradientsOut o')) [0; 5 # 100; 0; 1 # 10]%Q /\
    (classificationErrorOut o' == 0)%Q /\
    (randIndexOut o' == 1)%Q.
Proof.
  intros Hperm Hsort. eexists. split.
  - unfold compute_malis_gradient, bind, gets. simpl gradientsOut.
    rewrite (example_pqueue std_sort Hperm Hsort). vm_compute. reflexivity.
  - simpl. split; [reflexivity|]. split; [|split; reflexivity].
    repeat constructor.
Qed.

Lemma concrete_scenario_witness :
  permutes insertion_sort /\ sorts_by insertion_sort /\
  exists o',
    compute_malis_gradient insertion_sort 1 example_aff example_gt true
      (mkOuts (filled [1; 4] 0%Q) 0%Q 0%Q 0%Q) = Ok tt o' /\
    (lossOut o' == 25 # 1000)%Q /\
    Forall2 Qeq (data (gradientsOut o')) [0; 5 # 100; 0; 1 # 10]%Q /\
    (classificationErrorOut o' == 0)%Q /\
    (randIndexOut o' == 1)%Q.
Proof.
  split; [exact insertion_sort_permutes|]. split; [exact insertion_sort_sorts|].
  exact (concrete_scenario insertion_sort 0%Q 0%Q 0%Q
           insertion_sort_permutes insertion_sort_sorts).
Defined.

(** ** Failures *)

Lemma scan_unlabeled DIM (gt : View Z) :
  dimension gt = DIM -> well_formed gt -> Forall (fun l => l = 0%Z) (data gt) ->
  sc_segmentSizes (scan DIM gt) = [] /\ sc_nPairPos (scan DIM gt) = 0 /\
  sc_numberOfLabeledNodes (scan DIM gt) = 0.
Proof.
  intros Hd Hwf Hzero.
  destruct (scan_inv_final DIM gt Hd Hwf) as (_ & _ & Hok & Hnum & Hpairs & Hcnt).
  assert (sc_segmentSizes (scan DIM gt) = []) as Hseg.
  { apply bag_ext; [done|split; [done|constructor]|]. intros k. rewrite Hcnt.
    clear -Hzero. induction Hzero as [|l ls -> _ IH]; [done|]. csimpl. by rewrite IH. }
  rewrite Hseg in *. unfold Bag.total, Bag.squares in *. simpl in *.
  split; [done|]. split; lia.
Qed.

(** C5. The positive pass on a ground truth whose labels are all zero
    throws the degenerate-normalization error: the shape checks pass, the
    scan finds no pair, and the exception leaves before the sweep has
    written any output. *)
Theorem unlabeled_ground_truth_is_degenerate std_sort DIM aff gt (o : Outs) :
  dimension gt = DIM -> well_formed gt ->
  shapes_agree DIM aff gt (gradientsOut o) ->
  Forall (fun l => l = 0%Z) (data gt) ->
  nPairNorm_of true (scan DIM gt) = 0 /\
  compute_malis_gradient std_sort DIM aff gt true o = Throw DegenerateNormalization o.
Proof.
  intros Hd Hwf Hs Hzero.
  destruct (scan_unlabeled DIM gt Hd Hwf Hzero) as (_ & Hp & _).
  split; [done|].
  destruct (compute_malis_gradient_cases std_sort DIM aff gt true o)
    as [[Hn _]|[(_ & _ & Hr)|(_ & Hn & _)]]; [done|done|].
  simpl in Hn. lia.
Qed.

Lemma unlabeled_ground_truth_is_degenerate_witness :
  dimension unlabeled_gt = 1 /\ well_formed unlabeled_gt /\
  shapes_agree 1 example_aff unlabeled_gt (gradientsOut stale_outs) /\
  Forall (fun l => l = 0%Z) (data unlabeled_gt) /\
  nPairNorm_of true (scan 1 unlabeled_gt) = 0 /\
  compute_malis_gradient insertion_sort 1 example_aff unlabeled_gt true stale_outs
  = Throw DegenerateNormalization stale_outs.
Proof.
  assert (shapes_agree 1 example_aff unlabeled_gt (gradientsOut stale_outs)) as Hs.
  { split; [reflexivity|]. split; [reflexivity|].
    intros d Hd. assert (d = 0) as -> by lia. split; reflexivity. }
  assert (Forall (fun l => l = 0%Z) (data unlabeled_gt)) as Hz
    by (repeat constructor).
  split; [reflexivity|]. split; [reflexivity|]. split; [exact Hs|]. split; [exact Hz|].
  exact (unlabeled_ground_truth_is_degenerate insertion_sort 1 example_aff
           unlabeled_gt stale_outs eq_refl eq_refl Hs Hz).
Defined.

(** C6. When [compute_malis_gradient] throws, on a shape mismatch or on a
    normalizer that is not positive, the four output parameters hold what
    they held before the call; the shape error is decided by the shapes
    alone, before the scan. *)
Theorem failure_leaves_outputs std_sort DIM aff gt pos (o o' : Outs) (e : Error) :
  compute_malis_gradient std_sort DIM aff gt pos o = Throw e o' ->
  o' = o /\
  (e = ShapeMismatch /\ ~ shapes_agree DIM aff gt (gradientsOut o) \/
   e = DegenerateNormalization /\ shapes_agree DIM aff gt (gradientsOut o) /\
   nPairNorm_of pos (scan DIM gt) = 0).
Proof.
  intros Hrun.
  destruct (compute_malis_gradient_cases std_sort DIM aff gt pos o)
    as [[Hn Hr]|[(Hs & Hn & Hr)|(_ & _ & Hr)]];
    rewrite Hr in Hrun; [| |done]; injection Hrun as <- <-.
  - split; [done|]. by left.
  - split; [done|]. by right.
Qed.

Lemma failure_leaves_outputs_witness :
  compute_malis_gradient insertion_sort 1 example_aff unlabeled_gt true stale_outs
  = Throw DegenerateNormalization stale_outs /\
  stale_outs = stale_outs /\
  (DegenerateNormalization = ShapeMismatch /\
   ~ shapes_agree 1 example_aff unlabeled_gt (gradientsOut stale_outs) \/
   DegenerateNormalization = DegenerateNormalization /\
   shapes_agree 1 example_aff unlabeled_gt (gradientsOut stale_outs) /\
   nPairNorm_of true (scan 1 unlabeled_gt) = 0).
Proof.
  assert (compute_malis_gradient insertion_sort 1 example_aff unlabeled_gt true stale_outs
          = Throw DegenerateNormalization stale_outs) as Hrun
    by (vm_compute; reflexivity).
  split; [exact Hrun|].
  exact (failure_leaves_outputs insertion_sort 1 example_aff unlabeled_gt true
           stale_outs stale_outs DegenerateNormalization Hrun).
Defined.

(** ** Calls that return *)

(** What a returning call has established, in the terms of the lemmas on
    the sweep. *)
Lemma returning_call std_sort DIM aff gt pos (o o' : Outs) :
  permutes std_sort -> valid_arrays DIM aff gt ->
  dimension (gradientsOut o) = DIM + 1 ->
  compute_malis_gradient std_sort DIM aff gt pos o = Ok tt o' ->
  let norm := nPairNorm_of pos (scan DIM gt) in
  let st := sweep DIM aff gt pos (gradientsOut o) (pqueue_of std_sort aff) in
  shape aff = DIM :: shape gt /\ shape (gradientsOut o) = shape aff /\
  0 < norm /\ o' = outputs_of st norm /\
  nPairCounted st = norm /\ nPairIncorrect st <= norm.
Proof.
  intros Hperm Hvalid Hdg Hrun norm st.
  destruct (compute_malis_gradient_cases std_sort DIM aff gt pos o)
    as [[_ Hr]|[(_ & _ & Hr)|(Hs & Hn & Hr)]];
    rewrite Hr in Hrun; [done|done|]. injection Hrun as <-.
  destruct (shapes_agree_shape DIM aff gt (gradientsOut o) Hvalid Hdg Hs) as [Ha Hg].
  assert (nPairCounted st = norm) as Hc.
  { apply counted_pairs_final; [done|done|done|]. by apply pqueue_of_permutation. }
  split; [done|]. split; [done|]. split; [done|]. split; [done|]. split; [done|].
  rewrite <- Hc. apply incorrect_le_counted; [done|done|done|].
  by apply pqueue_of_bounded.
Qed.

(** C3. After a returning call the [nPair] values that reached the branch
    of the polarity add up to the normalizer: [nPairPos] for the positive
    pass and [nPairTot - nPairPos] for the negative pass, where [nPairPos]
    is the number of pairs of pixels with the same non-zero label and
    [nPairTot] the number of pairs of labeled pixels. *)
Theorem normalization_invariant std_sort DIM aff gt pos (o o' : Outs) :
  permutes std_sort -> valid_arrays DIM aff gt ->
  dimension (gradientsOut o) = DIM + 1 ->
  compute_malis_gradient std_sort DIM aff gt pos o = Ok tt o' ->
  let s := scan DIM gt in
  let nPairTot := (sc_numberOfLabeledNodes s * (sc_numberOfLabeledNodes s - 1)) / 2 in
  nPairCounted (sweep DIM aff gt pos (gradientsOut o) (pqueue_of std_sort aff))
  = (if pos then sc_nPairPos s else nPairTot - sc_nPairPos s) /\
  sc_nPairPos s = same_label_pairs (data gt) /\
  sc_numberOfLabeledNodes s = length (filter (fun x => x <> 0%Z) (data gt)).
Proof.
  intros Hperm Hvalid Hdg Hrun s nPairTot.
  destruct (returning_call std_sort DIM aff gt pos o o' Hperm Hvalid Hdg Hrun)
    as (_ & _ & _ & _ & Hc & _).
  destruct Hvalid as (_ & Hd & _ & Hwf).
  split; [|by apply scan_counters]. rewrite Hc. by destruct pos.
Qed.

Lemma example_valid_arrays : valid_arrays 1 example_aff example_gt.
Proof. repeat split. Qed.

Lemma normalization_invariant_witness :
  permutes insertion_sort /\ valid_arrays 1 example_aff example_gt /\
  dimension (gradientsOut example_outs) = 1 + 1 /\
  nPairCounted (sweep 1 example_aff example_gt false (gradientsOut example_outs)
                      (pqueue_of insertion_sort example_aff))
  = (sc_numberOfLabeledNodes (scan 1 example_gt)
     * (sc_numberOfLabeledNodes (scan 1 example_gt) - 1)) / 2
    - sc_nPairPos (scan 1 example_gt).
Proof.
  split; [exact insertion_sort_permutes|]. split; [exact example_valid_arrays|].
  split; [reflexivity|].
  assert (compute_malis_gradient insertion_sort 1 example_aff example_gt false example_outs
          = Ok tt (outs_after (compute_malis_gradient insertion_sort 1 example_aff
                                 example_gt false example_outs))) as Hrun
    by (vm_compute; reflexivity).
  exact (proj1 (normalization_invariant insertion_sort 1 example_aff example_gt false
                  example_outs _ insertion_sort_permutes example_valid_arrays
                  eq_refl Hrun)).
Defined.

Lemma Q_of_nat_le a b : a <= b -> (Q_of_nat a <= Q_of_nat b)%Q.
Proof. intros H. unfold Q_of_nat. rewrite <- Zle_Qle. lia. Qed.

Lemma Q_of_nat_pos a : 0 < a -> (0 < Q_of_nat a)%Q.
Proof. intros H. unfold Q_of_nat. change 0%Q with (inject_Z 0). rewrite <- Zlt_Qlt. lia. Qed.

Lemma fraction_in_unit_interval a b :
  a <= b -> 0 < b -> (0 <= Q_of_nat a / Q_of_nat b <= 1)%Q.
Proof.
  intros Hab Hb. pose proof (Q_of_nat_pos b Hb) as Hbq.
  pose proof (Q_of_nat_le a b Hab) as Hle.
  pose proof (Q_of_nat_le 0 a ltac:(lia)) as H0. change (Q_of_nat 0) with 0%Q in H0.
  split.
  - apply Qle_shift_div_l; [done|]. lra.
  - apply Qle_shift_div_r; [done|]. lra.
Qed.

(** C7. After a returning call the classification error and the Rand
    index lie between 0 and 1, and the Rand index is one minus the
    classification error. *)
Theorem metrics_in_range std_sort DIM aff gt pos (o o' : Outs) :
  permutes std_sort -> valid_arrays DIM aff gt ->
  dimension (gradientsOut o) = DIM + 1 ->
  compute_malis_gradient std_sort DIM aff gt pos o = Ok tt o' ->
  (0 <= classificationErrorOut o' <= 1)%Q /\
  (0 <= randIndexOut o' <= 1)%Q /\
  randIndexOut o' = (1 - classificationErrorOut o')%Q.
Proof.
  intros Hperm Hvalid Hdg Hrun.
  destruct (returning_call std_sort DIM aff gt pos o o' Hperm Hvalid Hdg Hrun)
    as (_ & _ & Hn & -> & _ & Hinc).
  simpl. pose proof (fraction_in_unit_interval _ _ Hinc Hn) as [H0 H1].
  split; [done|]. split; [split; lra|done].
Qed.

Lemma metrics_in_range_witness :
  permutes insertion_sort /\ valid_arrays 1 example_aff example_gt /\
  dimension (gradientsOut example_outs) = 1 + 1 /\
  let o' := outs_after (compute_malis_gradient insertion_sort 1 example_aff
                          example_gt true example_outs) in
  (0 <= classificationErrorOut o' <= 1)%Q /\
  (0 <= randIndexOut o' <= 1)%Q /\
  randIndexOut o' = (1 - classificationErrorOut o')%Q.
Proof.
  split; [exact insertion_sort_permutes|]. split; [exact example_valid_arrays|].
  split; [reflexivity|].
  assert (compute_malis_gradient insertion_sort 1 example_aff example_gt true example_outs
          = Ok tt (outs_after (compute_malis_gradient insertion_sort 1 example_aff
                                 example_gt true example_outs))) as Hrun
    by (vm_compute; reflexivity).
  exact (metrics_in_range insertion_sort 1 example_aff example_gt true
           example_outs _ insertion_sort_permutes example_valid_arrays eq_refl Hrun).
Defined.

(** ** Invalid edges *)

Lemma foldl_skip {A} (f : A -> nat -> A) (e : nat) (queue : list nat) :
  (forall a, f a e = a) ->
  forall a, foldl f a queue = foldl f a (filter (fun x => x <> e) queue).
Proof.
  intros Hskip. induction queue as [|x queue IH]; intros a; [done|].
  destruct (decide (x = e)) as [->|Hne].
  - rewrite filter_cons_False by (intros H; by apply H). simpl. by rewrite Hskip.
  - rewrite filter_cons_True by done. simpl. apply IH.
Qed.

Lemma invalid_edge_by_shape DIM (aff aff' : View Q) e :
  shape aff' = shape aff -> invalid_edge DIM aff e -> invalid_edge DIM aff' e.
Proof.
  intros Hs. unfold invalid_edge, affCoord_of, strides. by rewrite Hs.
Qed.

(** C4. An edge whose coordinate along its own axis is 0 is skipped: its
    iteration changes no variable of the sweep, with or without it in the
    queue the sweep ends in the same state, and its slot of the gradient
    array holds after the call what it held before, whatever the
    affinities are. *)
Theorem invalid_edge_is_skipped std_sort DIM aff gt pos (o : Outs) (e : nat) :
  permutes std_sort -> valid_arrays DIM aff gt ->
  dimension (gradientsOut o) = DIM + 1 ->
  e < size aff -> invalid_edge DIM aff e ->
  (forall aff', shape aff' = shape aff -> invalid_edge DIM aff' e) /\
  (forall norm st, sweep_body DIM aff gt pos norm st e = st) /\
  (forall g0 queue,
     sweep DIM aff gt pos g0 queue
     = sweep DIM aff gt pos g0 (filter (fun x => x <> e) queue)) /\
  data (gradientsOut (outs_after (compute_malis_gradient std_sort DIM aff gt pos o))) !! e
  = data (gradientsOut o) !! e.
Proof.
  intros Hperm Hvalid Hdg He Hinv.
  split; [intros aff' Hs; by apply (invalid_edge_by_shape DIM aff)|].
  split; [intros norm st; by apply sweep_body_invalid|].
  assert (forall g0 queue,
            sweep DIM aff gt pos g0 queue
            = sweep DIM aff gt pos g0 (filter (fun x => x <> e) queue)) as Hskip.
  { intros g0 queue. unfold sweep. apply foldl_skip.
    intros st. by apply sweep_body_invalid. }
  split; [done|].
  destruct (compute_malis_gradient_cases std_sort DIM aff gt pos o)
    as [[_ Hr]|[(_ & _ & Hr)|(Hs & Hn & Hr)]]; rewrite Hr; [done|done|].
  simpl. rewrite Hskip.
  destruct (shapes_agree_shape DIM aff gt (gradientsOut o) Hvalid Hdg Hs) as [Ha Hg].
  pose proof Hvalid as (_ & Hd & _ & Hwf). unfold sweep.
  destruct (sweep_fold DIM aff gt pos (nPairNorm_of pos (scan DIM gt)) Ha Hd
              (sc_segmentSizes (scan DIM gt))
              (filter (fun x => x <> e) (pqueue_of std_sort aff))
              (sweep_start DIM gt (gradientsOut o)))
    as (_ & _ & _ & _ & _ & Hframe).
  - apply Forall_forall. intros x Hx. apply list_elem_of_filter in Hx as [_ Hx].
    pose proof (pqueue_of_bounded std_sort aff Hperm) as Hb.
    rewrite Forall_forall in Hb. by apply Hb.
  - by apply sweep_start_inv.
  - done.
  - apply Hframe. intros Hx. apply list_elem_of_filter in Hx as [Hx _]. by apply Hx.
Qed.

Lemma invalid_edge_is_skipped_witness :
  permutes insertion_sort /\ valid_arrays 1 example_aff example_gt /\
  dimension (gradientsOut stale_outs) = 1 + 1 /\
  0 < size example_aff /\ invalid_edge 1 example_aff 0 /\
  data (gradientsOut (outs_after
          (compute_malis_gradient insertion_sort 1 example_aff example_gt true stale_outs))) !! 0
  = data (gradientsOut stale_outs) !! 0.
Proof.
  split; [exact insertion_sort_permutes|]. split; [exact example_valid_arrays|].
  split; [reflexivity|].
  assert (0 < size example_aff) as He by (vm_compute; lia).
  assert (invalid_edge 1 example_aff 0) as Hinv by reflexivity.
  split; [exact He|]. split; [exact Hinv|].
  exact (proj2 (proj2 (proj2
           (invalid_edge_is_skipped insertion_sort 1 example_aff example_gt true
              stale_outs 0 insertion_sort_permutes example_valid_arrays eq_refl
              He Hinv)))).
Defined.

(** ** Conservation of the label counts *)

Lemma sum_list_with_seq {A} `{Inhabited A} (f : A -> nat) (l : list A) :
  sum_list_with f l = sum_list ((fun i => f (l !!! i)) <$> seq 0 (length l)).
Proof.
  induction l as [|x l IH]; [done|]. simpl length.
  rewrite <- cons_seq, fmap_cons, <- fmap_S_seq, <- list_fmap_compose.
  simpl. by rewrite IH.
Qed.

Lemma sum_list_fmap_ext {A} (f g : A -> nat) (l : list A) :
  (forall x, x ∈ l -> f x = g x) -> sum_list (f <$> l) = sum_list (g <$> l).
Proof.
  induction l as [|x l IH]; intros Hfg; [done|]. csimpl.
  rewrite Hfg by left. rewrite IH; [done|]. intros y Hy. apply Hfg. by right.
Qed.

Lemma representative_sum_all n seg pos st l :
  sweep_inv n seg pos st ->
  representative_sum n st l = LabelMap.at_ l seg.
Proof.
  intros [Hwf Hlen Hok Hnon Hcons Hpot Hinc].
  rewrite <- Hcons, sum_list_with_seq, Hlen. unfold representative_sum.
  apply sum_list_fmap_ext. intros i Hi. apply elem_of_seq in Hi.
  destruct (Nat.eqb_spec (find (sets st) i) i) as [|Hne]; [done|].
  rewrite Hnon; [done|lia|done].
Qed.

Lemma segment_sizes_count DIM (gt : View Z) l :
  dimension gt = DIM -> well_formed gt -> l <> 0%Z ->
  LabelMap.at_ l (sc_segmentSizes (scan DIM gt)) = pixels_labeled gt l.
Proof.
  intros Hd Hwf Hl.
  destruct (scan_inv_final DIM gt Hd Hwf) as (_ & _ & _ & _ & _ & Hcnt).
  rewrite Hcnt. by apply count_bags.
Qed.

(** The bags after an iteration that merges two sets. *)
Lemma merge_edge_result n aff pos norm c nodeU nodeV st :
  ufd_wf n (sets st) -> nodeU < n -> nodeV < n ->
  find (sets st) nodeU <> find (sets st) nodeV ->
  let setU := find (sets st) nodeU in
  let setV := find (sets st) nodeV in
  let st' := merge_edge aff pos norm c nodeU nodeV st in
  exists w x, w < n /\ x < n /\ w <> x /\
    (w = setU /\ x = setV \/ w = setV /\ x = setU) /\
    find (sets st') w = w /\ find (sets st') x = w /\
    overlaps st' = <[x := LabelMap.empty]>
                     (<[w := foldl LabelMap.absorb_entry (overlaps st !!! w)
                                   (overlaps st !!! x)]> (overlaps st)).
Proof.
  intros Hwf HU HV Hne setU setV. unfold merge_edge. fold setU setV.
  destruct (Nat.eqb_spec setU setV) as [|_]; [done|]. simpl negb. cbv iota.
  destruct Hwf as [Hpl Hfind].
  destruct (Hfind nodeU HU) as [HsU HrU]. destruct (Hfind nodeV HV) as [HsV HrV].
  fold setU in HsU, HrU. fold setV in HsV, HrV.
  destruct (merge_roots n (sets st) setU setV) as [Hwf' Hfind']; try done.
  set (sets1 := merge (sets st) setU setV) in *.
  match goal with |- context [count_pairs pos aff c ?U ?V ?s0] =>
    pose proof (count_pairs_step pos aff c U V s0) as Hstep;
    set (st1 := count_pairs pos aff c U V s0) in *
  end.
  destruct Hstep as [S1 S2 _ _ _ _ _ _]. simpl in S1, S2.
  destruct Hfind' as [Hf|Hf].
  - exists setU, setV.
    assert (find sets1 setU = setU) as HfU.
    { rewrite Hf by done. rewrite HrU. by destruct (Nat.eqb_spec setU setV). }
    rewrite HfU. destruct (Nat.eqb_spec setU setV) as [|_]; [done|]. simpl.
    split; [done|]. split; [done|]. split; [done|]. split; [by left|].
    split; [done|]. split; [|by rewrite S2].
    rewrite Hf by done. by rewrite HrV, Nat.eqb_refl.
  - exists setV, setU.
    assert (find sets1 setU = setV) as HfU.
    { rewrite Hf by done. by rewrite HrU, Nat.eqb_refl. }
    rewrite HfU, Nat.eqb_refl. simpl.
    split; [done|]. split; [done|].
    split; [intros E; apply Hne; symmetry; exact E|]. split; [by right|].
    split; [|split; [done|by rewrite S2]].
    rewrite Hf by done. rewrite HrV. by destruct (Nat.eqb_spec setV setU).
Qed.

(** C9. At every point of the sweep, for every label the entries of the
    representatives add up to the number of pixels with that label, and
    the nodes that are not representatives have empty overlap maps; an
    iteration that merges two sets leaves in the map of the surviving
    representative the sum of the two maps and empties the other map. *)
Theorem label_counts_are_conserved std_sort DIM aff gt pos (g0 : View Q) (k : nat) :
  permutes std_sort -> valid_arrays DIM aff gt ->
  dimension g0 = DIM + 1 -> shapes_agree DIM aff gt g0 ->
  let n := size gt in
  let st := sweep DIM aff gt pos g0 (take k (pqueue_of std_sort aff)) in
  (forall l, l <> 0%Z ->
     representative_sum n st l = LabelMap.at_ l (sc_segmentSizes (scan DIM gt)) /\
     LabelMap.at_ l (sc_segmentSizes (scan DIM gt)) = pixels_labeled gt l) /\
  (forall i, i < n -> find (sets st) i <> i -> overlaps st !!! i = LabelMap.empty) /\
  (forall e, pqueue_of std_sort aff !! k = Some e ->
     edge_valid DIM aff e = true ->
     let setU := find (sets st) (nodeU_of DIM aff gt e) in
     let setV := find (sets st) (nodeV_of DIM aff gt e) in
     setU <> setV ->
     let st' := sweep DIM aff gt pos g0 (take (S k) (pqueue_of std_sort aff)) in
     exists w x,
       (w = setU /\ x = setV \/ w = setV /\ x = setU) /\
       find (sets st') w = w /\ find (sets st') x = w /\
       (forall l, LabelMap.at_ l (overlaps st' !!! w)
                  = LabelMap.at_ l (overlaps st !!! setU)
                    + LabelMap.at_ l (overlaps st !!! setV)) /\
       overlaps st' !!! x = LabelMap.empty).
Proof.
  intros Hperm Hvalid Hdg Hs n st.
  destruct (shapes_agree_shape DIM aff gt g0 Hvalid Hdg Hs) as [Ha Hg].
  pose proof Hvalid as (_ & Hd & _ & Hwf).
  pose proof (pqueue_of_bounded std_sort aff Hperm) as Hb.
  assert (sweep_inv n (sc_segmentSizes (scan DIM gt)) pos st) as Hinv.
  { apply sweep_invariant; [done|done|done|]. by apply Forall_take. }
  split; [|split].
  - intros l Hl. split; [by apply (representative_sum_all n _ pos)|].
    by apply segment_sizes_count.
  - apply Hinv.
  - intros e Hk Hv setU setV Hne st'.
    assert (st' = sweep_body DIM aff gt pos (nPairNorm_of pos (scan DIM gt)) st e) as ->.
    { subst st' st. unfold sweep. by rewrite (take_S_r _ _ _ Hk), foldl_snoc. }
    rewrite sweep_body_unfold, Hv.
    assert (e < size aff) as He.
    { rewrite Forall_forall in Hb. apply Hb. by eapply list_elem_of_lookup_2. }
    destruct (valid_edge_nodes DIM aff gt Ha Hd e He Hv) as (_ & HU & HV).
    destruct (merge_edge_result n aff pos (nPairNorm_of pos (scan DIM gt))
                (affCoord_of DIM aff e) (nodeU_of DIM aff gt e)
                (nodeV_of DIM aff gt e) st)
      as (w & x & Hw & Hx & Hwx & Hcase & Hfw & Hfx & Hov);
      [apply Hinv|done|lia|done|].
    exists w, x. split; [done|]. split; [done|]. split; [done|].
    destruct Hinv as [_ Hlen Hok _ _ _ _].
    rewrite Hov. split.
    + intros l. rewrite list_lookup_total_insert_ne by done.
      rewrite list_lookup_total_insert_eq by lia.
      destruct (Forall_lookup_total_1 _ _ w Hok ltac:(lia)) as [Hsw _].
      destruct (Forall_lookup_total_1 _ _ x Hok ltac:(lia)) as [Hsx _].
      destruct (absorb_fold (overlaps st !!! x) (overlaps st !!! w) Hsw Hsx)
        as (_ & _ & A3 & _). rewrite A3.
      fold setU setV in Hcase. destruct Hcase as [[-> ->]|[-> ->]]; lia.
    + rewrite list_lookup_total_insert_eq; [done|]. rewrite length_insert. lia.
Qed.

Lemma example_shapes_agree :
  shapes_agree 1 example_aff example_gt (gradientsOut example_outs).
Proof.
  split; [reflexivity|]. split; [reflexivity|].
  intros d Hd. assert (d = 0) as -> by lia. split; reflexivity.
Qed.

Lemma label_counts_are_conserved_witness :
  permutes insertion_sort /\ valid_arrays 1 example_aff example_gt /\
  dimension (gradientsOut example_outs) = 1 + 1 /\
  shapes_agree 1 example_aff example_gt (gradientsOut example_outs) /\
  let st := sweep 1 example_aff example_gt true (gradientsOut example_outs)
                  (take 2 (pqueue_of insertion_sort example_aff)) in
  forall l, l <> 0%Z ->
    representative_sum (size example_gt) st l
    = LabelMap.at_ l (sc_segmentSizes (scan 1 example_gt)) /\
    LabelMap.at_ l (sc_segmentSizes (scan 1 example_gt)) = pixels_labeled example_gt l.
Proof.
  split; [exact insertion_sort_permutes|]. split; [exact example_valid_arrays|].
  split; [reflexivity|]. split; [exact example_shapes_agree|].
  exact (proj1 (label_counts_are_conserved insertion_sort 1 example_aff example_gt true
                  (gradientsOut example_outs) 2 insertion_sort_permutes
                  example_valid_arrays eq_refl example_shapes_agree)).
Defined.

(** ** The derived affinity arrays *)

Section DerivedViews.

Variable indeterminate : nat -> Q.

Lemma views_body_stored DIM aff gt (views : View Q * View Q) c :
  views_body DIM aff gt views c
  = (set views.1 c (stored_values DIM aff gt c).1,
     set views.2 c (stored_values DIM aff gt c).2).
Proof.
  unfold views_body, stored_values.
  destruct (0 <? _); [|done]. by destruct (_ || _).
Qed.

Lemma affShape_of_shape DIM (aff : View Q) :
  dimension aff = DIM + 1 -> affShape_of DIM aff = shape aff.
Proof.
  unfold dimension, affShape_of, shape_at. intros <-.
  apply list_eq. intros i. rewrite list_lookup_fmap.
  destruct (decide (i < length (shape aff))) as [Hi|Hi].
  - rewrite lookup_seq_lt by done. simpl.
    destruct (lookup_lt_is_Some_2 (shape aff) i) as [y Hy]; [lia|].
    rewrite Hy. f_equal. by apply list_lookup_total_correct.
  - rewrite lookup_seq_ge by lia. simpl. symmetry. apply lookup_ge_None. lia.
Qed.

(** A loop that stores [f k] at the coordinate of every position [k] of a
    queue leaves [f e] at every position [e] of the queue. *)
Lemma store_loop shp (f : list nat -> Q * Q) (ks : list nat) (P N : View Q) :
  shape P = shp -> shape N = shp ->
  length (data P) = product shp -> length (data N) = product shp ->
  Forall (fun k => k < product shp) ks ->
  let views := foldl (fun views c => (set views.1 c (f c).1, set views.2 c (f c).2))
                     (P, N) (coordinate_of shp <$> ks) in
  shape views.1 = shp /\ shape views.2 = shp /\
  length (data views.1) = product shp /\ length (data views.2) = product shp /\
  forall e, e ∈ ks ->
    data views.1 !! e = Some (f (coordinate_of shp e)).1 /\
    data views.2 !! e = Some (f (coordinate_of shp e)).2.
Proof.
  intros HP HN HlP HlN. induction ks as [|k ks IH] using rev_ind; intros Hks.
  - simpl. repeat split; try done; by apply elem_of_nil in H.
  - apply Forall_app in Hks as [Hks Hk]. rewrite Forall_singleton in Hk.
    rewrite fmap_app, foldl_app. simpl.
    destruct (IH Hks) as (I1 & I2 & I3 & I4 & I5). clear IH.
    set (views := foldl _ (P, N) (coordinate_of shp <$> ks)) in *.
    assert (offset views.1 (coordinate_of shp k) = k) as O1.
    { unfold offset. rewrite I1. by apply offset_coordinate_of. }
    assert (offset views.2 (coordinate_of shp k) = k) as O2.
    { unfold offset. rewrite I2. by apply offset_coordinate_of. }
    rewrite O1, O2, !length_insert.
    split; [done|]. split; [done|]. split; [done|]. split; [done|].
    intros e He. apply elem_of_app in He as [He|He].
    + destruct (decide (e = k)) as [->|Hne].
      * rewrite !list_lookup_insert_eq by lia. done.
      * rewrite !list_lookup_insert_ne by done. by apply I5.
    + apply list_elem_of_singleton in He as ->.
      rewrite !list_lookup_insert_eq by lia. done.
Qed.

Lemma derived_views_stored DIM aff gt e :
  dimension aff = DIM + 1 -> e < size aff ->
  let views := derived_views indeterminate DIM aff gt in
  shape views.1 = shape aff /\ shape views.2 = shape aff /\
  length (data views.1) = size aff /\ length (data views.2) = size aff /\
  data views.1 !! e = Some (stored_values DIM aff gt (coordinate_of (shape aff) e)).1 /\
  data views.2 !! e = Some (stored_values DIM aff gt (coordinate_of (shape aff) e)).2.
Proof.
  intros Hd He. unfold derived_views, forEachCoordinate.
  rewrite affShape_of_shape by done.
  rewrite (foldl_ext_in _ (fun views c =>
            (set views.1 c (stored_values DIM aff gt c).1,
             set views.2 c (stored_values DIM aff gt c).2)))
    by (intros; apply views_body_stored).
  destruct (store_loop (shape aff) (stored_values DIM aff gt) (seq 0 (product (shape aff)))
              (uninitialized indeterminate (shape aff))
              (uninitialized indeterminate (shape aff)))
    as (H1 & H2 & H3 & H4 & H5); try done.
  - simpl. by rewrite length_fmap, length_seq.
  - simpl. by rewrite length_fmap, length_seq.
  - apply Forall_forall. intros k Hk. apply elem_of_seq in Hk. lia.
  - split; [done|]. split; [done|]. split; [done|]. split; [done|].
    apply H5. apply elem_of_seq. unfold size in He. lia.
Qed.

End DerivedViews.

(** C8. For every edge, the positive array holds 0 and the negative array
    the raw affinity when the edge is invalid, when the labels of its two
    end points differ, or when one of them is 0; otherwise the positive
    array holds the raw affinity and the negative array holds 1. *)
Theorem derived_views_per_edge (indeterminate : nat -> Q) DIM aff gt (e : nat) :
  valid_arrays DIM aff gt -> shape aff = DIM :: shape gt -> e < size aff ->
  let views := derived_views indeterminate DIM aff gt in
  let affCoord := affCoord_of DIM aff e in
  let labelU := get gt (gtCoordU_of DIM aff e) in
  let labelV := get gt (gtCoordV_of DIM aff e) in
  (edge_valid DIM aff e = false \/ labelU <> labelV \/ labelU = 0%Z \/ labelV = 0%Z ->
     get views.1 affCoord = 0%Q /\ get views.2 affCoord = get aff affCoord) /\
  (edge_valid DIM aff e = true /\ labelU = labelV /\ labelU <> 0%Z ->
     get views.1 affCoord = get aff affCoord /\ get views.2 affCoord = 1%Q).
Proof.
  intros (Hda & Hdg & _ & _) Hshape He views affCoord labelU labelV.
  destruct (derived_views_stored indeterminate DIM aff gt e Hda He)
    as (H1 & H2 & _ & _ & H5 & H6). fold views in H1, H2, H5, H6.
  rewrite <- (affCoord_of_coordinate DIM aff gt Hshape Hdg) in H5, H6.
  fold affCoord in H5, H6.
  assert (get views.1 affCoord = (stored_values DIM aff gt affCoord).1) as ->.
  { unfold get. subst affCoord. rewrite (offset_affCoord DIM aff gt Hshape Hdg) by done.
    by apply list_lookup_total_correct. }
  assert (get views.2 affCoord = (stored_values DIM aff gt affCoord).2) as ->.
  { unfold get. subst affCoord. rewrite (offset_affCoord DIM aff gt Hshape Hdg) by done.
    by apply list_lookup_total_correct. }
  unfold stored_values.
  change (0 <? ((fun d => affCoord !!! d) <$> seq 1 DIM) !!! (affCoord !!! 0))
    with (edge_valid DIM aff e).
  change (get gt ((fun d => affCoord !!! d) <$> seq 1 DIM)) with labelU.
  change (get gt (<[affCoord !!! 0 :=
                    ((fun d => affCoord !!! d) <$> seq 1 DIM) !!! (affCoord !!! 0) - 1]>
                    ((fun d => affCoord !!! d) <$> seq 1 DIM))) with labelV.
  destruct (edge_valid DIM aff e).
  - destruct (Z.eqb_spec labelU labelV) as [Heq|Hne]; simpl.
    + destruct (Z.eqb_spec labelU 0) as [HU|HU]; simpl.
      * split; [done|]. intros (_ & _ & Hn). done.
      * destruct (Z.eqb_spec labelV 0) as [HV|HV]; simpl.
        -- split; [done|]. intros (_ & _ & Hn). congruence.
        -- split; [|done]. intros [?|[?|[?|?]]]; done.
    + split; [done|]. intros (_ & ? & _). done.
  - split; [done|]. intros (? & _). done.
Qed.

Lemma derived_views_per_edge_witness :
  valid_arrays 1 example_aff example_gt /\ shape example_aff = 1 :: shape example_gt /\
  1 < size example_aff /\
  let views := derived_views (fun _ => 9%Q) 1 example_aff example_gt in
  let affCoord := affCoord_of 1 example_aff 1 in
  get views.1 affCoord = get example_aff affCoord /\ get views.2 affCoord = 1%Q.
Proof.
  assert (1 < size example_aff) as He by (vm_compute; lia).
  split; [exact example_valid_arrays|]. split; [reflexivity|]. split; [exact He|].
  apply (proj2 (derived_views_per_edge (fun _ => 9%Q) 1 example_aff example_gt 1
                  example_valid_arrays eq_refl He)).
  split; [reflexivity|]. split; [reflexivity|]. intros H. discriminate H.
Defined.

(** ** The constrained entry point *)

Section Constrained.

Variable std_sort : (nat -> nat -> bool) -> list nat -> list nat.
Variable indeterminate : nat -> Q.

(** The scalars that the output parameters hold before a call have no
    part in how the call ends. *)
Lemma initial_scalars_irrelevant DIM aff gt pos g (l c r l' c' r' : Q) :
  (exists e,
     compute_malis_gradient std_sort DIM aff gt pos (mkOuts g l c r)
     = Throw e (mkOuts g l c r) /\
     compute_malis_gradient std_sort DIM aff gt pos (mkOuts g l' c' r')
     = Throw e (mkOuts g l' c' r')) \/
  (exists o',
     compute_malis_gradient std_sort DIM aff gt pos (mkOuts g l c r) = Ok tt o' /\
     compute_malis_gradient std_sort DIM aff gt pos (mkOuts g l' c' r') = Ok tt o').
Proof.
  destruct (compute_malis_gradient_cases std_sort DIM aff gt pos (mkOuts g l c r))
    as [[A1 A2]|[(A1 & A2 & A3)|(A1 & A2 & A3)]];
  destruct (compute_malis_gradient_cases std_sort DIM aff gt pos (mkOuts g l' c' r'))
    as [[B1 B2]|[(B1 & B2 & B3)|(B1 & B2 & B3)]]; simpl in *;
    try done; try lia.
  - left. by exists ShapeMismatch.
  - left. by exists DegenerateNormalization.
  - right. eexists. split; [exact A3|exact B3].
Qed.

Lemma zip_with_Qplus_comm (a b : list Q) :
  Forall2 Qeq (zip_with Qplus a b) (zip_with Qplus b a).
Proof.
  revert b. induction a as [|x a IH]; intros [|y b]; simpl; try constructor.
  - apply Qplus_comm.
  - apply IH.
Qed.

Lemma same_outcome_separate_calls DIM aff gt (scalars : Q) (o : ConstrainedOuts) :
  dimension aff = DIM + 1 ->
  same_outcome
    (compute_constrained_malis_gradient std_sort indeterminate DIM aff gt o)
    (constrained_by_separate_calls std_sort indeterminate DIM aff gt scalars o).
Proof.
  intros Hd. unfold compute_constrained_malis_gradient, constrained_by_separate_calls.
  rewrite affShape_of_shape by done.
  destruct (derived_views indeterminate DIM aff gt) as [viewP viewN]. simpl.
  unfold bind, call_local, modify.
  destruct (initial_scalars_irrelevant DIM viewP gt true (filled (shape aff) 0%Q)
              (indeterminate 0) (indeterminate 2) (indeterminate 1)
              scalars scalars scalars) as [(e & -> & ->)|(oP & -> & ->)];
    [done|].
  destruct (initial_scalars_irrelevant DIM viewN gt false (filled (shape aff) 0%Q)
              (indeterminate 3) (classificationErrorOut oP) (randIndexOut oP)
              scalars scalars scalars) as [(e & -> & ->)|(oN & -> & ->)];
    [done|].
  simpl. split; [done|]. split; [apply zip_with_Qplus_comm|reflexivity].
Qed.

End Constrained.

(** C2. Under the shape contract, the constrained entry point ends as the
    two separate calls do that the specification describes: when they
    return, its gradient is the element-wise sum of their two gradient
    arrays and its loss the mean of their two losses; and what it returns
    does not depend on what the caller's gradient array and loss held
    before the call. *)
Theorem constrained_decomposition std_sort (indeterminate : nat -> Q) DIM aff gt
    (scalars : Q) (o : ConstrainedOuts) :
  valid_arrays DIM aff gt -> shape aff = DIM :: shape gt ->
  same_outcome
    (compute_constrained_malis_gradient std_sort indeterminate DIM aff gt o)
    (constrained_by_separate_calls std_sort indeterminate DIM aff gt scalars o) /\
  forall o2 r1 r2,
    shape (c_gradientsOut o2) = shape (c_gradientsOut o) ->
    compute_constrained_malis_gradient std_sort indeterminate DIM aff gt o = Ok tt r1 ->
    compute_constrained_malis_gradient std_sort indeterminate DIM aff gt o2 = Ok tt r2 ->
    r1 = r2.
Proof.
  intros (Hd & _) _. split; [by apply same_outcome_separate_calls|].
  intros o2 r1 r2 Hs. unfold compute_constrained_malis_gradient.
  destruct (derived_views indeterminate DIM aff gt) as [viewP viewN].
  unfold bind, call_local, modify.
  destruct (compute_malis_gradient std_sort DIM viewP gt true _) as [[] oP|]; [|done].
  destruct (compute_malis_gradient std_sort DIM viewN gt false _) as [[] oN|]; [|done].
  simpl. rewrite Hs. congruence.
Qed.

Lemma constrained_decomposition_witness :
  valid_arrays 1 example_aff example_gt /\ shape example_aff = 1 :: shape example_gt /\
  same_outcome
    (compute_constrained_malis_gradient insertion_sort (fun _ => 9%Q) 1
       example_aff example_gt stale_constrained_outs)
    (constrained_by_separate_calls insertion_sort (fun _ => 9%Q) 1
       example_aff example_gt 0%Q stale_constrained_outs).
Proof.
  split; [exact example_valid_arrays|]. split; [reflexivity|].
  exact (proj1 (constrained_decomposition insertion_sort (fun _ => 9%Q) 1
                  example_aff example_gt 0%Q stale_constrained_outs
                  example_valid_arrays eq_refl)).
Defined.

(** ** A ground truth with a single segment *)

Lemma shapes_agree_intro DIM (aff : View Q) (gt : View Z) (grad : View Q) :
  dimension gt = DIM -> shape aff = DIM :: shape gt -> shape grad = shape aff ->
  shapes_agree DIM aff gt grad.
Proof.
  intros Hd Ha Hg. unfold shapes_agree, shape_at. rewrite Hg, Ha.
  split; [done|]. split; [done|]. intros d Hlt.
  rewrite Nat.add_1_r. done.
Qed.

Lemma scan_single_segment DIM (gt : View Z) (L : Z) :
  dimension gt = DIM -> well_formed gt -> L <> 0%Z ->
  Forall (fun x => x = 0%Z \/ x = L) (data gt) ->
  2 <= pixels_labeled gt L ->
  0 < nPairNorm_of true (scan DIM gt) /\ nPairNorm_of false (scan DIM gt) = 0.
Proof.
  intros Hd Hwf HL Hall Htwo.
  destruct (scan_inv_final DIM gt Hd Hwf) as (_ & _ & Hok & Hnum & Hpairs & Hcnt).
  assert (sc_segmentSizes (scan DIM gt) = [(L, pixels_labeled gt L)]) as Hseg.
  { apply bag_ext; [done| |].
    - split; [by split|]. constructor; [simpl; lia|constructor].
    - intros k. rewrite at_cons, at_nil.
      destruct (Z.eqb_spec L k) as [Heq|Hne];
        [subst k; by apply segment_sizes_count|].
      rewrite Hcnt. clear -Hall Hne HL.
      induction Hall as [|x xs Hx _ IH]; [done|]. csimpl. rewrite IH.
      unfold bag_of. destruct (Z.eqb_spec x 0); [done|].
      rewrite at_cons, at_nil. destruct Hx as [Hx|Hx]; [done|subst x].
      by destruct (Z.eqb_spec L k). }
  unfold nPairNorm_of. rewrite Hnum. rewrite Hseg in *.
  set (m := pixels_labeled gt L) in *.
  change (Bag.total [(L, m)]) with (m + 0) in *.
  change (Bag.squares [(L, m)]) with (m * m + 0) in *.
  rewrite !Nat.add_0_r in *.
  pose proof (half_pairs m) as Hhalf.
  assert (m * (m - 1) + m = m * m) as Hm by (destruct m; simpl; nia).
  split; nia.
Qed.

(** C10. On a ground truth whose labeled pixels all carry one label, and
    which has at least two of them, the positive pass of the constrained
    entry point returns, the negative pass throws the
    degenerate-normalization error, and the exception leaves the
    constrained entry point with the caller's output parameters as they
    were. *)
Theorem single_segment_is_degenerate std_sort (indeterminate : nat -> Q) DIM aff gt
    (L : Z) (o : ConstrainedOuts) :
  valid_arrays DIM aff gt -> shape aff = DIM :: shape gt ->
  L <> 0%Z -> Forall (fun x => x = 0%Z \/ x = L) (data gt) ->
  2 <= pixels_labeled gt L ->
  let views := derived_views indeterminate DIM aff gt in
  let zeroed := filled (affShape_of DIM aff) 0%Q in
  (exists outPos,
     compute_malis_gradient std_sort DIM views.1 gt true
       (mkOuts zeroed (indeterminate 0) (indeterminate 2) (indeterminate 1))
     = Ok tt outPos /\
     compute_malis_gradient std_sort DIM views.2 gt false
       (mkOuts zeroed (indeterminate 3) (classificationErrorOut outPos)
               (randIndexOut outPos))
     = Throw DegenerateNormalization
         (mkOuts zeroed (indeterminate 3) (classificationErrorOut outPos)
                 (randIndexOut outPos))) /\
  compute_constrained_malis_gradient std_sort indeterminate DIM aff gt o
  = Throw DegenerateNormalization o.
Proof.
  intros Hvalid Hshape HL Hall Htwo views zeroed.
  pose proof Hvalid as (Hda & Hdg & _ & Hwf).
  destruct (scan_single_segment DIM gt L Hdg Hwf HL Hall Htwo) as [Hpos Hneg].
  assert (shape views.1 = shape aff /\ shape views.2 = shape aff) as [Hv1 Hv2].
  { destruct (decide (0 < size aff)) as [He|He].
    - destruct (derived_views_stored indeterminate DIM aff gt 0 Hda He)
        as (H1 & H2 & _). done.
    - subst views. unfold derived_views, forEachCoordinate.
      rewrite affShape_of_shape by done. fold (size aff).
      assert (size aff = 0) as -> by lia. done. }
  assert (shape zeroed = shape aff) as Hz.
  { subst zeroed. simpl. by apply affShape_of_shape. }
  assert (exists outPos,
            compute_malis_gradient std_sort DIM views.1 gt true
              (mkOuts zeroed (indeterminate 0) (indeterminate 2) (indeterminate 1))
            = Ok tt outPos) as [outPos HP].
  { destruct (compute_malis_gradient_cases std_sort DIM views.1 gt true
                (mkOuts zeroed (indeterminate 0) (indeterminate 2) (indeterminate 1)))
      as [[A _]|[(_ & A & _)|(_ & _ & A)]]; cbn [gradientsOut] in *; cbv zeta in *.
    - exfalso. apply A. apply shapes_agree_intro; congruence.
    - lia.
    - by eexists. }
  assert (compute_malis_gradient std_sort DIM views.2 gt false
            (mkOuts zeroed (indeterminate 3) (classificationErrorOut outPos)
                    (randIndexOut outPos))
          = Throw DegenerateNormalization
              (mkOuts zeroed (indeterminate 3) (classificationErrorOut outPos)
                      (randIndexOut outPos))) as HN.
  { destruct (compute_malis_gradient_cases std_sort DIM views.2 gt false
                (mkOuts zeroed (indeterminate 3) (classificationErrorOut outPos)
                        (randIndexOut outPos)))
      as [[A _]|[(_ & _ & A)|(_ & A & _)]]; cbn [gradientsOut] in *; cbv zeta in *.
    - exfalso. apply A. apply shapes_agree_intro; congruence.
    - done.
    - lia. }
  split; [by exists outPos|].
  unfold compute_constrained_malis_gradient. fold views zeroed.
  destruct views as [viewP viewN]. simpl in HP, HN.
  unfold bind, call_local. by rewrite HP, HN.
Qed.

Lemma single_segment_is_degenerate_witness :
  valid_arrays 1 example_aff single_segment_gt /\
  shape example_aff = 1 :: shape single_segment_gt /\
  5%Z <> 0%Z /\ Forall (fun x => x = 0%Z \/ x = 5%Z) (data single_segment_gt) /\
  2 <= pixels_labeled single_segment_gt 5 /\
  compute_constrained_malis_gradient insertion_sort (fun _ => 9%Q) 1
    example_aff single_segment_gt stale_constrained_outs
  = Throw DegenerateNormalization stale_constrained_outs.
Proof.
  assert (valid_arrays 1 example_aff single_segment_gt) as Hv by (repeat split).
  assert (5%Z <> 0%Z) as HL by discriminate.
  assert (Forall (fun x => x = 0%Z \/ x = 5%Z) (data single_segment_gt)) as Hall.
  { repeat constructor; by right. }
  assert (2 <= pixels_labeled single_segment_gt 5) as Htwo by (vm_compute; lia).
  split; [exact Hv|]. split; [reflexivity|]. split; [exact HL|].
  split; [exact Hall|]. split; [exact Htwo|].
  exact (proj2 (single_segment_is_degenerate insertion_sort (fun _ => 9%Q) 1
                  example_aff single_segment_gt 5 stale_constrained_outs
                  Hv eq_refl HL Hall Htwo)).
Defined.

(** * Further properties of the code *)

(** ** Edges and their coordinates *)

Section EdgeCoordinates.

Lemma coordinate_of_bounded shp : forall k d,
  k < product shp -> d < length shp -> coordinate_of shp k !!! d < shp !!! d.
Proof.
  induction shp as [|s rest IH]; intros k d Hk Hd; simpl in Hd; [lia|].
  rewrite coordinate_of_cons. simpl in Hk.
  assert (0 < product rest) as Hp by (destruct (product rest); lia).
  destruct d as [|d]; simpl.
  - apply Nat.Div0.div_lt_upper_bound. lia.
  - apply IH; [|lia]. apply Nat.mod_upper_bound. lia.
Qed.

Lemma edge_nodes_stride DIM (aff : View Q) (gt : View Z) e :
  shape aff = DIM :: shape gt -> dimension gt = DIM ->
  e < size aff -> edge_valid DIM aff e = true ->
  axis_of DIM aff e < DIM /\ 0 < strides gt (axis_of DIM aff e) /\
  nodeV_of DIM aff gt e + strides gt (axis_of DIM aff e) = nodeU_of DIM aff gt e.
Proof.
  intros Hshape Hdim He Hv. unfold edge_valid in Hv. apply Nat.ltb_lt in Hv.
  destruct (edge_nodes DIM aff gt Hshape Hdim e He) as (Hax & HaxD & HcU & HU & Hlt & _).
  unfold nodeU_of, nodeV_of, gtCoordV_of, gtCoordU_of, axis_of, strides in *.
  cbv zeta. rewrite HU. rewrite HcU in *. clear HU HcU.
  set (a := affCoord_of DIM aff e !!! 0) in *.
  assert (length (coordinate_of (shape gt) (e mod size gt)) = DIM) as Hlen
    by (by rewrite length_coordinate_of).
  split; [done|]. split.
  - apply stride_positive; [fold (size gt); lia|unfold dimension in Hdim; lia].
  - rewrite node_of_offset by (try done; by rewrite length_insert).
    rewrite sum_zip_decrement; [by apply offset_coordinate_of|lia| |done].
    rewrite length_row_major_strides, Hlen. by unfold dimension in Hdim.
Qed.

Lemma StronglySorted_lookup_lt {A} (R : A -> A -> Prop) (l : list A) i j x y :
  StronglySorted R l -> i < j -> l !! i = Some x -> l !! j = Some y -> R x y.
Proof.
  intros Hs Hij Hi Hj. rewrite <- (take_drop j l) in Hs.
  apply (StronglySorted_app_1_elem_of _ _ _ _ _ Hs).
  - apply list_elem_of_lookup. exists i. by rewrite lookup_take_lt.
  - apply list_elem_of_lookup. exists 0. by rewrite lookup_drop, Nat.add_0_r.
Qed.

End EdgeCoordinates.

(** X1. The coordinate that an iteration decodes from an edge index below
    the number of edges has one entry per dimension of the affinities,
    each within the shape, and addresses the slot of that index: in the
    affinities and in a gradient array of the same shape the offset of the
    coordinate is the edge index again. *)
Theorem edge_index_round_trip DIM (aff : View Q) (gt : View Z) (grad : View Q) e :
  dimension gt = DIM -> shape aff = DIM :: shape gt -> shape grad = shape aff ->
  e < size aff ->
  let affCoord := affCoord_of DIM aff e in
  length affCoord = DIM + 1 /\
  (forall d, d < DIM + 1 -> affCoord !!! d < shape_at aff d) /\
  offset aff affCoord = e /\ offset grad affCoord = e /\
  get aff affCoord = flat aff e.
Proof.
  intros Hd Ha Hg He affCoord. subst affCoord.
  assert (length (shape aff) = DIM + 1) as Hl.
  { rewrite Ha. simpl. unfold dimension in Hd. lia. }
  split; [|split; [|split; [|split]]].
  - by rewrite (affCoord_of_coordinate DIM aff gt Ha Hd), length_coordinate_of.
  - intros d Hlt. rewrite (affCoord_of_coordinate DIM aff gt Ha Hd).
    apply coordinate_of_bounded; [done|lia].
  - by apply (offset_affCoord DIM aff gt Ha Hd).
  - by apply (offset_affCoord DIM aff gt Ha Hd).
  - unfold get, flat. by rewrite (offset_affCoord DIM aff gt Ha Hd).
Qed.

Lemma edge_index_round_trip_witness :
  dimension grid_gt = 2 /\ shape grid_aff = 2 :: shape grid_gt /\
  shape (filled [2; 2; 2] 0%Q) = shape grid_aff /\ 5 < size grid_aff /\
  let affCoord := affCoord_of 2 grid_aff 5 in
  length affCoord = 2 + 1 /\
  (forall d, d < 2 + 1 -> affCoord !!! d < shape_at grid_aff d) /\
  offset grid_aff affCoord = 5 /\ offset (filled [2; 2; 2] 0%Q) affCoord = 5 /\
  get grid_aff affCoord = flat grid_aff 5.
Proof.
  assert (5 < size grid_aff) as He by (vm_compute; lia).
  split; [reflexivity|]. split; [reflexivity|]. split; [reflexivity|].
  split; [exact He|].
  exact (edge_index_round_trip 2 grid_aff grid_gt (filled [2; 2; 2] 0%Q) 5
           eq_refl eq_refl eq_refl He).
Defined.

(** X2. A valid edge joins a pixel to its lower neighbour along the axis
    of the edge: [nodeU] is the edge index modulo the number of pixels, a
    node of the grid, and [nodeV] lies one stride of the axis below it. *)
Theorem valid_edge_joins_neighbours DIM (aff : View Q) (gt : View Z) e :
  dimension gt = DIM -> shape aff = DIM :: shape gt ->
  e < size aff -> edge_valid DIM aff e = true ->
  let axis := axis_of DIM aff e in
  axis = e / size gt /\ axis < DIM /\
  nodeU_of DIM aff gt e = e mod size gt /\ nodeU_of DIM aff gt e < size gt /\
  0 < strides gt axis /\
  nodeV_of DIM aff gt e + strides gt axis = nodeU_of DIM aff gt e.
Proof.
  intros Hd Ha He Hv axis. subst axis.
  destruct (edge_nodes_stride DIM aff gt e Ha Hd He Hv) as (H1 & H2 & H3).
  destruct (valid_edge_nodes DIM aff gt Ha Hd e He Hv) as (H4 & H5 & _).
  destruct (edge_nodes DIM aff gt Ha Hd e He) as (H6 & _).
  done.
Qed.

Lemma valid_edge_joins_neighbours_witness :
  dimension grid_gt = 2 /\ shape grid_aff = 2 :: shape grid_gt /\
  3 < size grid_aff /\ edge_valid 2 grid_aff 3 = true /\
  let axis := axis_of 2 grid_aff 3 in
  axis = 3 / size grid_gt /\ axis < 2 /\
  nodeU_of 2 grid_aff grid_gt 3 = 3 mod size grid_gt /\
  nodeU_of 2 grid_aff grid_gt 3 < size grid_gt /\
  0 < strides grid_gt axis /\
  nodeV_of 2 grid_aff grid_gt 3 + strides grid_gt axis = nodeU_of 2 grid_aff grid_gt 3.
Proof.
  assert (3 < size grid_aff) as He by (vm_compute; lia).
  split; [reflexivity|]. split; [reflexivity|]. split; [exact He|].
  split; [reflexivity|].
  exact (valid_edge_joins_neighbours 2 grid_aff grid_gt 3 eq_refl eq_refl He eq_refl).
Defined.

(** X3. With a sorting routine that keeps what the standard promises, the
    queue holds every edge index once, and the sweep takes the edges by
    decreasing affinity: an edge is never followed by one of greater
    affinity. *)
Theorem edges_are_swept_by_decreasing_affinity std_sort (aff : View Q) :
  permutes std_sort -> sorts_by std_sort ->
  NoDup (pqueue_of std_sort aff) /\
  (forall e, e ∈ pqueue_of std_sort aff <-> e < size aff) /\
  forall i j ei ej, i < j ->
    pqueue_of std_sort aff !! i = Some ei -> pqueue_of std_sort aff !! j = Some ej ->
    (flat aff ej <= flat aff ei)%Q.
Proof.
  intros Hperm Hsort.
  pose proof (pqueue_of_permutation std_sort aff Hperm) as Hp.
  split; [|split].
  - rewrite Hp. apply NoDup_seq.
  - intros e. rewrite Hp, elem_of_seq. lia.
  - intros i j ei ej Hij Hi Hj. apply Qgtb_false.
    apply (StronglySorted_lookup_lt
             (fun x y => Qgtb (flat aff y) (flat aff x) = false)
             (pqueue_of std_sort aff) i j ei ej); try done.
    apply (Hsort (fun ind1 ind2 => Qgtb (flat aff ind1) (flat aff ind2))).
    apply edge_order_strict_weak.
Qed.

Lemma edges_are_swept_by_decreasing_affinity_witness :
  permutes insertion_sort /\ sorts_by insertion_sort /\
  NoDup (pqueue_of insertion_sort grid_aff) /\
  (forall e, e ∈ pqueue_of insertion_sort grid_aff <-> e < size grid_aff) /\
  forall i j ei ej, i < j ->
    pqueue_of insertion_sort grid_aff !! i = Some ei ->
    pqueue_of insertion_sort grid_aff !! j = Some ej ->
    (flat grid_aff ej <= flat grid_aff ei)%Q.
Proof.
  split; [exact insertion_sort_permutes|]. split; [exact insertion_sort_sorts|].
  exact (edges_are_swept_by_decreasing_affinity insertion_sort grid_aff
           insertion_sort_permutes insertion_sort_sorts).
Defined.

(** ** The scan and the normalizer *)

Section ScanResult.

Import Bag.

Lemma find_elem_of k m v : LabelMap.find k m = Some v -> (k, v) ∈ m.
Proof.
  induction m as [|[k' v'] m IH]; simpl; [done|].
  destruct (Z.eqb_spec k' k) as [->|Hne].
  - intros [= ->]. by left.
  - intros Hf. right. by apply IH.
Qed.

Lemma no_bag_holds_zero (labels : list Z) :
  sum_list_with (LabelMap.at_ 0) (bag_of <$> labels) = 0.
Proof.
  induction labels as [|x xs IH]; [done|]. csimpl. rewrite IH.
  unfold bag_of. destruct (Z.eqb_spec x 0) as [->|Hne]; [done|].
  unfold LabelMap.at_. simpl. by destruct (Z.eqb_spec x 0).
Qed.

Lemma normalizer_of_labels DIM (gt : View Z) pos :
  dimension gt = DIM -> well_formed gt ->
  nPairNorm_of pos (scan DIM gt)
  = (if pos then same_label_pairs (data gt)
     else (length (filter (fun x => x <> 0%Z) (data gt))
           * (length (filter (fun x => x <> 0%Z) (data gt)) - 1)) / 2
          - same_label_pairs (data gt)).
Proof.
  intros Hd Hwf. destruct (scan_counters DIM gt Hd Hwf) as [HP HT].
  unfold nPairNorm_of. rewrite HP, HT. done.
Qed.

End ScanResult.

(** X4. The scan leaves at every pixel the bag of its own label with
    count 1, an empty bag for the label 0, and has visited every pixel;
    the table of segment sizes is ordered by label, has no entry for the
    label 0, and its counts add up to the number of labeled pixels. *)
Theorem scan_gives_each_pixel_its_bag DIM (gt : View Z) :
  dimension gt = DIM -> well_formed gt ->
  let s := scan DIM gt in
  sc_nodeIndex s = size gt /\
  sc_overlaps s = bag_of <$> data gt /\
  Bag.sorted (sc_segmentSizes s) /\
  LabelMap.find 0 (sc_segmentSizes s) = None /\
  sc_numberOfLabeledNodes s = Bag.total (sc_segmentSizes s).
Proof.
  intros Hd Hwf s. subst s.
  destruct (scan_inv_final DIM gt Hd Hwf) as (Hidx & Hov & [Hsort Hposv] & Hnum & _ & Hcnt).
  unfold well_formed in Hwf.
  split; [congruence|]. split.
  { rewrite Hov, Hwf, Nat.sub_diag. simpl. by rewrite app_nil_r. }
  split; [done|]. split; [|done].
  specialize (Hcnt 0%Z). rewrite no_bag_holds_zero in Hcnt.
  destruct (LabelMap.find 0 (sc_segmentSizes (scan DIM gt))) as [v|] eqn:Hf; [|done].
  pose proof (find_elem_of _ _ _ Hf) as Hin.
  unfold Bag.positive in Hposv. rewrite Forall_forall in Hposv.
  apply Hposv in Hin. unfold LabelMap.at_ in Hcnt. rewrite Hf in Hcnt.
  simpl in *. lia.
Qed.

Lemma scan_gives_each_pixel_its_bag_witness :
  dimension single_segment_gt = 1 /\ well_formed single_segment_gt /\
  let s := scan 1 single_segment_gt in
  sc_nodeIndex s = size single_segment_gt /\
  sc_overlaps s = bag_of <$> data single_segment_gt /\
  Bag.sorted (sc_segmentSizes s) /\
  LabelMap.find 0 (sc_segmentSizes s) = None /\
  sc_numberOfLabeledNodes s = Bag.total (sc_segmentSizes s).
Proof.
  split; [reflexivity|]. split; [reflexivity|].
  exact (scan_gives_each_pixel_its_bag 1 single_segment_gt eq_refl eq_refl).
Defined.

(** X5. A call returns exactly when the shapes agree and the ground truth
    has a pair of pixels of the polarity: two pixels with the same label
    other than 0 for the positive pass; for the negative pass, more pairs
    of labeled pixels than pairs with the same label. *)
Theorem call_returns_iff_pairs_exist std_sort DIM aff gt pos (o : Outs) :
  dimension gt = DIM -> well_formed gt ->
  let labeled := length (filter (fun x => x <> 0%Z) (data gt)) in
  let same := same_label_pairs (data gt) in
  (exists o', compute_malis_gradient std_sort DIM aff gt pos o = Ok tt o') <->
  shapes_agree DIM aff gt (gradientsOut o) /\
  0 < (if pos then same else (labeled * (labeled - 1)) / 2 - same).
Proof.
  intros Hd Hwf labeled same. subst labeled same.
  rewrite <- (normalizer_of_labels DIM gt pos Hd Hwf).
  destruct (compute_malis_gradient_cases std_sort DIM aff gt pos o)
    as [[Hs Hr]|[(Hs & Hn & Hr)|(Hs & Hn & Hr)]]; rewrite Hr; cbv zeta in *.
  - split; [intros [o' Ho']; done|intros [Hs' _]; done].
  - split; [intros [o' Ho']; done|intros [_ Hn']; lia].
  - split; [done|]. intros _. by eexists.
Qed.

Lemma call_returns_iff_pairs_exist_witness :
  dimension example_gt = 1 /\ well_formed example_gt /\
  ((exists o', compute_malis_gradient insertion_sort 1 example_aff example_gt false
                 example_outs = Ok tt o') <->
   shapes_agree 1 example_aff example_gt (gradientsOut example_outs) /\
   0 < (length (filter (fun x => x <> 0%Z) (data example_gt))
        * (length (filter (fun x => x <> 0%Z) (data example_gt)) - 1)) / 2
       - same_label_pairs (data example_gt)).
Proof.
  split; [reflexivity|]. split; [reflexivity|].
  exact (call_returns_iff_pairs_exist insertion_sort 1 example_aff example_gt false
           example_outs eq_refl eq_refl).
Defined.

(** X6. On a ground truth with fewer than two labeled pixels (an empty
    one, an unlabeled one, a single labeled pixel) a call whose shape
    checks pass throws the degenerate-normalization error, whatever the
    polarity, and leaves the output parameters as they were. *)
Theorem fewer_than_two_labeled_pixels std_sort DIM aff gt pos (o : Outs) :
  dimension gt = DIM -> well_formed gt ->
  shapes_agree DIM aff gt (gradientsOut o) ->
  length (filter (fun x => x <> 0%Z) (data gt)) <= 1 ->
  compute_malis_gradient std_sort DIM aff gt pos o = Throw DegenerateNormalization o.
Proof.
  intros Hd Hwf Hs Hfew.
  destruct (scan_inv_final DIM gt Hd Hwf) as (_ & _ & _ & Hnum & Hpairs & _).
  destruct (scan_counters DIM gt Hd Hwf) as [_ HT].
  pose proof (squares_le_total_sq (sc_segmentSizes (scan DIM gt))) as Hsq.
  rewrite <- Hnum in *. rewrite HT in *.
  set (T := length (filter (fun x => x <> 0%Z) (data gt))) in *.
  assert (sc_nPairPos (scan DIM gt) = 0) as HP by nia.
  assert (nPairNorm_of pos (scan DIM gt) = 0) as Hnorm.
  { unfold nPairNorm_of. rewrite HP, HT. destruct pos; [done|].
    assert (T * (T - 1) = 0) as -> by nia. done. }
  destruct (compute_malis_gradient_cases std_sort DIM aff gt pos o)
    as [[Hn _]|[(_ & _ & Hr)|(_ & Hn & _)]]; [done|done|].
  cbv zeta in Hn. lia.
Qed.

Lemma fewer_than_two_labeled_pixels_witness :
  dimension single_pixel_gt = 1 /\ well_formed single_pixel_gt /\
  shapes_agree 1 example_aff single_pixel_gt (gradientsOut stale_outs) /\
  length (filter (fun x => x <> 0%Z) (data single_pixel_gt)) <= 1 /\
  compute_malis_gradient insertion_sort 1 example_aff single_pixel_gt
    false stale_outs
  = Throw DegenerateNormalization stale_outs.
Proof.
  assert (shapes_agree 1 example_aff single_pixel_gt (gradientsOut stale_outs))
    as Hs by (by apply shapes_agree_intro).
  assert (length (filter (fun x => x <> 0%Z) (data single_pixel_gt)) <= 1)
    as Hfew by (vm_compute; lia).
  split; [reflexivity|]. split; [reflexivity|]. split; [exact Hs|]. split; [exact Hfew|].
  exact (fewer_than_two_labeled_pixels insertion_sort 1 example_aff
           single_pixel_gt false stale_outs eq_refl eq_refl Hs Hfew).
Defined.

(** X7. The [size_t] counters neither overflow nor go below zero.  When
    the number of pixels fits the [int] that holds it, the number of
    labeled nodes, the product that gives the number of all pairs, the
    normalizer, every count of a bag or of the table of segment sizes,
    every product [nPair] of two counts of bags, and the two pair counters
    of the sweep stay below [2^62] at every point of the sweep; and the
    subtraction [nPairTot - nPairPos] of the negative pass takes away no
    more than there is. *)
Theorem counters_fit_size_t std_sort DIM aff gt pos (g0 : View Q) (k : nat) :
  permutes std_sort -> valid_arrays DIM aff gt ->
  shape aff = DIM :: shape gt -> shape g0 = shape aff ->
  (Z.of_nat (size gt) <= 2 ^ 31 - 1)%Z ->
  let s := scan DIM gt in
  let st := sweep DIM aff gt pos g0 (take k (pqueue_of std_sort aff)) in
  Forall (fun x => (Z.of_nat x < 2 ^ 62)%Z)
    [sc_numberOfLabeledNodes s;
     sc_numberOfLabeledNodes s * (sc_numberOfLabeledNodes s - 1);
     sc_nPairPos s; nPairNorm_of pos s; nPairIncorrect st; nPairCounted st] /\
  (forall l, (Z.of_nat (LabelMap.at_ l (sc_segmentSizes s)) < 2 ^ 62)%Z) /\
  (forall i j l l',
     (Z.of_nat (LabelMap.at_ l (overlaps st !!! i)
                * LabelMap.at_ l' (overlaps st !!! j)) < 2 ^ 62)%Z) /\
  sc_nPairPos s <= (sc_numberOfLabeledNodes s * (sc_numberOfLabeledNodes s - 1)) / 2.
Proof.
  intros Hperm Hvalid Hshape Hg0 Hint s st.
  assert (sc_nPairPos s
          <= (sc_numberOfLabeledNodes s * (sc_numberOfLabeledNodes s - 1)) / 2) as Hsub.
  { destruct Hvalid as (_ & Hd & _ & Hwf).
    destruct (scan_inv_final DIM gt Hd Hwf) as (_ & _ & _ & Hnum & Hpairs & _).
    pose proof (squares_le_total_sq (sc_segmentSizes (scan DIM gt))) as Hsq.
    fold s in Hnum, Hpairs, Hsq. rewrite <- Hnum in *.
    apply Nat.div_le_lower_bound; [lia|].
    destruct (sc_numberOfLabeledNodes s) as [|T]; [lia|]. simpl. nia. }
  destruct (counters_in_range std_sort DIM aff gt pos g0 k (size gt)
              Hperm Hvalid Hshape Hg0 (le_n _))
    as (H1 & H2 & H3 & H4 & H5 & H6 & H7 & H8).
  fold s in H1, H2, H3, H4, H5. fold st in H6, H7, H8.
  assert (Z.of_nat (size gt * size gt) < 2 ^ 62)%Z as Hsq.
  { rewrite Nat2Z.inj_mul. change (2 ^ 62)%Z with 4611686018427387904%Z.
    change (2 ^ 31 - 1)%Z with 2147483647%Z in Hint. nia. }
  assert (size gt <= size gt * size gt) as Hle by nia.
  split; [|split; [|split; [|done]]].
  - repeat (apply Forall_cons; split); [lia..|done].
  - intros l. specialize (H5 l). lia.
  - intros i j l l'. pose proof (H6 i l). pose proof (H6 j l').
    assert (LabelMap.at_ l (overlaps st !!! i) * LabelMap.at_ l' (overlaps st !!! j)
            <= size gt * size gt) by nia.
    lia.
Qed.

Lemma counters_fit_size_t_witness :
  permutes insertion_sort /\ valid_arrays 2 grid_aff grid_gt /\
  shape grid_aff = 2 :: shape grid_gt /\
  shape (filled [2; 2; 2] 0%Q) = shape grid_aff /\
  (Z.of_nat (size grid_gt) <= 2 ^ 31 - 1)%Z /\
  let st := sweep 2 grid_aff grid_gt true (filled [2; 2; 2] 0%Q)
                  (take 5 (pqueue_of insertion_sort grid_aff)) in
  (Z.of_nat (nPairCounted st) < 2 ^ 62)%Z.
Proof.
  assert (valid_arrays 2 grid_aff grid_gt) as Hv by (repeat split).
  assert (Z.of_nat (size grid_gt) <= 2 ^ 31 - 1)%Z as Hint by (vm_compute; discriminate).
  split; [exact insertion_sort_permutes|]. split; [exact Hv|].
  split; [reflexivity|]. split; [reflexivity|]. split; [exact Hint|].
  pose proof (proj1 (counters_fit_size_t insertion_sort 2 grid_aff grid_gt true
                       (filled [2; 2; 2] 0%Q) 5 insertion_sort_permutes Hv
                       eq_refl eq_refl Hint)) as Hall.
  cbv zeta in Hall. rewrite !Forall_cons in Hall. apply Hall.
Defined.

(** ** The end of the sweep *)

(** X8. After the sweep over the whole queue all pixels are in one set:
    every node has the representative of node 0, the bag of that
    representative is the table of segment sizes of the scan, and every
    other bag is empty. *)
Theorem sweep_ends_in_one_set std_sort DIM aff gt pos (g0 : View Q) :
  permutes std_sort -> valid_arrays DIM aff gt ->
  shape aff = DIM :: shape gt -> shape g0 = shape aff -> 0 < size gt ->
  let st := sweep DIM aff gt pos g0 (pqueue_of std_sort aff) in
  let r := find (sets st) 0 in
  r < size gt /\
  (forall i, i < size gt -> find (sets st) i = r) /\
  overlaps st !!! r = sc_segmentSizes (scan DIM gt) /\
  (forall i, i < size gt -> i <> r -> overlaps st !!! i = LabelMap.empty).
Proof.
  intros Hperm Hvalid Hshape Hg0 Hn st r.
  pose proof Hvalid as (_ & Hdg & _ & Hwg).
  pose proof (pqueue_of_permutation std_sort aff Hperm) as Hp.
  pose proof (pqueue_of_bounded std_sort aff Hperm) as Hq.
  subst r st. unfold sweep.
  destruct (sweep_fold DIM aff gt pos (nPairNorm_of pos (scan DIM gt)) Hshape Hdg
              (sc_segmentSizes (scan DIM gt)) (pqueue_of std_sort aff)
              (sweep_start DIM gt g0))
    as (Hinv & Hedges & _); [done|by apply sweep_start_inv|done|].
  set (st := foldl _ _ (pqueue_of std_sort aff)) in *.
  destruct Hinv as [Hwf Hlen Hok Hnon Hcons _ _].
  assert (forall i, i < size gt -> find (sets st) i = find (sets st) 0) as Hall.
  { apply (all_connected DIM aff gt Hshape Hdg). intros e He Hv.
    apply Hedges; [|done]. rewrite Hp. apply elem_of_seq. lia. }
  set (r := find (sets st) 0) in *.
  assert (r < size gt) as Hr by (apply Hwf; lia).
  assert (forall i, i < size gt -> i <> r -> overlaps st !!! i = LabelMap.empty)
    as Hempty.
  { intros i Hi Hir. apply Hnon; [lia|]. rewrite Hall by lia. done. }
  split; [done|]. split; [done|]. split; [|done].
  destruct (scan_inv_final DIM gt Hdg Hwg) as (_ & _ & Hokseg & _).
  apply bag_ext; [|done|].
  - apply Forall_lookup_total_1; [done|lia].
  - intros k. rewrite <- Hcons. symmetry.
    apply (sum_list_with_single (LabelMap.at_ k)); [lia|].
    intros i Hi Hir. rewrite Hempty; [done|lia|done].
Qed.

Lemma sweep_ends_in_one_set_witness :
  permutes insertion_sort /\ valid_arrays 2 grid_aff grid_gt /\
  shape grid_aff = 2 :: shape grid_gt /\
  shape (filled [2; 2; 2] 0%Q) = shape grid_aff /\ 0 < size grid_gt /\
  let st := sweep 2 grid_aff grid_gt false (filled [2; 2; 2] 0%Q)
                  (pqueue_of insertion_sort grid_aff) in
  let r := find (sets st) 0 in
  r < size grid_gt /\
  (forall i, i < size grid_gt -> find (sets st) i = r) /\
  overlaps st !!! r = sc_segmentSizes (scan 2 grid_gt) /\
  (forall i, i < size grid_gt -> i <> r -> overlaps st !!! i = LabelMap.empty).
Proof.
  assert (valid_arrays 2 grid_aff grid_gt) as Hv by (repeat split).
  assert (0 < size grid_gt) as Hn by (vm_compute; lia).
  split; [exact insertion_sort_permutes|]. split; [exact Hv|].
  split; [reflexivity|]. split; [reflexivity|]. split; [exact Hn|].
  exact (sweep_ends_in_one_set insertion_sort 2 grid_aff grid_gt false
           (filled [2; 2; 2] 0%Q) insertion_sort_permutes Hv eq_refl eq_refl Hn).
Defined.

(** X9. An edge index that the sweep has taken once changes nothing when
    it is taken again: its two nodes are in one set from then on, and the
    iteration leaves the forest, the bags, the loss, the counters and the
    gradient array as they are. *)
Theorem repeated_edge_changes_nothing DIM aff gt pos (g0 : View Q)
    (queue : list nat) (e : nat) :
  valid_arrays DIM aff gt -> shape aff = DIM :: shape gt -> shape g0 = shape aff ->
  Forall (fun e => e < size aff) queue -> e ∈ queue ->
  sweep DIM aff gt pos g0 (queue ++ [e]) = sweep DIM aff gt pos g0 queue.
Proof.
  intros Hvalid Hshape Hg0 Hq He.
  pose proof Hvalid as (_ & Hdg & _ & Hwg).
  unfold sweep. rewrite foldl_app. simpl.
  destruct (sweep_fold DIM aff gt pos (nPairNorm_of pos (scan DIM gt)) Hshape Hdg
              (sc_segmentSizes (scan DIM gt)) queue (sweep_start DIM gt g0))
    as (_ & Hedges & _); [done|by apply sweep_start_inv|done|].
  set (st := foldl _ _ queue) in *.
  rewrite sweep_body_unfold. destruct (edge_valid DIM aff e) eqn:Hv; [|done].
  unfold merge_edge. rewrite (Hedges e He Hv), Nat.eqb_refl. done.
Qed.

Lemma repeated_edge_changes_nothing_witness :
  valid_arrays 1 example_aff example_gt /\ shape example_aff = 1 :: shape example_gt /\
  shape (gradientsOut example_outs) = shape example_aff /\
  Forall (fun e => e < size example_aff) [1; 3] /\ 1 ∈ [1; 3] /\
  sweep 1 example_aff example_gt true (gradientsOut example_outs) ([1; 3] ++ [1])
  = sweep 1 example_aff example_gt true (gradientsOut example_outs) [1; 3].
Proof.
  assert (Forall (fun e => e < size example_aff) [1; 3]) as Hq
    by (repeat constructor; vm_compute; lia).
  assert (1 ∈ [1; 3]) as He by (by left).
  split; [exact example_valid_arrays|]. split; [reflexivity|]. split; [reflexivity|].
  split; [exact Hq|]. split; [exact He|].
  exact (repeated_edge_changes_nothing 1 example_aff example_gt true
           (gradientsOut example_outs) [1; 3] 1 example_valid_arrays
           eq_refl eq_refl Hq He).
Defined.

(** X10. A call never changes the shape of the caller's gradient array nor
    the number of its elements, however it ends. *)
Theorem gradient_array_keeps_its_shape std_sort DIM aff gt pos (o : Outs) :
  permutes std_sort -> valid_arrays DIM aff gt ->
  dimension (gradientsOut o) = DIM + 1 ->
  let o' := outs_after (compute_malis_gradient std_sort DIM aff gt pos o) in
  shape (gradientsOut o') = shape (gradientsOut o) /\
  length (data (gradientsOut o')) = length (data (gradientsOut o)).
Proof.
  intros Hperm Hvalid Hdg.
  destruct (compute_malis_gradient_cases std_sort DIM aff gt pos o)
    as [[_ Hr]|[(_ & _ & Hr)|(Hs & _ & Hr)]]; rewrite Hr; [done|done|].
  simpl. destruct (shapes_agree_shape DIM aff gt (gradientsOut o) Hvalid Hdg Hs)
    as [Ha Hg].
  pose proof Hvalid as (_ & Hd & _ & Hwf). unfold sweep.
  destruct (sweep_fold DIM aff gt pos (nPairNorm_of pos (scan DIM gt)) Ha Hd
              (sc_segmentSizes (scan DIM gt)) (pqueue_of std_sort aff)
              (sweep_start DIM gt (gradientsOut o)))
    as (_ & _ & _ & H1 & H2 & _);
    [by apply pqueue_of_bounded|by apply sweep_start_inv|done|].
  split; [congruence|done].
Qed.

Lemma gradient_array_keeps_its_shape_witness :
  permutes insertion_sort /\ valid_arrays 1 example_aff example_gt /\
  dimension (gradientsOut stale_outs) = 1 + 1 /\
  let o' := outs_after (compute_malis_gradient insertion_sort 1 example_aff
                          example_gt true stale_outs) in
  shape (gradientsOut o') = shape (gradientsOut stale_outs) /\
  length (data (gradientsOut o')) = length (data (gradientsOut stale_outs)).
Proof.
  split; [exact insertion_sort_permutes|]. split; [exact example_valid_arrays|].
  split; [reflexivity|].
  exact (gradient_array_keeps_its_shape insertion_sort 1 example_aff example_gt true
           stale_outs insertion_sort_permutes example_valid_arrays eq_refl).
Defined.

(** ** What every iteration of the sweep preserves *)

Section Preserved.

Variables (DIM : nat) (aff : View Q) (gt : View Z) (pos : bool) (norm : nat).

(** A property of the loss, the counters and the gradient array. *)
Variable P : Sweep -> Prop.
Hypothesis P_frame : forall st s ov,
  P st ->
  P (mkSweep s ov (loss st) (nPairIncorrect st) (nPairCounted st) (gradients st)).

Lemma count_pairs_preserves c U V :
  (forall u v st, P st -> P (pair_body pos aff c u v st)) ->
  forall st, P st -> P (count_pairs pos aff c U V st).
Proof.
  intros Hpair. unfold count_pairs.
  induction U as [|u U IH]; intros st Hst; [done|]. simpl. apply IH.
  clear IH. revert st Hst. induction V as [|v V IH]; intros st Hst; [done|].
  simpl. apply IH. by apply Hpair.
Qed.

Lemma merge_edge_preserves c nodeU nodeV st :
  (forall u v st, P st -> P (pair_body pos aff c u v st)) ->
  (forall st, P st ->
     P (mkSweep (sets st) (overlaps st) (loss st) (nPairIncorrect st) (nPairCounted st)
          (set (gradients st) c (get (gradients st) c / Q_of_nat norm)%Q))) ->
  P st -> P (merge_edge aff pos norm c nodeU nodeV st).
Proof.
  intros Hpair Hnorm Hst. unfold merge_edge. destruct (negb _); [|done].
  match goal with |- context [count_pairs pos aff c ?U ?V ?s0] =>
    assert (P (count_pairs pos aff c U V s0)) as H1
      by (apply count_pairs_preserves; [done|by apply P_frame]);
    set (st1 := count_pairs pos aff c U V s0) in *
  end.
  apply Hnorm in H1.
  destruct (_ =? _); simpl; by apply (P_frame _ _ _ H1).
Qed.

Lemma sweep_preserves (queue : list nat) :
  (forall e u v st, e ∈ queue -> edge_valid DIM aff e = true ->
     P st -> P (pair_body pos aff (affCoord_of DIM aff e) u v st)) ->
  (forall e st, e ∈ queue -> P st ->
     P (mkSweep (sets st) (overlaps st) (loss st) (nPairIncorrect st) (nPairCounted st)
          (set (gradients st) (affCoord_of DIM aff e)
               (get (gradients st) (affCoord_of DIM aff e) / Q_of_nat norm)%Q))) ->
  forall st, P st -> P (foldl (sweep_body DIM aff gt pos norm) st queue).
Proof.
  induction queue as [|e queue IH]; intros Hpair Hnorm st Hst; [done|].
  simpl. apply IH.
  - intros e' u v st' He'. apply Hpair. by right.
  - intros e' st' He'. apply Hnorm. by right.
  - rewrite sweep_body_unfold. destruct (edge_valid DIM aff e) eqn:Hv; [|done].
    apply merge_edge_preserves; [| |done].
    + intros u v st' Hst'. apply Hpair; [by left|done|done].
    + intros st' Hst'. apply Hnorm; [by left|done].
Qed.

End Preserved.

(** ** The range of the loss *)

Section LossRange.

Lemma Q_of_nat_add a b : (Q_of_nat (a + b) == Q_of_nat a + Q_of_nat b)%Q.
Proof. unfold Q_of_nat. by rewrite Nat2Z.inj_add, inject_Z_plus. Qed.

Lemma Q_of_nat_nonneg a : (0 <= Q_of_nat a)%Q.
Proof. apply (Q_of_nat_le 0 a). lia. Qed.

Lemma square_weight_nonneg g n : (0 <= g * g * Q_of_nat n)%Q.
Proof.
  apply Qmult_le_0_compat; [|apply Q_of_nat_nonneg].
  destruct (Qlt_le_dec g 0); nra.
Qed.

Lemma square_weight_le g n : (-1 <= g <= 1)%Q -> (g * g * Q_of_nat n <= Q_of_nat n)%Q.
Proof.
  intros Hg. pose proof (Q_of_nat_nonneg n).
  assert (g * g <= 1)%Q by nra. nra.
Qed.

(** An element read from an array has every property that all elements of
    the array and the default element have. *)
Lemma get_in_data (R : Q -> Prop) (v : View Q) c :
  Forall R (data v) -> R 0%Q -> R (get v c).
Proof.
  intros Hall H0. unfold get.
  destruct (decide (offset v c < length (data v))) as [Hlt|Hge].
  - by apply Forall_lookup_total_1.
  - rewrite list_lookup_total_alt, lookup_ge_None_2 by lia. done.
Qed.

Lemma pair_body_loss_nonneg pos aff c u v st :
  (0 <= loss st)%Q -> (0 <= loss (pair_body pos aff c u v st))%Q.
Proof.
  intros Hst. unfold pair_body.
  destruct (pos && _); [|destruct (negb pos && _); [|done]]; simpl;
    match goal with |- (0 <= _ + ?g * ?g * Q_of_nat ?n)%Q =>
      pose proof (square_weight_nonneg g n) end; lra.
Qed.

Lemma pair_body_loss_bounded pos aff c u v st :
  (0 <= get aff c <= 1)%Q ->
  (loss st <= Q_of_nat (nPairCounted st))%Q ->
  (loss (pair_body pos aff c u v st) <= Q_of_nat (nPairCounted (pair_body pos aff c u v st)))%Q.
Proof.
  intros Ha Hst. unfold pair_body.
  destruct (pos && _); [|destruct (negb pos && _); [|done]]; simpl;
    rewrite Q_of_nat_add;
    match goal with |- (_ + ?g * ?g * Q_of_nat ?n <= _)%Q =>
      pose proof (square_weight_le g n) as Hw end;
    (assert (loss st + 0 <= Q_of_nat (nPairCounted st) + 0)%Q by lra);
    apply Qplus_le_compat; [done|apply Hw; lra|done|apply Hw; lra].
Qed.

Lemma sweep_loss_nonneg DIM aff gt pos norm (queue : list nat) st :
  (0 <= loss st)%Q ->
  (0 <= loss (foldl (sweep_body DIM aff gt pos norm) st queue))%Q.
Proof.
  apply (sweep_preserves DIM aff gt pos norm (fun st => (0 <= loss st)%Q)); try done.
  intros e u v st' _ _. apply pair_body_loss_nonneg.
Qed.

Lemma sweep_loss_bounded DIM aff gt pos norm (queue : list nat) st :
  Forall (fun a => (0 <= a <= 1)%Q) (data aff) ->
  (loss st <= Q_of_nat (nPairCounted st))%Q ->
  (loss (foldl (sweep_body DIM aff gt pos norm) st queue)
   <= Q_of_nat (nPairCounted (foldl (sweep_body DIM aff gt pos norm) st queue)))%Q.
Proof.
  intros Hall.
  apply (sweep_preserves DIM aff gt pos norm
           (fun st => (loss st <= Q_of_nat (nPairCounted st))%Q)); try done.
  intros e u v st' _ _. apply pair_body_loss_bounded.
  apply (get_in_data (fun a => (0 <= a <= 1)%Q)); [done|lra].
Qed.

(** The loss of the sweep over the whole queue, divided by a positive
    normalizer. *)
Lemma normalized_loss_range std_sort DIM aff gt pos (g0 : View Q) :
  permutes std_sort -> valid_arrays DIM aff gt ->
  shape aff = DIM :: shape gt -> shape g0 = shape aff ->
  0 < nPairNorm_of pos (scan DIM gt) ->
  let st := sweep DIM aff gt pos g0 (pqueue_of std_sort aff) in
  let norm := nPairNorm_of pos (scan DIM gt) in
  (0 <= loss st / Q_of_nat norm)%Q /\
  (Forall (fun a => (0 <= a <= 1)%Q) (data aff) -> (loss st / Q_of_nat norm <= 1)%Q).
Proof.
  intros Hperm Hvalid Hshape Hg0 Hn st norm.
  assert (nPairCounted st = norm) as Hc.
  { apply counted_pairs_final; [done|done|done|]. by apply pqueue_of_permutation. }
  pose proof (Q_of_nat_pos _ Hn) as Hq.
  subst st norm. unfold sweep in *. split.
  - apply Qle_shift_div_l; [done|]. rewrite Qmult_0_l.
    by apply sweep_loss_nonneg.
  - intros Hall. apply Qle_shift_div_r; [done|]. rewrite Qmult_1_l.
    pose proof (sweep_loss_bounded DIM aff gt pos (nPairNorm_of pos (scan DIM gt))
                  (pqueue_of std_sort aff) (sweep_start DIM gt g0) Hall) as Hb.
    rewrite Hc in Hb. apply Hb. simpl. by compute.
Qed.

End LossRange.

(** X11. The loss of a returning call is not negative, and it is at most 1
    when every affinity lies between 0 and 1: each pair adds the square of
    [1 - affinity] or of [- affinity], and the sum is divided by the
    number of pairs. *)
Theorem loss_in_range std_sort DIM aff gt pos (o o' : Outs) :
  permutes std_sort -> valid_arrays DIM aff gt ->
  dimension (gradientsOut o) = DIM + 1 ->
  compute_malis_gradient std_sort DIM aff gt pos o = Ok tt o' ->
  (0 <= lossOut o')%Q /\
  (Forall (fun a => (0 <= a <= 1)%Q) (data aff) -> (lossOut o' <= 1)%Q).
Proof.
  intros Hperm Hvalid Hdg Hrun.
  destruct (returning_call std_sort DIM aff gt pos o o' Hperm Hvalid Hdg Hrun)
    as (Ha & Hg & Hn & -> & _ & _).
  cbn [lossOut outputs_of]. apply Nat.ltb_lt in Hn as Hn'. rewrite Hn'.
  by apply normalized_loss_range.
Qed.

Lemma loss_in_range_witness :
  permutes insertion_sort /\ valid_arrays 1 example_aff example_gt /\
  dimension (gradientsOut example_outs) = 1 + 1 /\
  Forall (fun a => (0 <= a <= 1)%Q) (data example_aff) /\
  let o' := outs_after (compute_malis_gradient insertion_sort 1 example_aff
                          example_gt false example_outs) in
  (0 <= lossOut o')%Q /\ (lossOut o' <= 1)%Q.
Proof.
  assert (compute_malis_gradient insertion_sort 1 example_aff example_gt false example_outs
          = Ok tt (outs_after (compute_malis_gradient insertion_sort 1 example_aff
                                 example_gt false example_outs))) as Hrun
    by (vm_compute; reflexivity).
  assert (Forall (fun a => (0 <= a <= 1)%Q) (data example_aff)) as Hall
    by (repeat constructor; by compute).
  split; [exact insertion_sort_permutes|]. split; [exact example_valid_arrays|].
  split; [reflexivity|]. split; [exact Hall|].
  split;
    [exact (proj1 (loss_in_range insertion_sort 1 example_aff example_gt false
                     example_outs _ insertion_sort_permutes example_valid_arrays
                     eq_refl Hrun))
    |exact (proj2 (loss_in_range insertion_sort 1 example_aff example_gt false
                     example_outs _ insertion_sort_permutes example_valid_arrays
                     eq_refl Hrun) Hall)].
Defined.

(** ** The sign of the gradient *)

Section GradientSign.

Lemma gradient_sign_zero pos : gradient_sign pos 0%Q.
Proof. destruct pos; simpl; lra. Qed.

Lemma affinity_bounded_zero pos : affinity_bounded pos 0%Q.
Proof. destruct pos; simpl; lra. Qed.

Lemma gradient_sign_add pos x y :
  gradient_sign pos x -> gradient_sign pos y -> gradient_sign pos (x + y)%Q.
Proof. destruct pos; simpl; lra. Qed.

Lemma gradient_sign_div pos x n :
  gradient_sign pos x -> gradient_sign pos (x / Q_of_nat n)%Q.
Proof.
  pose proof (Qinv_le_0_compat _ (Q_of_nat_nonneg n)) as Hi. unfold Qdiv.
  destruct pos; simpl; intros Hx; nra.
Qed.

Lemma set_gradient_sign pos (g : View Q) c x :
  Forall (gradient_sign pos) (data g) -> gradient_sign pos x ->
  Forall (gradient_sign pos) (data (set g c x)).
Proof. intros Hg Hx. simpl. by apply Forall_insert. Qed.

Lemma pair_body_sign pos aff c u v st :
  affinity_bounded pos (get aff c) ->
  Forall (gradient_sign pos) (data (gradients st)) ->
  Forall (gradient_sign pos) (data (gradients (pair_body pos aff c u v st))).
Proof.
  intros Ha Hst. unfold pair_body.
  pose proof (Q_of_nat_nonneg (u.2 * v.2)) as Hn.
  pose proof (get_in_data (gradient_sign pos) (gradients st) c Hst
                (gradient_sign_zero pos)) as Hget.
  destruct pos; simpl in *.
  - destruct (_ =? _)%Z; [|done]. simpl.
    apply Forall_insert; [done|]. simpl. nra.
  - destruct (_ =? _)%Z; [done|]. simpl.
    apply Forall_insert; [done|]. simpl. nra.
Qed.

Lemma sweep_sign DIM aff gt pos norm (queue : list nat) st :
  Forall (affinity_bounded pos) (data aff) ->
  Forall (gradient_sign pos) (data (gradients st)) ->
  Forall (gradient_sign pos)
         (data (gradients (foldl (sweep_body DIM aff gt pos norm) st queue))).
Proof.
  intros Hall.
  apply (sweep_preserves DIM aff gt pos norm
           (fun st => Forall (gradient_sign pos) (data (gradients st)))); try done.
  - intros e u v st' _ _. apply pair_body_sign.
    apply (get_in_data (affinity_bounded pos)); [done|apply affinity_bounded_zero].
  - intros e st' _ Hst'. simpl. apply Forall_insert; [done|].
    apply gradient_sign_div.
    apply (get_in_data (gradient_sign pos)); [done|apply gradient_sign_zero].
Qed.

End GradientSign.

(** X12. The gradient has the sign of the polarity.  When no affinity is
    above 1, the positive pass leaves no negative entry in a gradient
    array that held none before the call (a zeroed one, for instance);
    when no affinity is below 0, the negative pass leaves no positive
    entry in a gradient array that held none. *)
Theorem gradient_has_sign_of_polarity std_sort DIM aff gt pos (o : Outs) :
  Forall (affinity_bounded pos) (data aff) ->
  Forall (gradient_sign pos) (data (gradientsOut o)) ->
  Forall (gradient_sign pos)
         (data (gradientsOut (outs_after
                  (compute_malis_gradient std_sort DIM aff gt pos o)))).
Proof.
  intros Hall Ho.
  destruct (compute_malis_gradient_cases std_sort DIM aff gt pos o)
    as [[_ Hr]|[(_ & _ & Hr)|(_ & _ & Hr)]]; rewrite Hr; [done|done|].
  simpl. unfold sweep. by apply sweep_sign.
Qed.

Lemma gradient_has_sign_of_polarity_witness :
  Forall (affinity_bounded false) (data example_aff) /\
  Forall (gradient_sign false) (data (gradientsOut example_outs)) /\
  Forall (gradient_sign false)
         (data (gradientsOut (outs_after
                  (compute_malis_gradient insertion_sort 1 example_aff example_gt
                     false example_outs)))).
Proof.
  assert (Forall (affinity_bounded false) (data example_aff)) as Hall
    by (repeat constructor; by compute).
  assert (Forall (gradient_sign false) (data (gradientsOut example_outs))) as Ho
    by (repeat constructor; by compute).
  split; [exact Hall|]. split; [exact Ho|].
  exact (gradient_has_sign_of_polarity insertion_sort 1 example_aff example_gt false
           example_outs Hall Ho).
Defined.

(** ** The classification error at its two ends *)

Section ErrorExtremes.

Lemma pair_body_incorrect pos aff c u v st (b : bool) :
  counts_incorrect pos (get aff c) = b ->
  nPairIncorrect st = (if b then nPairCounted st else 0) ->
  nPairIncorrect (pair_body pos aff c u v st)
  = (if b then nPairCounted (pair_body pos aff c u v st) else 0).
Proof.
  intros Ha Hst. unfold pair_body, counts_incorrect in *.
  destruct pos; simpl.
  - destruct (_ =? _)%Z; [|done]. simpl. rewrite Ha. destruct b; lia.
  - destruct (_ =? _)%Z; [done|]. simpl. rewrite Ha. destruct b; lia.
Qed.

Lemma sweep_incorrect DIM aff gt pos norm (queue : list nat) st (b : bool) :
  (forall e, e ∈ queue -> edge_valid DIM aff e = true ->
     counts_incorrect pos (get aff (affCoord_of DIM aff e)) = b) ->
  nPairIncorrect st = (if b then nPairCounted st else 0) ->
  nPairIncorrect (foldl (sweep_body DIM aff gt pos norm) st queue)
  = (if b then nPairCounted (foldl (sweep_body DIM aff gt pos norm) st queue) else 0).
Proof.
  intros Hall.
  apply (sweep_preserves DIM aff gt pos norm
           (fun st => nPairIncorrect st = (if b then nPairCounted st else 0)));
    try done.
  intros e u v st' He Hv. apply pair_body_incorrect. by apply Hall.
Qed.

End ErrorExtremes.

(** X13. When every affinity is on the side of one half that the polarity
    asks for (above one half in the positive pass, at most one half in the
    negative pass), a returning call reports the classification error 0
    and the Rand index 1; when every affinity is on the other side, it
    reports the classification error 1 and the Rand index 0. *)
Theorem classification_error_extremes std_sort DIM aff gt pos (o o' : Outs) (b : bool) :
  permutes std_sort -> valid_arrays DIM aff gt ->
  dimension (gradientsOut o) = DIM + 1 ->
  compute_malis_gradient std_sort DIM aff gt pos o = Ok tt o' ->
  Forall (fun a => counts_incorrect pos a = b) (data aff) ->
  (classificationErrorOut o' == if b then 1 else 0)%Q /\
  (randIndexOut o' == if b then 0 else 1)%Q.
Proof.
  intros Hperm Hvalid Hdg Hrun Hall.
  destruct (returning_call std_sort DIM aff gt pos o o' Hperm Hvalid Hdg Hrun)
    as (Ha & _ & Hn & -> & Hc & _).
  pose proof Hvalid as (_ & Hd & Hwa & _).
  pose proof (pqueue_of_bounded std_sort aff Hperm) as Hb.
  unfold sweep in *.
  pose proof (sweep_incorrect DIM aff gt pos (nPairNorm_of pos (scan DIM gt))
                (pqueue_of std_sort aff) (sweep_start DIM gt (gradientsOut o)) b)
    as Hinc.
  rewrite Hc in Hinc. cbn [classificationErrorOut randIndexOut outputs_of].
  rewrite Hinc.
  - pose proof (Q_of_nat_pos _ Hn) as Hq. destruct b.
    + assert (Q_of_nat (nPairNorm_of pos (scan DIM gt))
              / Q_of_nat (nPairNorm_of pos (scan DIM gt)) == 1)%Q as E
        by (field; lra).
      rewrite E. split; [reflexivity|]. lra.
    + change (Q_of_nat 0) with 0%Q. unfold Qdiv. rewrite Qmult_0_l.
      split; [reflexivity|]. lra.
  - intros e He _. rewrite Forall_forall in Hb. apply Hb in He.
    unfold get. rewrite (offset_affCoord DIM aff gt Ha Hd) by done.
    apply (Forall_lookup_total_1 _ _ e Hall). unfold well_formed in Hwa. lia.
  - simpl. by destruct b.
Qed.

Lemma classification_error_extremes_witness :
  permutes insertion_sort /\ valid_arrays 1 weak_aff example_gt /\
  dimension (gradientsOut example_outs) = 1 + 1 /\
  Forall (fun a => counts_incorrect false a = false) (data weak_aff) /\
  let o' := outs_after (compute_malis_gradient insertion_sort 1 weak_aff
                          example_gt false example_outs) in
  (classificationErrorOut o' == 0)%Q /\ (randIndexOut o' == 1)%Q.
Proof.
  assert (valid_arrays 1 weak_aff example_gt) as Hv by (repeat split).
  assert (compute_malis_gradient insertion_sort 1 weak_aff example_gt false example_outs
          = Ok tt (outs_after (compute_malis_gradient insertion_sort 1 weak_aff
                                 example_gt false example_outs))) as Hrun
    by (vm_compute; reflexivity).
  assert (Forall (fun a => counts_incorrect false a = false) (data weak_aff)) as Hall
    by (repeat constructor).
  split; [exact insertion_sort_permutes|]. split; [exact Hv|].
  split; [reflexivity|]. split; [exact Hall|].
  exact (classification_error_extremes insertion_sort 1 weak_aff example_gt false
           example_outs _ false insertion_sort_permutes Hv eq_refl Hrun Hall).
Defined.

(** ** The gradient and the loss of one edge *)

Section EdgeValues.

Import Bag.

Lemma pairs_add_refl c g st : pairs_add c g 0 st st.
Proof.
  unfold pairs_add. change (Q_of_nat 0) with 0%Q.
  split; [lia|]. split; [ring|]. split; [ring|]. done.
Qed.

Lemma pairs_add_trans c g k1 k2 st st1 st2 :
  pairs_add c g k1 st st1 -> pairs_add c g k2 st1 st2 ->
  pairs_add c g (k1 + k2) st st2.
Proof.
  intros (A1 & A2 & A3 & A4 & A5) (B1 & B2 & B3 & B4 & B5). unfold pairs_add.
  rewrite Q_of_nat_add.
  split; [lia|]. split; [rewrite B2, A2; ring|]. split; [rewrite B3, A3; ring|].
  split; congruence.
Qed.

Lemma get_set_same (v : View Q) c x :
  offset v c < length (data v) -> get (set v c x) c = x.
Proof.
  intros Hlt. unfold get, set, offset in *. simpl.
  by rewrite list_lookup_total_insert_eq.
Qed.

Lemma pair_body_add pos aff c u v st :
  offset (gradients st) c < length (data (gradients st)) ->
  pairs_add c (edge_gradient pos (get aff c)) (pair_weight pos u v) st
            (pair_body pos aff c u v st).
Proof.
  intros Hlt. unfold pair_body, pair_weight, edge_gradient.
  destruct pos, (u.1 =? v.1)%Z; simpl; try apply pairs_add_refl.
  all: unfold pairs_add; cbn [nPairCounted loss gradients];
    rewrite get_set_same by done; simpl; rewrite length_insert;
    split; [done|]; split; [reflexivity|]; split; [reflexivity|]; done.
Qed.

Lemma pairs_add_offset c g k st st' :
  pairs_add c g k st st' ->
  offset (gradients st) c < length (data (gradients st)) ->
  offset (gradients st') c < length (data (gradients st')).
Proof. intros (_ & _ & _ & Hs & Hl) Hlt. unfold offset in *. by rewrite Hs, Hl. Qed.

Lemma inner_loop_add pos aff c u V : forall st,
  offset (gradients st) c < length (data (gradients st)) ->
  pairs_add c (edge_gradient pos (get aff c)) (sum_list (pair_weight pos u <$> V)) st
    (foldl (fun st v => pair_body pos aff c u v st) st V).
Proof.
  induction V as [|v V IH]; intros st Hlt; csimpl; [apply pairs_add_refl|].
  pose proof (pair_body_add pos aff c u v st Hlt) as H1.
  eapply pairs_add_trans; [exact H1|]. apply IH. by eapply pairs_add_offset.
Qed.

Lemma count_pairs_add pos aff c U V : forall st,
  offset (gradients st) c < length (data (gradients st)) ->
  pairs_add c (edge_gradient pos (get aff c))
    (if pos then same_pairs U V else diff_pairs U V) st
    (count_pairs pos aff c U V st).
Proof.
  rewrite <- pair_weight_sum. unfold count_pairs.
  induction U as [|u U IH]; intros st Hlt; csimpl; [apply pairs_add_refl|].
  pose proof (inner_loop_add pos aff c u V st Hlt) as H1.
  eapply pairs_add_trans; [exact H1|]. apply IH. by eapply pairs_add_offset.
Qed.

(** An iteration that merges two sets: the pairs it joins, what it adds
    to the loss, and the slot of its edge after the division. *)
Lemma merge_edge_values aff pos norm c nodeU nodeV st :
  offset (gradients st) c < length (data (gradients st)) ->
  find (sets st) nodeU <> find (sets st) nodeV ->
  let st' := merge_edge aff pos norm c nodeU nodeV st in
  let g := edge_gradient pos (get aff c) in
  let bagU := overlaps st !!! find (sets st) nodeU in
  let bagV := overlaps st !!! find (sets st) nodeV in
  let k := if pos then same_pairs bagU bagV else diff_pairs bagU bagV in
  nPairCounted st' = nPairCounted st + k /\
  (loss st' == loss st + g * g * Q_of_nat k)%Q /\
  (get (gradients st') c == (get (gradients st) c + g * Q_of_nat k) / Q_of_nat norm)%Q.
Proof.
  intros Hlt Hne. unfold merge_edge.
  destruct (Nat.eqb_spec (find (sets st) nodeU) (find (sets st) nodeV)) as [|_];
    [done|]. simpl negb. cbv iota.
  match goal with |- context [count_pairs pos aff c ?U ?V ?s0] =>
    pose proof (count_pairs_add pos aff c U V s0 Hlt) as Hadd;
    set (st1 := count_pairs pos aff c U V s0) in *
  end.
  pose proof (pairs_add_offset _ _ _ _ _ Hadd Hlt) as Hlt1.
  destruct Hadd as (A1 & A2 & A3 & _ & _). simpl in A1, A2, A3, Hlt1.
  destruct (_ =? _); cbn [nPairCounted loss gradients];
    rewrite get_set_same by done; rewrite A3; done.
Qed.

End EdgeValues.

(** X14. What one iteration of the sweep does for its edge.  When the edge
    is valid and its two nodes are in different sets, the iteration joins
    [k] pairs, the products of the counts of the two bags over equal
    labels in the positive pass and over different labels in the negative
    pass; it adds [g * g * k] to the loss, where [g] is [1 - affinity] or
    [- affinity], and leaves [(x + g * k) / nPairNorm] in the slot of the
    edge that held [x].  Otherwise the iteration changes nothing. *)
Theorem iteration_of_an_edge DIM aff gt pos (g0 : View Q) (queue : list nat) (e : nat) :
  valid_arrays DIM aff gt -> shape aff = DIM :: shape gt ->
  shape g0 = shape aff -> well_formed g0 ->
  Forall (fun e => e < size aff) queue -> e < size aff ->
  let norm := nPairNorm_of pos (scan DIM gt) in
  let st := sweep DIM aff gt pos g0 queue in
  let st' := sweep DIM aff gt pos g0 (queue ++ [e]) in
  let setU := find (sets st) (nodeU_of DIM aff gt e) in
  let setV := find (sets st) (nodeV_of DIM aff gt e) in
  let g := edge_gradient pos (flat aff e) in
  let k := if pos then Bag.same_pairs (overlaps st !!! setU) (overlaps st !!! setV)
           else Bag.diff_pairs (overlaps st !!! setU) (overlaps st !!! setV) in
  if edge_valid DIM aff e && negb (setU =? setV) then
    nPairCounted st' = nPairCounted st + k /\
    (loss st' == loss st + g * g * Q_of_nat k)%Q /\
    (flat (gradients st') e == (flat (gradients st) e + g * Q_of_nat k) / Q_of_nat norm)%Q
  else st' = st.
Proof.
  intros Hvalid Hshape Hg0 Hwg0 Hq He norm st st' setU setV g k.
  pose proof Hvalid as (_ & Hdg & Hwa & Hwg).
  assert (st' = sweep_body DIM aff gt pos norm st e) as ->.
  { subst st' st. unfold sweep. by rewrite foldl_app. }
  rewrite sweep_body_unfold.
  destruct (edge_valid DIM aff e) eqn:Hv; [|done]. simpl andb.
  destruct (Nat.eqb_spec setU setV) as [Heq|Hne]; simpl negb; cbv iota.
  { unfold merge_edge. fold setU setV. by rewrite Heq, Nat.eqb_refl. }
  destruct (sweep_fold DIM aff gt pos norm Hshape Hdg
              (sc_segmentSizes (scan DIM gt)) queue (sweep_start DIM gt g0))
    as (_ & _ & _ & Hs & Hl & _); [done|by apply sweep_start_inv|done|].
  change (shape (gradients st) = shape aff) in Hs.
  change (length (data (gradients st)) = length (data g0)) in Hl.
  assert (offset (gradients st) (affCoord_of DIM aff e) = e) as Hoff
    by (by apply (offset_affCoord DIM aff gt Hshape Hdg)).
  assert (e < length (data (gradients st))) as Hlen.
  { rewrite Hl. unfold well_formed, size in *. rewrite Hwg0, Hg0. done. }
  destruct (merge_edge_values aff pos norm (affCoord_of DIM aff e)
              (nodeU_of DIM aff gt e) (nodeV_of DIM aff gt e) st)
    as (M1 & M2 & M3); [lia|done|].
  cbv zeta in M1, M2, M3. fold setU setV in M1, M2, M3.
  assert (get aff (affCoord_of DIM aff e) = flat aff e) as Ea.
  { unfold get, flat. by rewrite (offset_affCoord DIM aff gt Hshape Hdg). }
  rewrite Ea in M2, M3. fold g k in M1, M2, M3.
  split; [done|]. split; [done|].
  destruct (merge_edge_gradients aff pos norm (affCoord_of DIM aff e)
              (nodeU_of DIM aff gt e) (nodeV_of DIM aff gt e) st) as (G1 & _ & _).
  unfold get in M3. unfold offset in M3, Hoff. rewrite G1 in M3.
  rewrite Hoff in M3. exact M3.
Qed.

Lemma iteration_of_an_edge_witness :
  valid_arrays 1 example_aff example_gt /\ shape example_aff = 1 :: shape example_gt /\
  shape (gradientsOut example_outs) = shape example_aff /\
  well_formed (gradientsOut example_outs) /\
  Forall (fun e => e < size example_aff) [1; 3] /\ 2 < size example_aff /\
  let st := sweep 1 example_aff example_gt false (gradientsOut example_outs) [1; 3] in
  let st' := sweep 1 example_aff example_gt false (gradientsOut example_outs)
               ([1; 3] ++ [2]) in
  nPairCounted st' = nPairCounted st + 4 /\
  (loss st' == loss st + (- (1 # 10)) * (- (1 # 10)) * Q_of_nat 4)%Q /\
  (flat (gradients st') 2
   == (flat (gradients st) 2 + (- (1 # 10)) * Q_of_nat 4) / Q_of_nat 4)%Q.
Proof.
  assert (Forall (fun e => e < size example_aff) [1; 3]) as Hq
    by (repeat constructor; vm_compute; lia).
  assert (2 < size example_aff) as He by (vm_compute; lia).
  split; [exact example_valid_arrays|]. split; [reflexivity|]. split; [reflexivity|].
  split; [reflexivity|]. split; [exact Hq|]. split; [exact He|].
  exact (iteration_of_an_edge 1 example_aff example_gt false
           (gradientsOut example_outs) [1; 3] 2 example_valid_arrays
           eq_refl eq_refl eq_refl Hq He).
Defined.

(** ** The constrained entry point: its derived arrays *)

Section DerivedLayout.

Variable indeterminate : nat -> Q.

Lemma derived_views_layout DIM aff gt :
  dimension aff = DIM + 1 ->
  let views := derived_views indeterminate DIM aff gt in
  shape views.1 = shape aff /\ shape views.2 = shape aff /\
  length (data views.1) = size aff /\ length (data views.2) = size aff.
Proof.
  intros Hd. unfold derived_views, forEachCoordinate.
  rewrite affShape_of_shape by done.
  rewrite (foldl_ext_in _ (fun views c =>
            (set views.1 c (stored_values DIM aff gt c).1,
             set views.2 c (stored_values DIM aff gt c).2)))
    by (intros; apply views_body_stored).
  destruct (store_loop (shape aff) (stored_values DIM aff gt) (seq 0 (product (shape aff)))
              (uninitialized indeterminate (shape aff))
              (uninitialized indeterminate (shape aff)))
    as (H1 & H2 & H3 & H4 & _); try done.
  - simpl. by rewrite length_fmap, length_seq.
  - simpl. by rewrite length_fmap, length_seq.
  - apply Forall_forall. intros k Hk. apply elem_of_seq in Hk. lia.
Qed.

Lemma derived_views_valid DIM aff gt :
  valid_arrays DIM aff gt ->
  let views := derived_views indeterminate DIM aff gt in
  valid_arrays DIM views.1 gt /\ valid_arrays DIM views.2 gt.
Proof.
  intros (Hda & Hdg & Hwa & Hwg) views.
  destruct (derived_views_layout DIM aff gt Hda) as (H1 & H2 & H3 & H4).
  fold views in H1, H2, H3, H4.
  unfold valid_arrays, dimension, well_formed, size in *.
  rewrite H1, H2, H3, H4. done.
Qed.

(** The elements of the two derived arrays at an edge index, in terms of
    the ground-truth affinity of the edge. *)
Lemma derived_views_at DIM aff gt e :
  valid_arrays DIM aff gt -> shape aff = DIM :: shape gt -> e < size aff ->
  let views := derived_views indeterminate DIM aff gt in
  data views.1 !! e
  = Some (if Qeq_bool (gtAffinity_of DIM aff gt e) 0 then 0%Q else flat aff e) /\
  data views.2 !! e
  = Some (if Qeq_bool (gtAffinity_of DIM aff gt e) 0 then flat aff e else 1%Q).
Proof.
  intros (Hda & Hdg & _ & _) Hshape He views.
  destruct (derived_views_stored indeterminate DIM aff gt e Hda He)
    as (_ & _ & _ & _ & H5 & H6). fold views in H5, H6.
  rewrite <- (affCoord_of_coordinate DIM aff gt Hshape Hdg) in H5, H6.
  rewrite H5, H6. unfold stored_values, gtAffinity_of.
  set (affCoord := affCoord_of DIM aff e).
  change (0 <? ((fun d => affCoord !!! d) <$> seq 1 DIM) !!! (affCoord !!! 0))
    with (edge_valid DIM aff e).
  change ((fun d => affCoord !!! d) <$> seq 1 DIM) with (gtCoordU_of DIM aff e).
  change (<[affCoord !!! 0 := gtCoordU_of DIM aff e !!! (affCoord !!! 0) - 1]>
            (gtCoordU_of DIM aff e)) with (gtCoordV_of DIM aff e).
  assert (get aff affCoord = flat aff e) as ->.
  { unfold get, flat. subst affCoord.
    by rewrite (offset_affCoord DIM aff gt Hshape Hdg). }
  cbv zeta. destruct (edge_valid DIM aff e); [|done].
  by destruct (_ || _).
Qed.

End DerivedLayout.

(** X15. The two derived arrays are what the comment on their loop says.
    For an affinity between 0 and 1, the positive array holds the minimum
    and the negative array the maximum of the affinity and of the
    ground-truth affinity of the edge, which is 0 for an invalid edge, for
    end points with different labels and for a label 0, and 1 otherwise;
    both stay between 0 and 1. *)
Theorem derived_views_are_min_and_max (indeterminate : nat -> Q) DIM aff gt (e : nat) :
  valid_arrays DIM aff gt -> shape aff = DIM :: shape gt -> e < size aff ->
  (0 <= flat aff e <= 1)%Q ->
  let views := derived_views indeterminate DIM aff gt in
  (flat views.1 e == Qminmax.Qmin (flat aff e) (gtAffinity_of DIM aff gt e))%Q /\
  (flat views.2 e == Qminmax.Qmax (flat aff e) (gtAffinity_of DIM aff gt e))%Q /\
  (0 <= flat views.1 e <= flat aff e)%Q /\ (flat aff e <= flat views.2 e <= 1)%Q.
Proof.
  intros Hvalid Hshape He Ha views.
  destruct (derived_views_at indeterminate DIM aff gt e Hvalid Hshape He) as [H1 H2].
  fold views in H1, H2.
  assert (flat views.1 e
          = if Qeq_bool (gtAffinity_of DIM aff gt e) 0 then 0%Q else flat aff e) as ->
    by (by apply list_lookup_total_correct).
  assert (flat views.2 e
          = if Qeq_bool (gtAffinity_of DIM aff gt e) 0 then flat aff e else 1%Q) as ->
    by (by apply list_lookup_total_correct).
  assert (gtAffinity_of DIM aff gt e = 0%Q \/ gtAffinity_of DIM aff gt e = 1%Q) as [->| ->].
  { unfold gtAffinity_of. destruct (edge_valid DIM aff e); [|by left].
    cbv zeta. destruct (_ || _); [by left|by right]. }
  - simpl. rewrite Qminmax.Q.min_r, Qminmax.Q.max_l by lra.
    split; [reflexivity|]. split; [reflexivity|]. lra.
  - simpl. rewrite Qminmax.Q.min_l, Qminmax.Q.max_r by lra.
    split; [reflexivity|]. split; [reflexivity|]. lra.
Qed.

Lemma derived_views_are_min_and_max_witness :
  valid_arrays 1 example_aff example_gt /\ shape example_aff = 1 :: shape example_gt /\
  2 < size example_aff /\ (0 <= flat example_aff 2 <= 1)%Q /\
  let views := derived_views (fun _ => 9%Q) 1 example_aff example_gt in
  (flat views.1 2 == Qminmax.Qmin (flat example_aff 2) (gtAffinity_of 1 example_aff example_gt 2))%Q /\
  (flat views.2 2 == Qminmax.Qmax (flat example_aff 2) (gtAffinity_of 1 example_aff example_gt 2))%Q /\
  (0 <= flat views.1 2 <= flat example_aff 2)%Q /\
  (flat example_aff 2 <= flat views.2 2 <= 1)%Q.
Proof.
  assert (2 < size example_aff) as He by (vm_compute; lia).
  assert (0 <= flat example_aff 2 <= 1)%Q as Ha by (split; by compute).
  split; [exact example_valid_arrays|]. split; [reflexivity|]. split; [exact He|].
  split; [exact Ha|].
  exact (derived_views_are_min_and_max (fun _ => 9%Q) 1 example_aff example_gt 2
           example_valid_arrays eq_refl He Ha).
Defined.

(** ** The constrained entry point: its two calls *)

Section ConstrainedCalls.

Variable std_sort : (nat -> nat -> bool) -> list nat -> list nat.

(** How the constrained entry point ends, from how its two calls end. *)
Lemma constrained_cases (indeterminate : nat -> Q) DIM aff gt (o : ConstrainedOuts) :
  dimension aff = DIM + 1 ->
  let views := derived_views indeterminate DIM aff gt in
  let zeroed := filled (shape aff) 0%Q in
  match compute_malis_gradient std_sort DIM views.1 gt true
          (mkOuts zeroed (indeterminate 0) (indeterminate 2) (indeterminate 1)) with
  | Throw e _ =>
      compute_constrained_malis_gradient std_sort indeterminate DIM aff gt o = Throw e o
  | Ok _ oP =>
      match compute_malis_gradient std_sort DIM views.2 gt false
              (mkOuts zeroed (indeterminate 3) (classificationErrorOut oP)
                      (randIndexOut oP)) with
      | Throw e _ =>
          compute_constrained_malis_gradient std_sort indeterminate DIM aff gt o
          = Throw e o
      | Ok _ oN =>
          compute_constrained_malis_gradient std_sort indeterminate DIM aff gt o
          = Ok tt (mkConstrainedOuts
                     (mkView (shape (c_gradientsOut o))
                        (zip_with Qplus (data (gradientsOut oN)) (data (gradientsOut oP))))
                     ((lossOut oP + lossOut oN) / 2)%Q)
      end
  end.
Proof.
  intros Hd. unfold compute_constrained_malis_gradient.
  rewrite affShape_of_shape by done.
  destruct (derived_views indeterminate DIM aff gt) as [viewP viewN]. simpl.
  unfold bind, call_local, modify.
  destruct (compute_malis_gradient std_sort DIM viewP gt true _) as [[] oP|]; [|done].
  by destruct (compute_malis_gradient std_sort DIM viewN gt false _) as [[] oN|].
Qed.

(** What a returning call leaves in the gradient array at an invalid
    edge, and the number of elements of the array. *)
Lemma returning_call_frame DIM aff gt pos (o o' : Outs) :
  permutes std_sort -> valid_arrays DIM aff gt ->
  dimension (gradientsOut o) = DIM + 1 ->
  compute_malis_gradient std_sort DIM aff gt pos o = Ok tt o' ->
  length (data (gradientsOut o')) = length (data (gradientsOut o)) /\
  forall e, invalid_edge DIM aff e ->
    data (gradientsOut o') !! e = data (gradientsOut o) !! e.
Proof.
  intros Hperm Hvalid Hdg Hrun.
  destruct (returning_call std_sort DIM aff gt pos o o' Hperm Hvalid Hdg Hrun)
    as (Ha & Hg & _ & -> & _ & _).
  pose proof Hvalid as (_ & Hd & _ & Hwf).
  pose proof (pqueue_of_bounded std_sort aff Hperm) as Hb.
  cbn [gradientsOut outputs_of]. unfold sweep. split.
  - destruct (sweep_fold DIM aff gt pos (nPairNorm_of pos (scan DIM gt)) Ha Hd
                (sc_segmentSizes (scan DIM gt)) (pqueue_of std_sort aff)
                (sweep_start DIM gt (gradientsOut o)))
      as (_ & _ & _ & _ & H2 & _); [done|by apply sweep_start_inv|done|done].
  - intros e Hinv.
    rewrite (foldl_skip _ e (pqueue_of std_sort aff))
      by (intros st; by apply sweep_body_invalid).
    destruct (sweep_fold DIM aff gt pos (nPairNorm_of pos (scan DIM gt)) Ha Hd
                (sc_segmentSizes (scan DIM gt))
                (filter (fun x => x <> e) (pqueue_of std_sort aff))
                (sweep_start DIM gt (gradientsOut o)))
      as (_ & _ & _ & _ & _ & Hframe).
    + apply Forall_forall. intros x Hx. apply list_elem_of_filter in Hx as [_ Hx].
      rewrite Forall_forall in Hb. by apply Hb.
    + by apply sweep_start_inv.
    + done.
    + apply Hframe. intros Hx. apply list_elem_of_filter in Hx as [Hx _]. by apply Hx.
Qed.

Lemma derived_views_equal (ind1 ind2 : nat -> Q) DIM aff gt :
  dimension aff = DIM + 1 ->
  derived_views ind1 DIM aff gt = derived_views ind2 DIM aff gt.
Proof.
  intros Hd.
  destruct (derived_views_layout ind1 DIM aff gt Hd) as (A1 & A2 & A3 & A4).
  destruct (derived_views_layout ind2 DIM aff gt Hd) as (B1 & B2 & B3 & B4).
  assert (forall e, e < size aff ->
            data (derived_views ind1 DIM aff gt).1 !! e
            = data (derived_views ind2 DIM aff gt).1 !! e /\
            data (derived_views ind1 DIM aff gt).2 !! e
            = data (derived_views ind2 DIM aff gt).2 !! e) as Hlk.
  { intros e He.
    destruct (derived_views_stored ind1 DIM aff gt e Hd He) as (_ & _ & _ & _ & -> & ->).
    destruct (derived_views_stored ind2 DIM aff gt e Hd He) as (_ & _ & _ & _ & -> & ->).
    done. }
  destruct (derived_views ind1 DIM aff gt) as [[s1 d1] [s2 d2]].
  destruct (derived_views ind2 DIM aff gt) as [[s3 d3] [s4 d4]].
  simpl in *. subst s1 s2 s3 s4.
  assert (d1 = d3) as ->.
  { apply list_eq_same_length with (size aff); [done|done|].
    intros i x y Hi Hx Hy. destruct (Hlk i Hi) as [E _]. congruence. }
  assert (d2 = d4) as ->.
  { apply list_eq_same_length with (size aff); [done|done|].
    intros i x y Hi Hx Hy. destruct (Hlk i Hi) as [_ E]. congruence. }
  done.
Qed.

Lemma derived_views_bounded (indeterminate : nat -> Q) DIM aff gt :
  valid_arrays DIM aff gt -> shape aff = DIM :: shape gt ->
  Forall (fun a => (0 <= a <= 1)%Q) (data aff) ->
  Forall (fun a => (0 <= a <= 1)%Q) (data (derived_views indeterminate DIM aff gt).1) /\
  Forall (fun a => (0 <= a <= 1)%Q) (data (derived_views indeterminate DIM aff gt).2).
Proof.
  intros Hvalid Hshape Hall. pose proof Hvalid as (Hda & _ & Hwa & _).
  destruct (derived_views_layout indeterminate DIM aff gt Hda) as (_ & _ & L1 & L2).
  assert (forall e, e < size aff -> (0 <= flat aff e <= 1)%Q) as Hflat.
  { intros e He. apply (Forall_lookup_total_1 _ _ e Hall).
    unfold well_formed in Hwa. lia. }
  split; apply Forall_lookup_2; intros e x Hx;
    (assert (e < size aff) as He by (apply lookup_lt_Some in Hx; lia));
    destruct (derived_views_at indeterminate DIM aff gt e Hvalid Hshape He) as [H1 H2];
    specialize (Hflat e He).
  - rewrite H1 in Hx. injection Hx as <-. destruct (Qeq_bool _ _); lra.
  - rewrite H2 in Hx. injection Hx as <-. destruct (Qeq_bool _ _); lra.
Qed.

End ConstrainedCalls.

(** X16. The constrained entry point does not depend on what its
    uninitialized storage holds: the loop over the edges overwrites every
    element of the two arrays allocated without initialization, and the
    scalars declared without a value are written before they are read. *)
Theorem constrained_ignores_uninitialized_storage std_sort (ind1 ind2 : nat -> Q)
    DIM aff gt (o : ConstrainedOuts) :
  dimension aff = DIM + 1 ->
  derived_views ind1 DIM aff gt = derived_views ind2 DIM aff gt /\
  compute_constrained_malis_gradient std_sort ind1 DIM aff gt o
  = compute_constrained_malis_gradient std_sort ind2 DIM aff gt o.
Proof.
  intros Hd. pose proof (derived_views_equal ind1 ind2 DIM aff gt Hd) as Hv.
  split; [done|].
  pose proof (constrained_cases std_sort ind1 DIM aff gt o Hd) as C1.
  pose proof (constrained_cases std_sort ind2 DIM aff gt o Hd) as C2.
  cbv zeta in C1, C2. rewrite Hv in C1.
  destruct (initial_scalars_irrelevant std_sort DIM
              (derived_views ind2 DIM aff gt).1 gt true (filled (shape aff) 0%Q)
              (ind1 0) (ind1 2) (ind1 1) (ind2 0) (ind2 2) (ind2 1))
    as [(e & E1 & E2)|(oP & E1 & E2)]; rewrite E1 in C1; rewrite E2 in C2;
    [congruence|].
  destruct (initial_scalars_irrelevant std_sort DIM
              (derived_views ind2 DIM aff gt).2 gt false (filled (shape aff) 0%Q)
              (ind1 3) (classificationErrorOut oP) (randIndexOut oP)
              (ind2 3) (classificationErrorOut oP) (randIndexOut oP))
    as [(e & F1 & F2)|(oN & F1 & F2)]; rewrite F1 in C1; rewrite F2 in C2;
    congruence.
Qed.

Lemma constrained_ignores_uninitialized_storage_witness :
  dimension example_aff = 1 + 1 /\
  derived_views (fun _ => 9%Q) 1 example_aff example_gt
  = derived_views (fun n => Q_of_nat n) 1 example_aff example_gt /\
  compute_constrained_malis_gradient insertion_sort (fun _ => 9%Q) 1
    example_aff example_gt stale_constrained_outs
  = compute_constrained_malis_gradient insertion_sort (fun n => Q_of_nat n) 1
      example_aff example_gt stale_constrained_outs.
Proof.
  split; [reflexivity|].
  exact (constrained_ignores_uninitialized_storage insertion_sort (fun _ => 9%Q)
           (fun n => Q_of_nat n) 1 example_aff example_gt stale_constrained_outs
           eq_refl).
Defined.



(** X18. After a returning call of the constrained entry point the
    gradient array has one element per edge, and the element of an
    invalid edge is the sum of the two zeros that the positive and the
    negative gradient array were filled with: neither pass writes there. *)
Theorem constrained_gradient_at_invalid_edges std_sort (indeterminate : nat -> Q)
    DIM aff gt (o o' : ConstrainedOuts) :
  permutes std_sort -> valid_arrays DIM aff gt ->
  compute_constrained_malis_gradient std_sort indeterminate DIM aff gt o = Ok tt o' ->
  length (data (c_gradientsOut o')) = size aff /\
  forall e, e < size aff -> invalid_edge DIM aff e ->
    data (c_gradientsOut o') !! e = Some (0 + 0)%Q.
Proof.
  intros Hperm Hvalid Hrun. pose proof Hvalid as (Hda & Hdg & _ & _).
  pose proof (constrained_cases std_sort indeterminate DIM aff gt o Hda) as C.
  destruct (derived_views_layout indeterminate DIM aff gt Hda) as (S1 & S2 & _ & _).
  destruct (derived_views_valid indeterminate DIM aff gt Hvalid) as [V1 V2].
  cbv zeta in C, V1, V2, S1, S2.
  set (viewP := (derived_views indeterminate DIM aff gt).1) in *.
  set (viewN := (derived_views indeterminate DIM aff gt).2) in *.
  destruct (compute_malis_gradient std_sort DIM viewP gt true _) as [[] oP|] eqn:HP;
    [|congruence].
  destruct (compute_malis_gradient std_sort DIM viewN gt false _) as [[] oN|] eqn:HN;
    [|congruence].
  rewrite C in Hrun. injection Hrun as <-. cbn [c_gradientsOut data].
  match type of HP with compute_malis_gradient _ _ _ _ _ ?i = _ =>
    destruct (returning_call_frame std_sort DIM viewP gt true i oP Hperm V1 Hda HP)
      as [LP FP]
  end.
  match type of HN with compute_malis_gradient _ _ _ _ _ ?i = _ =>
    destruct (returning_call_frame std_sort DIM viewN gt false i oN Hperm V2 Hda HN)
      as [LN FN]
  end.
  cbn [gradientsOut filled data] in LP, FP, LN, FN.
  rewrite length_replicate in LP, LN. fold (size aff) in LP, LN.
  split.
  - rewrite length_zip_with. lia.
  - intros e He Hinv. rewrite lookup_zip_with.
    rewrite FN by (by apply (invalid_edge_by_shape DIM aff)).
    rewrite FP by (by apply (invalid_edge_by_shape DIM aff)).
    rewrite lookup_replicate_2 by done. done.
Qed.

Lemma constrained_gradient_at_invalid_edges_witness :
  permutes insertion_sort /\ valid_arrays 2 grid_aff grid_gt /\
  let r := compute_constrained_malis_gradient insertion_sort (fun _ => 9%Q) 2
             grid_aff grid_gt (mkConstrainedOuts (filled [2; 2; 2] 5%Q) 7%Q) in
  r = Ok tt (outs_after r) /\
  length (data (c_gradientsOut (outs_after r))) = size grid_aff /\
  forall e, e < size grid_aff -> invalid_edge 2 grid_aff e ->
    data (c_gradientsOut (outs_after r)) !! e = Some (0 + 0)%Q.
Proof.
  assert (valid_arrays 2 grid_aff grid_gt) as Hv by (repeat split).
  assert (compute_constrained_malis_gradient insertion_sort (fun _ => 9%Q) 2
            grid_aff grid_gt (mkConstrainedOuts (filled [2; 2; 2] 5%Q) 7%Q)
          = Ok tt (outs_after
                     (compute_constrained_malis_gradient insertion_sort (fun _ => 9%Q) 2
                        grid_aff grid_gt (mkConstrainedOuts (filled [2; 2; 2] 5%Q) 7%Q))))
    as Hrun by (vm_compute; reflexivity).
  split; [exact insertion_sort_permutes|]. split; [exact Hv|].
  split; [exact Hrun|].
  exact (constrained_gradient_at_invalid_edges insertion_sort (fun _ => 9%Q) 2
           grid_aff grid_gt _ _ insertion_sort_permutes Hv Hrun).
Defined.

(** X19. The loss of a returning call of the constrained entry point is
    not negative, and it is at most 1 when every affinity lies between 0
    and 1: the two derived arrays stay in that range, and the loss is the
    mean of the losses of the two passes. *)
Theorem constrained_loss_in_range std_sort (indeterminate : nat -> Q)
    DIM aff gt (o o' : ConstrainedOuts) :
  permutes std_sort -> valid_arrays DIM aff gt ->
  compute_constrained_malis_gradient std_sort indeterminate DIM aff gt o = Ok tt o' ->
  (0 <= c_lossOut o')%Q /\
  (Forall (fun a => (0 <= a <= 1)%Q) (data aff) -> (c_lossOut o' <= 1)%Q).
Proof.
  intros Hperm Hvalid Hrun. pose proof Hvalid as (Hda & Hdg & _ & _).
  pose proof (constrained_cases std_sort indeterminate DIM aff gt o Hda) as C.
  destruct (derived_views_layout indeterminate DIM aff gt Hda) as (S1 & S2 & _ & _).
  destruct (derived_views_valid indeterminate DIM aff gt Hvalid) as [V1 V2].
  pose proof (derived_views_bounded indeterminate DIM aff gt Hvalid) as Hbd.
  cbv zeta in C, V1, V2, S1, S2.
  set (viewP := (derived_views indeterminate DIM aff gt).1) in *.
  set (viewN := (derived_views indeterminate DIM aff gt).2) in *.
  destruct (compute_malis_gradient std_sort DIM viewP gt true _) as [[] oP|] eqn:HP;
    [|congruence].
  destruct (compute_malis_gradient std_sort DIM viewN gt false _) as [[] oN|] eqn:HN;
    [|congruence].
  rewrite C in Hrun. injection Hrun as <-. cbn [c_lossOut].
  match type of HP with compute_malis_gradient _ _ _ _ _ ?i = _ =>
    destruct (returning_call std_sort DIM viewP gt true i oP Hperm V1 Hda HP)
      as (HsP & HgP & HnP & -> & _ & _)
  end.
  match type of HN with compute_malis_gradient _ _ _ _ _ ?i = _ =>
    destruct (returning_call std_sort DIM viewN gt false i oN Hperm V2 Hda HN)
      as (HsN & HgN & HnN & -> & _ & _)
  end.
  cbn [lossOut outputs_of gradientsOut] in *.
  apply Nat.ltb_lt in HnP as HnP'. apply Nat.ltb_lt in HnN as HnN'.
  rewrite HnP', HnN'.
  destruct (normalized_loss_range std_sort DIM viewP gt true (filled (shape aff) 0%Q)
              Hperm V1 HsP HgP HnP) as [P0 P1].
  destruct (normalized_loss_range std_sort DIM viewN gt false (filled (shape aff) 0%Q)
              Hperm V2 HsN HgN HnN) as [N0 N1].
  cbv zeta in P0, P1, N0, N1. rewrite S1 in HsP. split.
  - apply Qle_shift_div_l; lra.
  - intros Hall. destruct (Hbd HsP Hall) as [BP BN].
    specialize (P1 BP). specialize (N1 BN).
    apply Qle_shift_div_r; lra.
Qed.

Lemma constrained_loss_in_range_witness :
  permutes insertion_sort /\ valid_arrays 1 example_aff example_gt /\
  Forall (fun a => (0 <= a <= 1)%Q) (data example_aff) /\
  let r := compute_constrained_malis_gradient insertion_sort (fun _ => 9%Q) 1
             example_aff example_gt stale_constrained_outs in
  r = Ok tt (outs_after r) /\
  (0 <= c_lossOut (outs_after r))%Q /\ (c_lossOut (outs_after r) <= 1)%Q.
Proof.
  assert (compute_constrained_malis_gradient insertion_sort (fun _ => 9%Q) 1
            example_aff example_gt stale_constrained_outs
          = Ok tt (outs_after
                     (compute_constrained_malis_gradient insertion_sort (fun _ => 9%Q) 1
                        example_aff example_gt stale_constrained_outs)))
    as Hrun by (vm_compute; reflexivity).
  assert (Forall (fun a => (0 <= a <= 1)%Q) (data example_aff)) as Hall
    by (repeat constructor; by compute).
  split; [exact insertion_sort_permutes|]. split; [exact example_valid_arrays|].
  split; [exact Hall|]. split; [exact Hrun|].
  split;
    [exact (proj1 (constrained_loss_in_range insertion_sort (fun _ => 9%Q) 1
                     example_aff example_gt _ _ insertion_sort_permutes
                     example_valid_arrays Hrun))
    |exact (proj2 (constrained_loss_in_range insertion_sort (fun _ => 9%Q) 1
                     example_aff example_gt _ _ insertion_sort_permutes
                     example_valid_arrays Hrun) Hall)].
Defined.
